(** * marbl-forcing: grid adjacency, floor and vertical-fill kernels

    Shallow embedding of the array kernels of the two notebooks
    [initial_conditions/gen_cesm2_omip_IC.ipynb] (vertical fill, residual
    warning, derived quantities) and the iron sediment flux notebook
    (3D mask, land-adjacent points, [land_adj_sedfrac_min]).

    Arrays are nested lists in the index order of the notebooks,
    [(z_t, nlat, nlon)] for 3D fields and [(nlat, nlon)] for [KMT];
    vectorised expressions become [zip_with]s, slice assignments become
    list inserts. *)

From stdpp Require Import base option list strings gmap.
From Stdlib Require Import ZArith QArith Qminmax Lia Lqa.

Local Open Scope Z_scope.

(** ** Arrays *)

Module Arrays.

Abbreviation array2 A := (list (list A)) (only parsing).
Abbreviation array3 A := (list (list (list A))) (only parsing).

(** Element access [a[j, i]] and [a[k, j, i]]; [None] is out of range. *)
Definition at2 {A} (a : array2 A) (j i : nat) : option A :=
  a !! j ≫= λ row, row !! i.

Definition at3 {A} (a : array3 A) (k j i : nat) : option A :=
  a !! k ≫= λ level, at2 level j i.

(** [a.shape == (nj, ni)] and [a.shape == (nk, nj, ni)]. *)
Definition shape2 {A} (nj ni : nat) (a : array2 A) : Prop :=
  length a = nj ∧ Forall (λ row, length row = ni) a.

Definition shape3 {A} (nk nj ni : nat) (a : array3 A) : Prop :=
  length a = nk ∧ Forall (shape2 nj ni) a.

(** Element-wise binary operation on two arrays of one shape. *)
Definition map2 {A B C} (f : A → B → C) (a : array2 A) (b : array2 B)
  : array2 C :=
  zip_with (zip_with f) a b.

Definition map3 {A B C} (f : A → B → C) (a : array3 A) (b : array3 B)
  : array3 C :=
  zip_with (map2 f) a b.

(** A 3D array against a 2D one: xarray broadcasts the [(nlat, nlon)]
    array over the leading [z_t] dimension. *)
Definition bcast2 {A B C} (f : A → B → C) (a : array3 A) (b : array2 B)
  : array3 C :=
  (λ level, map2 f level b) <$> a.

(** [np.roll] along one axis, as [Variable._roll_one_dim] does it:
    [count %= n], then [a[-count:]] followed by [a[:-count]].  An empty
    axis is rejected by the caller (the modulus is by the axis length). *)
Definition roll {A} (count : Z) (l : list A) : list A :=
  let n := length l in
  let c := Z.to_nat (count `mod` Z.of_nat n) in
  drop (n - c)%nat l ++ take (n - c)%nat l.

(** [a.roll(nlat=jroll, nlon=iroll, roll_coords=False)]. *)
Definition roll2 {A} (jroll iroll : Z) (a : array2 A) : array2 A :=
  roll jroll (roll iroll <$> a).

(** The index a rolled axis reads from: [(i - count) mod n]. *)
Definition wrap (n : nat) (i : nat) (count : Z) : nat :=
  Z.to_nat ((Z.of_nat i - count) `mod` Z.of_nat n).

(** Python exceptions the modelled statements can raise. *)
Inductive exn : Type := ValueError | IndexError | KeyError | ZeroDivisionError.

(** The lengths of all rows of all levels: two arrays have one shape
    when these agree. *)
Definition dims {A} (a : array3 A) : list (list nat) :=
  fmap (M := list) (fmap length) a.

End Arrays.

Import Arrays.


(** ** Iron sediment flux notebook: mask, land-adjacent points, floor *)

Module FeSedflux.

(** The part of the dataset [ds] the cells below read: the depth
    coordinate [z_t] and the bottom index [KMT]. *)
Record Dataset : Type := { z_t : list Q; KMT : array2 Z }.

(** A value on the right of an indexed assignment: 1D or 2D. *)
Inductive ndarray : Type :=
  | Arr1 (row : list Z)
  | Arr2 (rows : array2 Z).

(** [v[j, :] = value] on a 2D variable.  Row [j] must exist; the
    indexing result has one dimension ([nlon]), and
    [Variable.__setitem__] raises ValueError for a value of more
    dimensions before anything is written.  A 1D value is stored in
    place, a length-one value being broadcast along the row. *)
Definition setitem_row (j : nat) (value : ndarray) (a : array2 Z)
  : exn + array2 Z :=
  match a !! j with
  | None => inl IndexError
  | Some old =>
      match value with
      | Arr2 _ => inl ValueError
      | Arr1 row =>
          if decide (length row = length old) then inr (<[j := row]> a)
          else if decide (length row = 1%nat)
               then inr (<[j := replicate (length old) (default 0 (head row))]> a)
               else inl ValueError
      end
  end.

(** [kmt_rollable[::-1, :]]: the step -1 is on the first ([nlat]) axis. *)
Definition flip_nlat {A} (a : array2 A) : array2 A := reverse a.

(** [nj, ni = ds.KMT.shape] *)
Definition shape_of {A} (a : array2 A) : nat * nat :=
  (length a, from_option length 0%nat (head a)).

(** [itertools.product] *)
Definition product {A B} (l : list A) (k : list B) : list (A * B) :=
  x ← l; y ← k; [(x, y)].

(** [np.empty((nj, ni, nc))]: the contents are unspecified; zero stands
    for them, every entry being assigned before it is read. *)
Definition np_empty (nj ni nc : nat) : array3 Z :=
  replicate nj (replicate ni (replicate nc 0)).

(** [kmt_neighbors[:, :, n] = r] *)
Definition setitem_corner (n : nat) (r : array2 Z) (a : array3 Z) : array3 Z :=
  map2 (λ cell v, <[n := v]> cell) a r.

(** One iteration of the loop over [(iroll, jroll)], with its counter [n]. *)
Definition roll_step (kmt_rollable : array2 Z)
    (st : nat * array3 Z) (r : Z * Z) : nat * array3 Z :=
  let '(n, kmt_neighbors) := st in
  let '(iroll, jroll) := r in
  if bool_decide (iroll = 0 ∧ jroll = 0) then st
  else (S n, setitem_corner n (roll2 jroll iroll kmt_rollable) kmt_neighbors).

Definition kmt_neighbors_of (nj ni : nat) (kmt_rollable : array2 Z) : array3 Z :=
  (foldl (roll_step kmt_rollable) (0%nat, np_empty nj ni 8)
         (product [-1; 0; 1] [-1; 0; 1])).2.

(** [.any(dim='corner')] and [.min(dim='corner')] on one cell. *)
Definition any_corner (cell : list bool) : bool := existsb id cell.

Definition min_corner (cell : list Z) : Z :=
  match cell with
  | [] => 0
  | d :: cell' => foldl Z.min d cell'
  end.

(** [side_wall_present = (kmt_neighbors <= ds.KMT).any(dim='corner')] *)
Definition side_wall_present (kmt_neighbors : array3 Z) (kmt : array2 Z)
  : array2 bool :=
  fmap (M := list) (fmap any_corner)
    (map2 (λ cell K, (λ d, bool_decide (d ≤ K)) <$> cell) kmt_neighbors kmt).

(** [side_wall_kmt_min = (kmt_neighbors).min(dim='corner').astype(np.int)] *)
Definition side_wall_kmt_min (kmt_neighbors : array3 Z) : array2 Z :=
  fmap (M := list) (fmap min_corner) kmt_neighbors.

(** [ZERO_TO_KM = zero_to_km * ONES_3d] with [zero_to_km = arange(0, nk)]. *)
Definition ONES_3d (nk nj ni : nat) : array3 Z :=
  replicate nk (replicate nj (replicate ni 1)).

Definition ZERO_TO_KM (nk nj ni : nat) : array3 Z :=
  zip_with (λ k level, fmap (M := list) (fmap (Z.mul k)) level)
           (seqZ 0 (Z.of_nat nk)) (ONES_3d nk nj ni).

(** [a.where(cond)]: keep where [cond], NaN ([None]) elsewhere. *)
Definition where_ {A} (a : array3 A) (cond : array3 bool) : array3 (option A) :=
  map3 (λ x (c : bool), if c then Some x else None) a cond.

(** [xr.where(a.notnull(), 1., 0.)] *)
Definition notnull_flag {A} (a : array3 (option A)) : array3 Z :=
  fmap (M := list) (fmap (M := list) (fmap (λ o : option A, if o is Some _ then 1 else 0))) a.

Definition zeros_like {A} (a : array3 A) : array3 Z :=
  fmap (M := list) (fmap (M := list) (fmap (λ _, 0))) a.

(** [MASK = ZERO_TO_KM.where(ZERO_TO_KM < ds.KMT)], then
    [MASK = xr.where(MASK.notnull(), 1., 0.)]. *)
Definition MASK (nk nj ni : nat) (kmt : array2 Z) : array3 Z :=
  let ZK := ZERO_TO_KM nk nj ni in
  notnull_flag (where_ ZK (bcast2 (λ z K, bool_decide (z < K)) ZK kmt)).

(** The condition of [land_adjacent.where(...)]:
    [(side_wall_present & (ZERO_TO_KM < ds.KMT)
       & (ZERO_TO_KM >= side_wall_kmt_min)) | (ZERO_TO_KM == ds.KMT-1)]. *)
Definition land_adjacent_cond (nk nj ni : nat) (kmt_neighbors : array3 Z)
    (kmt : array2 Z) : array3 bool :=
  let ZK := ZERO_TO_KM nk nj ni in
  let swp := side_wall_present kmt_neighbors kmt in
  let swmin := side_wall_kmt_min kmt_neighbors in
  let KMT_minus_1 := fmap (M := list) (fmap (λ K, K - 1)) kmt in
  map3 orb
    (map3 andb
       (bcast2 (λ (t s : bool), s && t)
               (bcast2 (λ z K, bool_decide (z < K)) ZK kmt) swp)
       (bcast2 (λ z m, bool_decide (m ≤ z)) ZK swmin))
    (bcast2 (λ z K1, bool_decide (z = K1)) ZK KMT_minus_1).

(** The cell "Determine land-adjacent points", run after the mask cell
    ([nk], [nj], [ni], [ZERO_TO_KM] and [MASK] come from there).
    [kmt_rollable = ds.KMT] is an alias of the dataset's variable, so the
    tripole assignment, if it is accepted, writes to [ds]; the final
    dataset is returned with the outcome.  The rolls take their shift
    modulo the axis length and raise on an empty axis. *)
Definition land_adjacent_points (ltripole : bool) (ds : Dataset)
  : Dataset * (exn + array3 Z) :=
  let nk := length (z_t ds) in
  let '(nj, ni) := shape_of (KMT ds) in
  let MASK := MASK nk nj ni (KMT ds) in
  let assigned :=
    if ltripole
    then setitem_row 0 (Arr2 (flip_nlat (KMT ds))) (KMT ds)
    else inr (KMT ds) in
  match assigned with
  | inl e => (ds, inl e)
  | inr kmt_rollable =>
      let ds := {| z_t := z_t ds; KMT := kmt_rollable |} in
      if bool_decide (nj = 0 ∨ ni = 0)%nat
      then (ds, inl ZeroDivisionError)
      else
        let kmt_neighbors := kmt_neighbors_of nj ni kmt_rollable in
        let land_adjacent := zeros_like MASK in
        let land_adjacent :=
          where_ land_adjacent
                 (land_adjacent_cond nk nj ni kmt_neighbors (KMT ds)) in
        (ds, inr (notnull_flag land_adjacent))
  end.

(** *** Apply [land_adj_sedfrac_min] *)

(** [x < y] on floats that are not NaN ([sedfrac] went through
    [fillna(0.)] when it was read). *)
Definition Qltb (x y : Q) : bool :=
  match (x ?= y)%Q with Lt => true | _ => false end.

(** [a == 1.] *)
Definition eq_one (a : array3 Z) : array3 bool :=
  fmap (M := list) (fmap (M := list) (fmap (λ f, bool_decide (f = 1)))) a.

(** [xr.where(cond, x, a)] with a scalar [x]. *)
Definition xr_where_scalar {A} (cond : array3 bool) (x : A) (a : array3 A)
  : array3 A :=
  map3 (λ (c : bool) y, if c then x else y) cond a.

(** [a.fillna(x)] *)
Definition fillna {A} (x : A) (a : array3 (option A)) : array3 A :=
  fmap (M := list) (fmap (M := list) (fmap (default x))) a.

(** [sedfrac_mod = xr.where((land_adjacent==1.) & (sedfrac < land_adj_sedfrac_min),
                            land_adj_sedfrac_min, sedfrac)], the transpose
    to [(z_t, nlat, nlon)] (the order arrays have here throughout), then
    [sedfrac_mod.where(MASK==1.).fillna(0.)].  The three arrays are of
    one shape, as the notebook's are: on arrays whose sizes differ along
    a dimension xarray raises [ValueError], and nothing is claimed of the
    value given here for them. *)
Definition sedfrac_mod (land_adjacent : array3 Z) (sedfrac : array3 Q)
    (land_adj_sedfrac_min : Q) (MASK : array3 Z) : array3 Q :=
  let below :=
    fmap (M := list) (fmap (M := list)
      (fmap (λ x, Qltb x land_adj_sedfrac_min))) sedfrac in
  let sedfrac_mod :=
    xr_where_scalar (map3 andb (eq_one land_adjacent) below)
                    land_adj_sedfrac_min sedfrac in
  fillna 0%Q (where_ sedfrac_mod (eq_one MASK)).

(** The contract as worded: [max(input, floor)] wherever the cell is
    land-adjacent, the input at masked cells that are not, zero outside
    the mask, and a value at every cell. *)
Definition floor_contract (land_adjacent : array3 Z) (sedfrac : array3 Q)
    (floor : Q) (MASK : array3 Z) : Prop :=
  ∀ k j i x f m,
    at3 sedfrac k j i = Some x →
    at3 land_adjacent k j i = Some f →
    at3 MASK k j i = Some m →
    ∃ y, at3 (sedfrac_mod land_adjacent sedfrac floor MASK) k j i = Some y
         ∧ (f = 1 → y = Qmax x floor)
         ∧ (m = 1 → f ≠ 1 → y = x)
         ∧ (m ≠ 1 → y = 0%Q).

(** *** Index-level reading of the neighbourhood

    The rolls [(iroll, jroll)] the loop records, in its order, and the
    cells they read: a roll by [count] makes position [i] hold what was
    at [(i - count) mod n]. *)
Definition offsets : list (Z * Z) :=
  [(-1, -1); (-1, 0); (-1, 1); (0, -1); (0, 1); (1, -1); (1, 0); (1, 1)].

Definition neighbor_depths (kmt : array2 Z) (j i : nat) : option (list Z) :=
  let '(nj, ni) := shape_of kmt in
  mapM (λ r : Z * Z, at2 kmt (wrap nj j r.2) (wrap ni i r.1)) offsets.

(** *** The adjacency rule in the words of the component contract

    Rule (a): some neighbour has [neighbor_depth <= bottom_index], the
    level is wet, and it is at or below the minimum taken over those
    qualifying neighbours; rule (b): the bottom-most wet level. *)
Fixpoint minimum (l : list Z) : option Z :=
  match l with
  | [] => None
  | d :: l' => Some (from_option (Z.min d) d (minimum l'))
  end.

Definition qualifying (K : Z) (nbrs : list Z) : list Z :=
  filter (λ d, d ≤ K) nbrs.

Definition land_adjacent_rule (k : nat) (K : Z) (nbrs : list Z) : Prop :=
  ((∃ d, d ∈ nbrs ∧ d ≤ K)
   ∧ Z.of_nat k < K
   ∧ ∃ m, minimum (qualifying K nbrs) = Some m ∧ m ≤ Z.of_nat k)
  ∨ Z.of_nat k = K - 1.

(** The array a successful run of the cell returns. *)
Definition land_adjacent_array (nk nj ni : nat) (kmt : array2 Z) : array3 Z :=
  notnull_flag
    (where_ (zeros_like (MASK nk nj ni kmt))
            (land_adjacent_cond nk nj ni (kmt_neighbors_of nj ni kmt) kmt)).

(** What the vectorised condition amounts to at one cell. *)
Definition cell_cond (k : nat) (K : Z) (nbrs : list Z) : bool :=
  (existsb (λ d, bool_decide (d ≤ K)) nbrs
   && bool_decide (Z.of_nat k < K)
   && bool_decide (min_corner nbrs ≤ Z.of_nat k))
  || bool_decide (Z.of_nat k = K - 1).

(** The neighbourhood with the [j] index read as a plain shift: the
    [i] index wraps, a row beyond the array edge gives no neighbour. *)
Definition neighbor_depths_plain_j (kmt : array2 Z) (j i : nat) : list Z :=
  let '(nj, ni) := shape_of kmt in
  omap (λ r : Z * Z,
          let j' := Z.of_nat j - r.2 in
          if bool_decide (0 ≤ j' < Z.of_nat nj)
          then at2 kmt (Z.to_nat j') (wrap ni i r.1)
          else None)
       offsets.

Definition plain_j_shift (kmt : array2 Z) : Prop :=
  let '(nj, ni) := shape_of kmt in
  ∀ j i nbrs d,
    at2 (kmt_neighbors_of nj ni kmt) j i = Some nbrs →
    d ∈ nbrs → d ∈ neighbor_depths_plain_j kmt j i.

(** *** Fixtures *)

(** Three levels, 3x3 columns, a single deep column at the centre. *)
Definition fixture : Dataset :=
  {| z_t := [500; 1500; 2500]%Q;
     KMT := [[1; 1; 1]; [1; 2; 1]; [1; 1; 1]] |}.

(** What the end-to-end scenario expects of [fixture]. *)
Definition fixture_expected : array3 Z :=
  [ [[1; 1; 1]; [1; 1; 1]; [1; 1; 1]];
    [[0; 0; 0]; [0; 1; 0]; [0; 0; 0]];
    [[0; 0; 0]; [0; 0; 0]; [0; 0; 0]] ].

(** What the cell computes on [fixture]. *)
Definition fixture_computed : array3 Z :=
  [ [[1; 1; 1]; [1; 0; 1]; [1; 1; 1]];
    [[0; 0; 0]; [0; 1; 0]; [0; 0; 0]];
    [[0; 0; 0]; [0; 0; 0]; [0; 0; 0]] ].

(** Five levels; two deep rows and a shallow last row. *)
Definition seam_grid : Dataset :=
  {| z_t := [500; 1500; 2500; 3500; 4500]%Q;
     KMT := [[5; 5; 5]; [5; 5; 5]; [1; 1; 1]] |}.

(** Two rows that differ, for the tripole assignment. *)
Definition tripole_grid : Dataset :=
  {| z_t := [500; 1500; 2500]%Q;
     KMT := [[1; 2; 3]; [3; 3; 3]] |}.

(** *** Further cells of the sediment flux notebook *)

(** [sedfrac = sedfrac.where(ds.KMT > 0).fillna(0.)] on the array read
    from the file, which may hold NaN. *)
Definition sedfrac_read (sedfrac : array3 (option Q)) (kmt : array2 Z)
  : array3 Q :=
  fillna 0%Q
    (bcast2 (λ (x : option Q) K, if bool_decide (0 < K) then x else None)
            sedfrac kmt).

(** [land_adjacent_viz = xr.where(land_adjacent==0, MASK*2., land_adjacent)] *)
Definition land_adjacent_viz (land_adjacent MASK : array3 Z) : array3 Z :=
  map3 (λ (cm : bool * Z) la, if cm.1 then cm.2 else la)
       (map3 pair
          (fmap (M := list) (fmap (M := list)
             (fmap (λ f, bool_decide (f = 0)))) land_adjacent)
          (fmap (M := list) (fmap (M := list) (fmap (λ m, m * 2))) MASK))
       land_adjacent.

(** [kmin = int(ds.KMT.where(ds.KMT>0).min() - 1)]: the minimum skips
    the NaN of the land columns; with no ocean column it is NaN (or the
    reduction is over nothing) and the conversion raises ValueError. *)
Definition kmin (kmt : array2 Z) : exn + Z :=
  match minimum (filter (λ K, 0 < K) (concat kmt)) with
  | Some m => inr (m - 1)
  | None => inl ValueError
  end.

(** Comparisons of a float that may be NaN with a number: false on NaN. *)
Definition le_nan (v : option Q) (y : Q) : bool :=
  match v with
  | Some x => match (x ?= y)%Q with Gt => false | _ => true end
  | None => false
  end.

Definition lt_nan (v : option Q) (y : Q) : bool :=
  match v with Some x => Qltb x y | None => false end.

Definition gt_nan (v : option Q) (y : Q) : bool :=
  match v with Some x => Qltb y x | None => false end.

(** [POC_flux = xr.where(POC_flux <= POC_flux_gCm2yr_min, 0., POC_flux)]
    [POC_flux = xr.where(POC_flux > POC_flux_gCm2yr_max, POC_flux_gCm2yr_max, POC_flux)]
    applied to the flux already converted to gC/m^2/yr. *)
Definition POC_flux_clamp (POC_flux : array3 (option Q))
    (POC_flux_gCm2yr_min POC_flux_gCm2yr_max : Q) : array3 (option Q) :=
  let POC_flux :=
    xr_where_scalar
      (fmap (M := list) (fmap (M := list)
         (fmap (λ v, le_nan v POC_flux_gCm2yr_min))) POC_flux)
      (Some 0%Q) POC_flux in
  xr_where_scalar
    (fmap (M := list) (fmap (M := list)
       (fmap (λ v, gt_nan v POC_flux_gCm2yr_max))) POC_flux)
    (Some POC_flux_gCm2yr_max) POC_flux.

(** [current_speed = xr.where(current_speed < current_speed_min, current_speed_min, current_speed)]
    [current_speed = xr.where(current_speed > 10., current_speed_max, current_speed)]
    applied to the speed [sqrt(UVEL**2 + VVEL**2)]; the upper test is
    against the literal [10.]. *)
Definition current_speed_clamp (current_speed : array3 (option Q))
    (current_speed_min current_speed_max : Q) : array3 (option Q) :=
  let current_speed :=
    xr_where_scalar
      (fmap (M := list) (fmap (M := list)
         (fmap (λ v, lt_nan v current_speed_min))) current_speed)
      (Some current_speed_min) current_speed in
  xr_where_scalar
    (fmap (M := list) (fmap (M := list)
       (fmap (λ v, gt_nan v 10%Q))) current_speed)
    (Some current_speed_max) current_speed.

End FeSedflux.

Import FeSedflux.

(** ** Initial-conditions notebook: vertical fill, warning, DOCtot *)

Module InitialConditions.

(** [MASK = ZERO_TO_KM.where(ZERO_TO_KM < ds_out.KMT)], then
    [MASK = xr.where(MASK.notnull(), True, False)]. *)
Definition MASK (nk nj ni : nat) (kmt : array2 Z) : array3 bool :=
  let ZK := ZERO_TO_KM nk nj ni in
  fmap (M := list) (fmap (M := list) (fmap (λ o : option Z, bool_decide (is_Some o))))
    (where_ ZK (bcast2 (λ z K, bool_decide (z < K)) ZK kmt)).

Section fields.
(** Float payloads; a field holds [None] where the value is NaN. *)
Context {V : Type}.

Definition isnull (v : option V) : bool :=
  match v with None => true | Some _ => false end.

(** [unfilled = tracer_full_regrid.isnull() & (MASK == 1.)] *)
Definition unfilled_of (tracer : array3 (option V)) (MASK : array3 bool)
  : array3 bool :=
  map3 (λ v (m : bool), isnull v && m) tracer MASK.

(** [xr.where(cond, a, b)] on one level. *)
Definition xr_where (cond : array2 bool) (a b : array2 (option V))
  : array2 (option V) :=
  map2 (λ (ca : bool * option V) y, if ca.1 then ca.2 else y)
       (map2 pair cond a) b.

(** [.any()] over a whole array. *)
Definition any3 (a : array3 bool) : bool :=
  existsb (existsb (existsb id)) a.

(** Body of [for k in range(1, nk)]:
    [tracer[k, :, :] = xr.where(unfilled[k, :, :], tracer[k-1, :, :],
                                tracer[k, :, :])].
    The three levels exist for every [k] of the range on arrays of
    [nk] levels. *)
Definition fill_level (unfilled : array3 bool)
    (tracer : array3 (option V)) (k : nat) : array3 (option V) :=
  match unfilled !! k, tracer !! (k - 1)%nat, tracer !! k with
  | Some u, Some above, Some cur => <[k := xr_where u above cur]> tracer
  | _, _, _ => tracer
  end.

Definition range (lo hi : nat) : list nat := seq lo (hi - lo).

Definition fill_loop (nk : nat) (unfilled : array3 bool)
    (tracer : array3 (option V)) : array3 (option V) :=
  foldl (fill_level unfilled) tracer (range 1 nk).

(** The block "perform vertical fill": the field it leaves and
    whether [warnings.warn] is reached. *)
Definition vertical_fill (nk : nat) (tracer_full_regrid : array3 (option V))
    (MASK : array3 bool) : array3 (option V) * bool :=
  let unfilled := unfilled_of tracer_full_regrid MASK in
  if any3 unfilled then
    let tracer_full_regrid := fill_loop nk unfilled tracer_full_regrid in
    (tracer_full_regrid, any3 (unfilled_of tracer_full_regrid MASK))
  else (tracer_full_regrid, false).

(** The notebook state the block acts on: the output dataset and the
    warnings issued so far. *)
Record State : Type := {
  ds_out : gmap string (array3 (option V));
  warnings : list string
}.

(** End of one iteration of [for tracername in omip_metadata], from
    the lateral fill's result on: vertical fill, the warning, and
    [ds_out[tracername] = tracer_full_regrid]. *)
Definition fill_and_store (nk : nat) (MASK : array3 bool)
    (tracername : string) (tracer_full_regrid : array3 (option V))
    (st : State) : State :=
  let '(tracer_full_regrid, warn) :=
    vertical_fill nk tracer_full_regrid MASK in
  {| ds_out := <[tracername := tracer_full_regrid]> (ds_out st);
     warnings :=
       warnings st
       ++ (if warn then [tracername +:+ " still has missing values"]
           else []) |}.

(** The filled value of one cell, read down its column: level 0 is
    kept, a level that was unfilled takes the filled value above. *)
Fixpoint filled_at (tracer : array3 (option V)) (unfilled : array3 bool)
    (k j i : nat) : option (option V) :=
  match k with
  | O => at3 tracer 0 j i
  | S k' =>
      u ← at3 unfilled k j i;
      if (u : bool) then filled_at tracer unfilled k' j i
      else at3 tracer k j i
  end.

End fields.

(** *** Datasets, variables and the arrays they share

    [ds_out[name]] builds a DataArray around the dataset's own Variable
    object, so an assignment to [.values] or [.attrs] of that DataArray
    is seen through the dataset.  Variable objects live in a heap and are
    named by their address. *)
Section xarray_objects.
Context {V : Type}.
Variable add : V → V → V.

(** An [xarray.Variable] object. *)
Record Var : Type := {
  data : array3 (option V);
  attrs : gmap string string
}.

Record Store : Type := {
  heap : gmap nat Var;
  variables : gmap string nat     (* [ds_out._variables] *)
}.

(** Statements that read or write the store and may raise. *)
Definition M (A : Type) : Type := Store → exn + (A * Store).

Definition ret {A} (x : A) : M A := λ s, inr (x, s).

Definition bind {A B} (m : M A) (f : A → M B) : M B :=
  λ s, match m s with
       | inl e => inl e
       | inr (x, s') => f x s'
       end.

Definition raise {A} (e : exn) : M A := λ _, inl e.

Notation "x <- m ;; k" := (bind m (λ x, k))
  (at level 20, m at level 99, k at level 200, only parsing).
Notation "m ;; k" := (bind m (λ _, k))
  (at level 100, k at level 200, only parsing, right associativity).

(** [ds_out[name]] *)
Definition getitem (name : string) : M nat :=
  λ s, match variables s !! name with
       | Some r => inr (r, s)
       | None => inl KeyError
       end.

Definition deref (da : nat) : M Var :=
  λ s, match heap s !! da with
       | Some v => inr (v, s)
       | None => inl KeyError
       end.

(** [da.values] *)
Definition values (da : nat) : M (array3 (option V)) :=
  v <- deref da ;; ret (data v).

(** [da.values = new]: the Variable's data setter refuses data of
    another shape. *)
Definition set_values (da : nat) (new : array3 (option V)) : M unit :=
  v <- deref da ;;
  if decide (dims new = dims (data v))
  then λ s, inr (tt, {| heap := <[da := {| data := new; attrs := attrs v |}]> (heap s);
                        variables := variables s |})
  else raise ValueError.

(** [da.attrs[key] = text] *)
Definition set_attr (da : nat) (key text : string) : M unit :=
  v <- deref da ;;
  λ s, inr (tt, {| heap := <[da := {| data := data v;
                                      attrs := <[key := text]> (attrs v) |}]> (heap s);
                   variables := variables s |}).

(** [ds_out[name] = da]: the dataset keeps a shallow copy, a new
    Variable object over the same data. *)
Definition setitem (name : string) (da : nat) : M unit :=
  v <- deref da ;;
  λ s, let r := fresh (dom (heap s)) in
       inr (tt, {| heap := <[r := v]> (heap s);
                   variables := <[name := r]> (variables s) |}).

(** [a + b] on two fields of one shape; NaN is absorbing. *)
Definition add_nan (a b : option V) : option V :=
  match a, b with
  | Some x, Some y => Some (add x y)
  | _, _ => None
  end.

(** [a + b] on the [.values] of two variables.  Operands of the same
    dimensions are added cell by cell, as the notebook's always are (both
    are masked fields on [(z_t, nlat, nlon)]); operands of other
    dimensions are refused, also the compatible ones that numpy would
    broadcast, which no caller passes. *)
Definition np_add (a b : array3 (option V)) : M (array3 (option V)) :=
  if decide (dims a = dims b) then ret (map3 add_nan a b)
  else raise ValueError.

(** The cell "set derived quantities". *)
Definition set_derived_quantities : M unit :=
  DIC <- getitem "DIC" ;;
  setitem "DIC_ALT_CO2" DIC ;;
  ALK <- getitem "ALK" ;;
  setitem "ALK_ALT_CO2" ALK ;;
  DOCtot <- getitem "DOC" ;;
  DOC <- getitem "DOC" ;;
  DOC_values <- values DOC ;;
  DOCr <- getitem "DOCr" ;;
  DOCr_values <- values DOCr ;;
  total <- np_add DOC_values DOCr_values ;;
  set_values DOCtot total ;;
  set_attr DOCtot "long_name" "DOC + DOCr" ;;
  setitem "DOCtot" DOCtot.

(** The values the dataset holds under a name. *)
Definition read (name : string) (s : Store) : option (array3 (option V)) :=
  r ← variables s !! name; v ← heap s !! r; Some (data v).

End xarray_objects.

(** A dataset of one-cell fields, for the derived quantities. *)
Definition tracers_store : Store (V := Z) :=
  {| heap :=
       <[0%nat := Build_Var [[[Some 2000]]] ∅]>
         (<[1%nat := Build_Var [[[Some 2300]]] ∅]>
           (<[2%nat := Build_Var [[[Some 40]]] ∅]>
             (<[3%nat := Build_Var [[[Some 5]]] ∅]> ∅)));
     variables :=
       <["DIC" := 0%nat]>
         (<["ALK" := 1%nat]> (<["DOC" := 2%nat]> (<["DOCr" := 3%nat]> ∅))) |}.

(** *** Further cells of the initial-conditions notebook *)


(** *** Special treatment of DIC and ALK in marginal seas

    Floats are a parameter: [lit] is the float of a literal, the four
    operations and the two comparisons are the floats' own (the
    comparisons are false on NaN). *)
Section marginal_seas.
Context {F : Type}.
Variable lit : Q → F.
Variables fadd fsub fmul fdiv : F → F → F.
Variables fle fgt : F → F → bool.

(** [xr.where(cond, a, b)] on 3D arrays. *)
Definition xr_where3 {A} (cond : array3 bool) (a b : array3 A) : array3 A :=
  map3 (λ (ca : bool * A) y, if ca.1 then ca.2 else y) (map3 pair cond a) b.

(** [MASK & (ds_out.REGION_MASK == region) & test(SALT)] *)
Definition MASK_fit (MASK : array3 bool) (REGION_MASK : array2 Z)
    (region : Z) (test : F → bool) (SALT : array3 F) : array3 bool :=
  map3 andb
    (bcast2 (λ (m : bool) r, m && bool_decide (r = region)) MASK REGION_MASK)
    (fmap (M := list) (fmap (M := list) (fmap test)) SALT).

Definition rho_0 : F := lit 1.026.

(** The cell, from [SALT], [DIC] and [ALK] to the values stored back
    into [ds_out['DIC']] and [ds_out['ALK']]; the result is [(ALK, DIC)]. *)
Definition marginal_seas (MASK : array3 bool) (REGION_MASK : array2 Z)
    (SALT ALK DIC : array3 F) : array3 F * array3 F :=
  let amap (f : F → F) (a : array3 F) : array3 F :=
    fmap (M := list) (fmap (M := list) (fmap f)) a in
  (* Black Sea *)
  let fit := MASK_fit MASK REGION_MASK (-13) (λ s, fle s (lit 21.0)) SALT in
  let ALK := xr_where_scalar fit (lit 3250.0) ALK in
  let DIC := xr_where_scalar fit (lit 3250.0) DIC in
  let fit := MASK_fit MASK REGION_MASK (-13) (λ s, fle s (lit 19.5)) SALT in
  let DIC :=
    xr_where3 fit
      (amap (λ s, fadd (lit 3000.0)
                    (fmul (fdiv (fsub s (lit 18))
                                (fsub (lit 19.5) (lit 18)))
                          (lit (3250 - 3000)))) SALT)
      DIC in
  let fit := MASK_fit MASK REGION_MASK (-13) (λ s, fgt s (lit 21.0)) SALT in
  let ALK :=
    xr_where3 fit
      (amap (λ s, fadd (lit 3300.0)
                    (fmul (fdiv (fsub s (lit 21))
                                (fsub (lit 22.3) (lit 21)))
                          (lit (4500 - 3300)))) SALT)
      ALK in
  let DIC :=
    xr_where3 fit (amap (λ a, fdiv (fadd a (lit 1000)) (lit 1.32)) ALK) DIC in
  (* Baltic Sea *)
  let fit := MASK_fit MASK REGION_MASK (-12) (λ s, fle s (lit 7.3)) SALT in
  let ALK :=
    xr_where3 fit
      (amap (λ s, fdiv (fadd (lit 119.0) (fmul (lit 196.0) s)) rho_0) SALT)
      ALK in
  let DIC := xr_where3 fit (amap (λ a, fdiv a (lit 1.01)) ALK) DIC in
  let fit := MASK_fit MASK REGION_MASK (-12) (λ s, fgt s (lit 7.3)) SALT in
  let ALK :=
    xr_where3 fit
      (amap (λ s, fdiv (fadd (lit 1237.0) (fmul (lit 43.0) s)) rho_0) SALT)
      ALK in
  let DIC := xr_where3 fit (amap (λ a, fdiv a (lit 1.01)) ALK) DIC in
  (ALK, DIC).

End marginal_seas.


(** The attributes the dataset holds under a name. *)
Definition read_attrs {V} (name : string) (s : Store (V := V))
  : option (gmap string string) :=
  r ← variables s !! name; v ← heap s !! r; Some (attrs v).

Section layer_bounds.
(** Float payloads with their addition; [dz] holds no NaN. *)
Context {V : Type}.
Variables (zero : V) (add : V → V → V).

(** [np.cumsum]: a running sum from the first element on. *)
Fixpoint cumsum_from (acc : V) (l : list V) : list V :=
  match l with
  | [] => []
  | x :: l' => add acc x :: cumsum_from (add acc x) l'
  end.

Definition cumsum (l : list V) : list V :=
  match l with
  | [] => []
  | x :: l' => x :: cumsum_from x l'
  end.

(** [z_t_edges = np.concatenate(([0.0], np.cumsum(ds_out.dz)))] *)
Definition z_t_edges (dz : list V) : list V := zero :: cumsum dz.

(** [z_t_bounds_vals = np.stack((z_t_edges[:-1], z_t_edges[1:]), axis=1)] *)
Definition z_t_bounds_vals (dz : list V) : list (list V) :=
  let z_t_edges := z_t_edges dz in
  zip_with (λ lower upper, [lower; upper])
           (take (length z_t_edges - 1) z_t_edges) (drop 1 z_t_edges).

End layer_bounds.

(** [tracer.where(MASK)] on a field that may hold NaN. *)
Definition where_mask {V} (tracer : array3 (option V)) (MASK : array3 bool)
  : array3 (option V) :=
  map3 (λ v (m : bool), if m then v else None) tracer MASK.

(** [x == 0.0] on a float that may be NaN. *)
Definition eq_zero (v : option Q) : bool :=
  match v with Some x => Qeq_bool x 0 | None => false end.

(** Body of the loop that sets floor values that are 0.0 to the value
    one layer shallower:
    [tracer[k, :, :] = xr.where((tracer[k, :, :] == 0.0) & (k+1 == ds_out.KMT),
                                tracer[k-1, :, :], tracer[k, :, :])]. *)
Definition popped_floor (k : nat) (cur : array2 (option Q)) (kmt : array2 Z)
  : array2 bool :=
  map2 (λ v K, eq_zero v && bool_decide (Z.of_nat k + 1 = K)) cur kmt.

Definition floor_fix_level (kmt : array2 Z) (tracer : array3 (option Q))
    (k : nat) : array3 (option Q) :=
  match tracer !! (k - 1)%nat, tracer !! k with
  | Some above, Some cur =>
      <[k := xr_where (popped_floor k cur kmt) above cur]> tracer
  | _, _ => tracer
  end.

(** [tracer = tracer.where(MASK)] and the loop [for k in range(1, nk)]. *)
Definition copy_tracer (nk : nat) (MASK : array3 bool) (kmt : array2 Z)
    (tracer : array3 (option Q)) : array3 (option Q) :=
  foldl (floor_fix_level kmt) (where_mask tracer MASK) (range 1 nk).

(** What the loop leaves in one cell, read off the masked field: a cell
    below the surface that is 0.0 at the bottom index of its column
    takes the value above it. *)
Definition fixed_at (kmt : array2 Z) (tracer : array3 (option Q))
    (k j i : nat) : option (option Q) :=
  v ← at3 tracer k j i;
  K ← at2 kmt j i;
  if bool_decide (1 ≤ k)%nat && eq_zero v && bool_decide (Z.of_nat k + 1 = K)
  then at3 tracer (k - 1) j i
  else Some v.

(** The cell "copy from refcase restart file": for each tracer name not
    yet among the data variables of [ds_out], the variable
    [tracername+'_CUR'] of the restart file (KeyError when it is not
    there) is copied in. *)
Fixpoint copy_from_refcase (nk : nat) (MASK : array3 bool) (kmt : array2 Z)
    (ds_refcase : gmap string (array3 (option Q)))
    (tracernames : list string)
    (ds_out : gmap string (array3 (option Q)))
  : exn + gmap string (array3 (option Q)) :=
  match tracernames with
  | [] => inr ds_out
  | tracername :: rest =>
      match ds_out !! tracername with
      | Some _ => copy_from_refcase nk MASK kmt ds_refcase rest ds_out
      | None =>
          match ds_refcase !! (tracername +:+ "_CUR") with
          | None => inl KeyError
          | Some tracer =>
              copy_from_refcase nk MASK kmt ds_refcase rest
                (<[tracername := copy_tracer nk MASK kmt tracer]> ds_out)
          end
      end
  end.

End InitialConditions.

(** ** Rolling an axis *)

Section array_lemmas.
Context {A B C : Type}.

Lemma roll_length (count : Z) (l : list A) : length (roll count l) = length l.
Proof.
  unfold roll. rewrite length_app, length_drop, length_take. lia.
Qed.

Lemma roll_lookup (count : Z) (l : list A) (i : nat) :
  (i < length l)%nat →
  roll count l !! i = l !! wrap (length l) i count.
Proof.
  intros Hi. unfold roll, wrap.
  set (n := length l) in *.
  assert (Hn : 0 < Z.of_nat n) by lia.
  pose proof (Z.mod_pos_bound count (Z.of_nat n) Hn) as Hc.
  set (c := Z.to_nat (count `mod` Z.of_nat n)).
  assert (Hcn : (c < n)%nat) by (subst c; lia).
  assert (Hcz : Z.of_nat c = count `mod` Z.of_nat n) by (subst c; lia).
  destruct (decide (i < c)%nat) as [Hlt|Hge].
  - rewrite lookup_app_l by (rewrite length_drop; fold n; lia).
    rewrite lookup_drop. f_equal.
    assert ((Z.of_nat i - count) `mod` Z.of_nat n = Z.of_nat (n - c + i)) as ->; [|lia].
    symmetry. apply Z.mod_unique with (q := - (count / Z.of_nat n) - 1).
    + left. lia.
    + pose proof (Z.div_mod count (Z.of_nat n)). nia.
  - rewrite lookup_app_r by (rewrite length_drop; fold n; lia).
    rewrite length_drop. fold n.
    rewrite lookup_take_lt by lia. f_equal.
    assert ((Z.of_nat i - count) `mod` Z.of_nat n = Z.of_nat (i - c)) as ->; [|lia].
    symmetry. apply Z.mod_unique with (q := - (count / Z.of_nat n)).
    + left. lia.
    + pose proof (Z.div_mod count (Z.of_nat n)). nia.
Qed.

End array_lemmas.

(** ** Pointwise reading of the array operations *)

Section pointwise.
Context {A B C : Type}.

Lemma at2_map2 (f : A → B → C) (a : array2 A) (b : array2 B) (j i : nat) :
  at2 (map2 f a b) j i = x ← at2 a j i; y ← at2 b j i; Some (f x y).
Proof.
  unfold at2, map2. rewrite lookup_zip_with.
  destruct (a !! j) as [ra|]; simpl; [|done].
  destruct (b !! j) as [rb|]; simpl.
  - by rewrite lookup_zip_with.
  - by destruct (ra !! i).
Qed.

Lemma at3_map3 (f : A → B → C) (a : array3 A) (b : array3 B) (k j i : nat) :
  at3 (map3 f a b) k j i = x ← at3 a k j i; y ← at3 b k j i; Some (f x y).
Proof.
  unfold at3, map3. rewrite lookup_zip_with.
  destruct (a !! k) as [la|]; simpl; [|done].
  destruct (b !! k) as [lb|]; simpl.
  - by rewrite at2_map2.
  - by destruct (at2 la j i).
Qed.

Lemma at3_bcast2 (f : A → B → C) (a : array3 A) (b : array2 B) (k j i : nat) :
  at3 (bcast2 f a b) k j i = x ← at3 a k j i; y ← at2 b j i; Some (f x y).
Proof.
  unfold at3, bcast2. rewrite list_lookup_fmap.
  destruct (a !! k) as [la|]; simpl; [|done].
  by rewrite at2_map2.
Qed.

Lemma at2_fmap (f : A → B) (a : array2 A) (j i : nat) :
  at2 (fmap (M := list) (fmap f) a) j i = f <$> at2 a j i.
Proof.
  unfold at2. rewrite list_lookup_fmap.
  destruct (a !! j) as [ra|]; simpl; [|done].
  by rewrite list_lookup_fmap.
Qed.

Lemma at3_fmap (f : A → B) (a : array3 A) (k j i : nat) :
  at3 (fmap (M := list) (fmap (M := list) (fmap f)) a) k j i
  = f <$> at3 a k j i.
Proof.
  unfold at3. rewrite list_lookup_fmap.
  destruct (a !! k) as [la|]; simpl; [|done].
  by rewrite at2_fmap.
Qed.

Lemma at2_replicate (x : A) (nj ni j i : nat) :
  (j < nj)%nat → (i < ni)%nat →
  at2 (replicate nj (replicate ni x)) j i = Some x.
Proof.
  intros Hj Hi. unfold at2.
  rewrite lookup_replicate_2 by done. simpl.
  by rewrite lookup_replicate_2.
Qed.

Lemma at2_is_Some (nj ni : nat) (a : array2 A) (j i : nat) :
  shape2 nj ni a → (j < nj)%nat → (i < ni)%nat → is_Some (at2 a j i).
Proof.
  intros [Hlen Hrows] Hj Hi. unfold at2.
  destruct (lookup_lt_is_Some_2 a j) as [row Hrow]; [lia|].
  rewrite Hrow. simpl. apply lookup_lt_is_Some_2.
  rewrite Forall_lookup in Hrows. rewrite (Hrows _ _ Hrow). done.
Qed.

Lemma at2_lt (nj ni : nat) (a : array2 A) (j i : nat) (x : A) :
  shape2 nj ni a → at2 a j i = Some x → (j < nj)%nat ∧ (i < ni)%nat.
Proof.
  intros [Hlen Hrows] Hx. unfold at2 in Hx.
  destruct (a !! j) as [row|] eqn:Hrow; simpl in Hx; [|done].
  rewrite Forall_lookup in Hrows.
  pose proof (Hrows _ _ Hrow). apply lookup_lt_Some in Hrow, Hx. lia.
Qed.

Lemma wrap_lt (n i : nat) (count : Z) : (0 < n)%nat → (wrap n i count < n)%nat.
Proof.
  intros Hn. unfold wrap.
  pose proof (Z.mod_pos_bound (Z.of_nat i - count) (Z.of_nat n)). lia.
Qed.

Lemma at2_roll2 (nj ni : nat) (a : array2 A) (jroll iroll : Z) (j i : nat) :
  shape2 nj ni a → (j < nj)%nat → (i < ni)%nat →
  at2 (roll2 jroll iroll a) j i = at2 a (wrap nj j jroll) (wrap ni i iroll).
Proof.
  intros [Hlen Hrows] Hj Hi. unfold at2, roll2.
  rewrite roll_lookup by (rewrite length_fmap; lia).
  rewrite length_fmap, Hlen, list_lookup_fmap.
  destruct (a !! wrap nj j jroll) as [row|] eqn:Hrow; simpl; [|done].
  rewrite Forall_lookup in Hrows. pose proof (Hrows _ _ Hrow) as Hr.
  rewrite roll_lookup by lia. by rewrite Hr.
Qed.

End pointwise.

Lemma at3_ZERO_TO_KM (nk nj ni k j i : nat) :
  (k < nk)%nat → (j < nj)%nat → (i < ni)%nat →
  at3 (ZERO_TO_KM nk nj ni) k j i = Some (Z.of_nat k).
Proof.
  intros Hk Hj Hi. unfold at3, ZERO_TO_KM, ONES_3d.
  rewrite lookup_zip_with.
  rewrite (lookup_seqZ_lt 0 (Z.of_nat nk) k) by lia. simpl.
  rewrite lookup_replicate_2 by done. simpl.
  rewrite at2_fmap, at2_replicate by done. simpl. f_equal. lia.
Qed.

(** ** The eight neighbours *)

Lemma shape_of_shape2 {A} (nj ni : nat) (a : array2 A) :
  shape2 nj ni a → (0 < nj)%nat → shape_of a = (nj, ni).
Proof.
  intros [Hlen Hrows] Hnj. unfold shape_of. rewrite Hlen. f_equal.
  destruct a as [|row a]; simpl in *; [lia|].
  by inversion Hrows.
Qed.

Lemma kmt_neighbors_unfold (nj ni : nat) (kmt : array2 Z) :
  kmt_neighbors_of nj ni kmt
  = setitem_corner 7 (roll2 1 1 kmt)
      (setitem_corner 6 (roll2 0 1 kmt)
        (setitem_corner 5 (roll2 (-1) 1 kmt)
          (setitem_corner 4 (roll2 1 0 kmt)
            (setitem_corner 3 (roll2 (-1) 0 kmt)
              (setitem_corner 2 (roll2 1 (-1) kmt)
                (setitem_corner 1 (roll2 0 (-1) kmt)
                  (setitem_corner 0 (roll2 (-1) (-1) kmt)
                    (np_empty nj ni 8)))))))).
Proof. reflexivity. Qed.

Lemma at2_kmt_neighbors (nj ni : nat) (kmt : array2 Z) (j i : nat) :
  shape2 nj ni kmt → (j < nj)%nat → (i < ni)%nat →
  at2 (kmt_neighbors_of nj ni kmt) j i = neighbor_depths kmt j i.
Proof.
  intros Hshape Hj Hi.
  assert (Hnj : (0 < nj)%nat) by lia. assert (Hni : (0 < ni)%nat) by lia.
  unfold neighbor_depths. rewrite (shape_of_shape2 nj ni) by done.
  rewrite kmt_neighbors_unfold. unfold setitem_corner, np_empty.
  rewrite !at2_map2, at2_replicate by done.
  rewrite !(at2_roll2 nj ni) by done.
  unfold offsets. simpl.
  assert (Hsome : ∀ r : Z * Z,
    is_Some (at2 kmt (wrap nj j r.2) (wrap ni i r.1))).
  { intros r. apply (at2_is_Some nj ni); auto using wrap_lt. }
  repeat match goal with
  | |- context [at2 kmt (wrap nj j ?c) (wrap ni i ?d)] =>
      let v := fresh "v" in let Hv := fresh "Hv" in
      destruct (Hsome (d, c)) as [v Hv]; simpl in Hv; rewrite !Hv; clear Hv
  end.
  reflexivity.
Qed.

(** ** Minimum over the corner dimension *)

Lemma foldl_min_spec (l : list Z) (d : Z) :
  foldl Z.min d l ∈ d :: l ∧ Forall (λ x, foldl Z.min d l ≤ x) (d :: l).
Proof.
  revert d. induction l as [|y l IH]; intros d; simpl.
  - split; [left|]. repeat constructor. lia.
  - destruct (IH (Z.min d y)) as [Hin Hall].
    inversion Hall as [|? ? Hhd Htl]; subst. split.
    + apply elem_of_cons in Hin as [Heq|Hin].
      * rewrite Heq. destruct (Z.min_spec d y) as [[_ ->]|[_ ->]].
        -- left.
        -- right; left.
      * right; by right.
    + constructor; [lia|]. constructor; [lia|done].
Qed.

Lemma min_corner_spec (l : list Z) :
  l ≠ [] → min_corner l ∈ l ∧ Forall (λ x, min_corner l ≤ x) l.
Proof. destruct l as [|d l]; [done|]. intros _. apply foldl_min_spec. Qed.

Lemma minimum_spec (l : list Z) (m : Z) :
  minimum l = Some m → m ∈ l ∧ Forall (λ x, m ≤ x) l.
Proof.
  revert m. induction l as [|d l IH]; intros m; simpl; [done|].
  intros [= <-]. destruct (minimum l) as [m'|] eqn:Hm; simpl.
  - destruct (IH m' eq_refl) as [Hin Hall]. split.
    + destruct (Z.min_spec d m') as [[_ ->]|[_ ->]]; [left|by right].
    + constructor; [lia|]. eapply Forall_impl; [exact Hall|]. simpl. lia.
  - destruct l; [|done]. split; [left|]. repeat constructor. lia.
Qed.

Lemma minimum_is_Some (l : list Z) : l ≠ [] → is_Some (minimum l).
Proof. destruct l; [done|]. intros _. simpl. eauto. Qed.

(** With a qualifying neighbour present, the minimum over all corners
    is the minimum over the qualifying ones. *)
Lemma minimum_qualifying (K : Z) (nbrs : list Z) (d : Z) :
  d ∈ nbrs → d ≤ K → minimum (qualifying K nbrs) = Some (min_corner nbrs).
Proof.
  intros Hd HdK.
  assert (Hne : nbrs ≠ []) by (intros ->; by apply elem_of_nil in Hd).
  destruct (min_corner_spec nbrs Hne) as [Hin Hall].
  rewrite Forall_forall in Hall.
  assert (Hq : min_corner nbrs ∈ qualifying K nbrs).
  { apply list_elem_of_filter. split; [|done]. specialize (Hall d Hd). lia. }
  destruct (minimum_is_Some (qualifying K nbrs)) as [m Hm].
  { intros Heq. rewrite Heq in Hq. by apply elem_of_nil in Hq. }
  rewrite Hm. f_equal.
  destruct (minimum_spec _ _ Hm) as [Hmin Hmall].
  rewrite Forall_forall in Hmall.
  apply list_elem_of_filter in Hmin as [_ Hmin].
  specialize (Hmall _ Hq). specialize (Hall _ Hmin). lia.
Qed.

Lemma cell_cond_rule (k : nat) (K : Z) (nbrs : list Z) :
  cell_cond k K nbrs = true ↔ land_adjacent_rule k K nbrs.
Proof.
  unfold cell_cond, land_adjacent_rule.
  rewrite orb_true_iff, !andb_true_iff, !bool_decide_eq_true.
  rewrite existsb_exists. split.
  - intros [[[[d [Hd HdK]] Hk] Hmin]|Hb]; [left|by right].
    apply bool_decide_eq_true in HdK. apply list_elem_of_In in Hd.
    split; [by exists d|]. split; [done|].
    exists (min_corner nbrs). split; [|done].
    by apply (minimum_qualifying K nbrs d).
  - intros [[[d [Hd HdK]] [Hk [m [Hm Hmk]]]]|Hb]; [left|by right].
    rewrite (minimum_qualifying K nbrs d Hd HdK) in Hm.
    injection Hm as <-. split; [split|]; [|done|done].
    exists d. rewrite bool_decide_eq_true. by rewrite <- list_elem_of_In.
Qed.

(** ** The classifier, cell by cell *)

Lemma any_corner_fmap {A} (f : A → bool) (l : list A) :
  any_corner (f <$> l) = existsb f l.
Proof.
  unfold any_corner. induction l as [|d l IH]; [done|].
  change (f d || existsb id (f <$> l) = f d || existsb f l). by rewrite IH.
Qed.

Section classifier.
Variables (nk nj ni : nat) (kmt : array2 Z).
Hypothesis Hshape : shape2 nj ni kmt.

Lemma at3_MASK (k j i : nat) (K : Z) :
  (k < nk)%nat → (j < nj)%nat → (i < ni)%nat → at2 kmt j i = Some K →
  at3 (MASK nk nj ni kmt) k j i
  = Some (if bool_decide (Z.of_nat k < K) then 1 else 0).
Proof.
  intros Hk Hj Hi HK. unfold MASK, notnull_flag, where_.
  rewrite at3_fmap, at3_map3, at3_bcast2, at3_ZERO_TO_KM, HK by done.
  simpl. by destruct (bool_decide _).
Qed.

Lemma at3_land_adjacent_cond (k j i : nat) (K : Z) (nbrs : list Z) :
  (k < nk)%nat → (j < nj)%nat → (i < ni)%nat →
  at2 kmt j i = Some K → neighbor_depths kmt j i = Some nbrs →
  at3 (land_adjacent_cond nk nj ni (kmt_neighbors_of nj ni kmt) kmt) k j i
  = Some (cell_cond k K nbrs).
Proof.
  intros Hk Hj Hi HK Hn. unfold land_adjacent_cond.
  unfold side_wall_present, side_wall_kmt_min.
  rewrite !at3_map3, !at3_bcast2, !at2_fmap, at2_map2.
  rewrite at3_ZERO_TO_KM, (at2_kmt_neighbors nj ni), Hn, HK by done.
  simpl. unfold cell_cond. by rewrite any_corner_fmap.
Qed.

Lemma at3_land_adjacent_array (k j i : nat) (K : Z) (nbrs : list Z) :
  (k < nk)%nat → (j < nj)%nat → (i < ni)%nat →
  at2 kmt j i = Some K → neighbor_depths kmt j i = Some nbrs →
  at3 (land_adjacent_array nk nj ni kmt) k j i
  = Some (if cell_cond k K nbrs then 1 else 0).
Proof.
  intros Hk Hj Hi HK Hn. unfold land_adjacent_array, notnull_flag, where_, zeros_like.
  rewrite at3_fmap, at3_map3, at3_fmap.
  rewrite (at3_MASK k j i K), (at3_land_adjacent_cond k j i K nbrs) by done.
  simpl. by destruct (cell_cond k K nbrs).
Qed.

Lemma neighbor_depths_is_Some (j i : nat) :
  (j < nj)%nat → (i < ni)%nat → is_Some (neighbor_depths kmt j i).
Proof.
  intros Hj Hi. rewrite <- (at2_kmt_neighbors nj ni) by done.
  rewrite kmt_neighbors_unfold. unfold setitem_corner, np_empty.
  rewrite !at2_map2, at2_replicate by done.
  rewrite !(at2_roll2 nj ni) by done.
  assert (Hsome : ∀ r : Z * Z,
    is_Some (at2 kmt (wrap nj j r.2) (wrap ni i r.1))).
  { intros r. apply (at2_is_Some nj ni); auto using wrap_lt with lia. }
  repeat match goal with
  | |- context [at2 kmt (wrap nj j ?c) (wrap ni i ?d)] =>
      let v := fresh "v" in let Hv := fresh "Hv" in
      destruct (Hsome (d, c)) as [v Hv]; simpl in Hv; rewrite !Hv; clear Hv
  end.
  simpl. eauto.
Qed.

End classifier.

(** A non-tripolar run on a non-empty grid returns the array above and
    leaves the dataset as it was. *)
Lemma land_adjacent_points_run (ds : Dataset) (nj ni : nat) :
  shape2 nj ni (KMT ds) → (0 < nj)%nat → (0 < ni)%nat →
  land_adjacent_points false ds
  = (ds, inr (land_adjacent_array (length (z_t ds)) nj ni (KMT ds))).
Proof.
  intros Hshape Hnj Hni. unfold land_adjacent_points.
  rewrite (shape_of_shape2 nj ni) by done.
  rewrite bool_decide_eq_false_2 by lia.
  destruct ds as [z kmt]. reflexivity.
Qed.

(** The tripole assignment is refused, whatever the grid. *)
Lemma land_adjacent_points_tripole (ds : Dataset) :
  ∃ e, land_adjacent_points true ds = (ds, inl e).
Proof.
  unfold land_adjacent_points, setitem_row.
  destruct (shape_of (KMT ds)). destruct (KMT ds !! 0%nat); eauto.
Qed.

(** ** Contract of the land-adjacency cell *)

(** C1. On a non-empty [nj] x [ni] grid the non-tripolar run returns an
    array, and whatever array a run returns marks cell [(k, j, i)] (value
    1, otherwise 0) exactly when rule (a) or rule (b) holds for the depth
    [K] of the column and its eight recorded neighbour depths; a column
    with [K = 0] is never marked, so an all-land grid gives all zeros. *)
Theorem land_adjacent_contract (ds : Dataset) (nj ni : nat) :
  shape2 nj ni (KMT ds) → (0 < nj)%nat → (0 < ni)%nat →
  (∃ la, (land_adjacent_points false ds).2 = inr la)
  ∧ ∀ ltripole la, (land_adjacent_points ltripole ds).2 = inr la →
      (∀ k j i, (k < length (z_t ds))%nat → (j < nj)%nat → (i < ni)%nat →
         ∃ K nbrs,
           at2 (KMT ds) j i = Some K
           ∧ neighbor_depths (KMT ds) j i = Some nbrs
           ∧ (at3 la k j i = Some 1 ∨ at3 la k j i = Some 0)
           ∧ (at3 la k j i = Some 1 ↔ land_adjacent_rule k K nbrs)
           ∧ (K = 0 → at3 la k j i = Some 0))
      ∧ ((∀ j i, (j < nj)%nat → (i < ni)%nat → at2 (KMT ds) j i = Some 0) →
         ∀ k j i, (k < length (z_t ds))%nat → (j < nj)%nat → (i < ni)%nat →
           at3 la k j i = Some 0).
Proof.
  intros Hshape Hnj Hni. split.
  { rewrite (land_adjacent_points_run ds nj ni) by done. eauto. }
  intros [|] la.
  { destruct (land_adjacent_points_tripole ds) as [e ->]. discriminate. }
  rewrite (land_adjacent_points_run ds nj ni) by done. simpl.
  intros [= <-].
  assert (Hcell : ∀ k j i, (k < length (z_t ds))%nat → (j < nj)%nat → (i < ni)%nat →
    ∃ K nbrs, at2 (KMT ds) j i = Some K
      ∧ neighbor_depths (KMT ds) j i = Some nbrs
      ∧ at3 (land_adjacent_array (length (z_t ds)) nj ni (KMT ds)) k j i
        = Some (if cell_cond k K nbrs then 1 else 0)).
  { intros k j i Hk Hj Hi.
    destruct (at2_is_Some nj ni (KMT ds) j i) as [K HK]; [done..|].
    destruct (neighbor_depths_is_Some nj ni (KMT ds) Hshape j i) as [nbrs Hn];
      [done..|].
    exists K, nbrs. split; [done|]. split; [done|].
    by apply at3_land_adjacent_array. }
  split.
  - intros k j i Hk Hj Hi.
    destruct (Hcell k j i Hk Hj Hi) as (K & nbrs & HK & Hn & Hla).
    exists K, nbrs. split; [done|]. split; [done|]. rewrite Hla.
    rewrite <- cell_cond_rule. split; [|split].
    + destruct (cell_cond k K nbrs); auto.
    + destruct (cell_cond k K nbrs); split; congruence.
    + intros ->. destruct (cell_cond k 0 nbrs) eqn:Hc; [|done].
      apply cell_cond_rule in Hc. unfold land_adjacent_rule in Hc. lia.
  - intros Hland k j i Hk Hj Hi.
    destruct (Hcell k j i Hk Hj Hi) as (K & nbrs & HK & Hn & Hla).
    rewrite Hland in HK by done. injection HK as <-. rewrite Hla.
    destruct (cell_cond k 0 nbrs) eqn:Hc; [|done].
    apply cell_cond_rule in Hc. unfold land_adjacent_rule in Hc. lia.
Qed.

Lemma fixture_shape : shape2 3 3 (KMT fixture).
Proof. split; [reflexivity|]. repeat constructor. Defined.

Lemma land_adjacent_contract_witness :
  (∃ la, (land_adjacent_points false fixture).2 = inr la)
  ∧ ∀ ltripole la, (land_adjacent_points ltripole fixture).2 = inr la →
      (∀ k j i, (k < length (z_t fixture))%nat → (j < 3)%nat → (i < 3)%nat →
         ∃ K nbrs,
           at2 (KMT fixture) j i = Some K
           ∧ neighbor_depths (KMT fixture) j i = Some nbrs
           ∧ (at3 la k j i = Some 1 ∨ at3 la k j i = Some 0)
           ∧ (at3 la k j i = Some 1 ↔ land_adjacent_rule k K nbrs)
           ∧ (K = 0 → at3 la k j i = Some 0))
      ∧ ((∀ j i, (j < 3)%nat → (i < 3)%nat → at2 (KMT fixture) j i = Some 0) →
         ∀ k j i, (k < length (z_t fixture))%nat → (j < 3)%nat → (i < 3)%nat →
           at3 la k j i = Some 0).
Proof.
  apply (land_adjacent_contract fixture 3 3); [exact fixture_shape | lia | lia].
Defined.

(** C2 as stated fails: the scenario expects the centre cell marked at
    level 0, the cell leaves it unmarked. *)
Lemma fixture_expected_refuted :
  (land_adjacent_points false fixture).2 ≠ inr fixture_expected
  ∧ ∃ la, (land_adjacent_points false fixture).2 = inr la
          ∧ at3 la 0 1 1 = Some 0.
Proof.
  split.
  - vm_compute. discriminate.
  - exists fixture_computed. split; vm_compute; reflexivity.
Qed.

(** C2, amended. On the 3-level 3x3 fixture, non-tripolar, the cell
    marks the eight ring cells at level 0 and the centre cell at level 1,
    and no other cell; the centre cell at level 0 is not marked. *)
Theorem fixture_land_adjacent :
  land_adjacent_points false fixture = (fixture, inr fixture_computed).
Proof. vm_compute. reflexivity. Qed.

(** ** Topology of the eight rolls *)

Lemma wrap_0 (n i : nat) : (i < n)%nat → wrap n i 0 = i.
Proof.
  intros Hi. unfold wrap. rewrite Z.sub_0_r, Z.mod_small by lia. lia.
Qed.

Lemma wrap_last (n : nat) : (0 < n)%nat → wrap n (n - 1) (-1) = 0%nat.
Proof.
  intros Hn. unfold wrap.
  replace (Z.of_nat (n - 1) - -1) with (Z.of_nat n) by lia.
  rewrite Z.mod_same by lia. done.
Qed.

Lemma wrap_first (n : nat) : (0 < n)%nat → wrap n 0 1 = (n - 1)%nat.
Proof.
  intros Hn. unfold wrap.
  rewrite <- (Z.mod_unique (Z.of_nat 0 - 1) (Z.of_nat n) (-1) (Z.of_nat n - 1));
    lia.
Qed.

(** A column recorded by one of the eight rolls whose depth [K'] is at
    or above level [k] makes the wet cell [(k, j, i)] land-adjacent. *)
Lemma marked_by_neighbor (nk nj ni : nat) (kmt : array2 Z)
    (k j i : nat) (r : Z * Z) (K K' : Z) :
  shape2 nj ni kmt → (k < nk)%nat → (j < nj)%nat → (i < ni)%nat →
  r ∈ offsets →
  at2 kmt j i = Some K →
  at2 kmt (wrap nj j r.2) (wrap ni i r.1) = Some K' →
  K' ≤ Z.of_nat k < K →
  at3 (land_adjacent_array nk nj ni kmt) k j i = Some 1.
Proof.
  intros Hshape Hk Hj Hi Hr HK HK' Hlev.
  destruct (neighbor_depths_is_Some nj ni kmt Hshape j i) as [nbrs Hn];
    [done..|].
  rewrite (at3_land_adjacent_array nk nj ni kmt Hshape k j i K nbrs) by done.
  assert (Hin : K' ∈ nbrs).
  { unfold neighbor_depths in Hn.
    rewrite (shape_of_shape2 nj ni) in Hn by (done || lia).
    apply mapM_Some in Hn.
    apply list_elem_of_lookup in Hr as [n Hr].
    destruct (Forall2_lookup_l _ _ _ _ _ Hn Hr) as (d & Hd & Heq).
    rewrite HK' in Heq. injection Heq as ->.
    apply list_elem_of_lookup. eauto. }
  assert (Hc : cell_cond k K nbrs = true); [|by rewrite Hc].
  apply cell_cond_rule. left. split; [exists K'; split; [done|lia]|].
  split; [lia|]. exists (min_corner nbrs).
  split; [apply (minimum_qualifying K nbrs K'); [done|lia]|].
  destruct (min_corner_spec nbrs) as [_ Hall].
  { intros ->. by apply elem_of_nil in Hin. }
  rewrite Forall_forall in Hall. specialize (Hall _ Hin). lia.
Qed.

(** C3 as stated fails: on [seam_grid] the neighbours recorded for the
    first row include the depth of the last row, which a plain shift in
    [j] cannot reach; cell [(1, 0, 1)] is marked on their account. *)
Lemma plain_j_shift_refuted :
  ¬ plain_j_shift (KMT seam_grid)
  ∧ ∃ la, (land_adjacent_points false seam_grid).2 = inr la
          ∧ at3 la 1 0 1 = Some 1
          ∧ ¬ land_adjacent_rule 1 5 (neighbor_depths_plain_j (KMT seam_grid) 0 1).
Proof.
  split; [|eexists; split; [vm_compute; reflexivity|split; [reflexivity|]]].
  2: { rewrite <- cell_cond_rule. vm_compute. discriminate. }
  intros Hplain.
  specialize (Hplain 0%nat 1%nat [5; 5; 1; 5; 1; 5; 5; 1] 1 eq_refl).
  assert (Hin : 1 ∈ [5; 5; 1; 5; 1; 5; 5; 1]) by set_solver.
  specialize (Hplain Hin). vm_compute in Hplain.
  repeat (apply elem_of_cons in Hplain as [Hplain|Hplain]; [discriminate|]).
  by apply elem_of_nil in Hplain.
Qed.

(** C3, amended. Both indices wrap: the depth recorded at [(j, i)] for
    the roll [(iroll, jroll)] is that of column
    [((j - jroll) mod nj, (i - iroll) mod ni)].  Hence a wet cell at
    [i = ni - 1] whose column at [i = 0] does not reach its level is
    land-adjacent, and likewise a cell of the first (last) row against
    the column of the last (first) row. *)
Theorem roll_topology (ds : Dataset) (nj ni : nat) :
  shape2 nj ni (KMT ds) → (0 < nj)%nat → (0 < ni)%nat →
  (∀ j i, (j < nj)%nat → (i < ni)%nat →
     ∃ nbrs,
       at2 (kmt_neighbors_of nj ni (KMT ds)) j i = Some nbrs
       ∧ mapM (λ r : Z * Z, at2 (KMT ds) (wrap nj j r.2) (wrap ni i r.1))
              offsets = Some nbrs)
  ∧ ∃ la, (land_adjacent_points false ds).2 = inr la
      ∧ (∀ k j K K0, (k < length (z_t ds))%nat →
           at2 (KMT ds) j (ni - 1) = Some K → at2 (KMT ds) j 0 = Some K0 →
           K0 ≤ Z.of_nat k < K → at3 la k j (ni - 1) = Some 1)
      ∧ (∀ k i K K', (k < length (z_t ds))%nat →
           at2 (KMT ds) 0 i = Some K → at2 (KMT ds) (nj - 1) i = Some K' →
           K' ≤ Z.of_nat k < K → at3 la k 0 i = Some 1)
      ∧ (∀ k i K K', (k < length (z_t ds))%nat →
           at2 (KMT ds) (nj - 1) i = Some K → at2 (KMT ds) 0 i = Some K' →
           K' ≤ Z.of_nat k < K → at3 la k (nj - 1) i = Some 1).
Proof.
  intros Hshape Hnj Hni. split.
  - intros j i Hj Hi.
    destruct (neighbor_depths_is_Some nj ni (KMT ds) Hshape j i) as [nbrs Hn];
      [done..|].
    exists nbrs. rewrite (at2_kmt_neighbors nj ni) by done.
    split; [done|]. unfold neighbor_depths in Hn.
    by rewrite (shape_of_shape2 nj ni) in Hn.
  - rewrite (land_adjacent_points_run ds nj ni) by done.
    eexists. split; [reflexivity|]. split; [|split].
    + intros k j K K0 Hk HK HK0 Hlev.
      destruct (at2_lt nj ni _ _ _ _ Hshape HK) as [Hj Hi].
      apply (marked_by_neighbor _ nj ni _ k j (ni - 1)%nat (-1, 0) K K0);
        try done.
      * apply list_elem_of_In. simpl. auto 10.
      * simpl. by rewrite wrap_0, wrap_last.
    + intros k i K K' Hk HK HK' Hlev.
      destruct (at2_lt nj ni _ _ _ _ Hshape HK) as [Hj Hi].
      apply (marked_by_neighbor _ nj ni _ k 0%nat i (0, 1) K K'); try done.
      * apply list_elem_of_In. simpl. auto 10.
      * simpl. by rewrite wrap_0, wrap_first.
    + intros k i K K' Hk HK HK' Hlev.
      destruct (at2_lt nj ni _ _ _ _ Hshape HK) as [Hj Hi].
      apply (marked_by_neighbor _ nj ni _ k (nj - 1)%nat i (0, -1) K K');
        try done.
      * apply list_elem_of_In. simpl. auto 10.
      * simpl. by rewrite wrap_0, wrap_last.
Qed.

Lemma seam_grid_shape : shape2 3 3 (KMT seam_grid).
Proof. split; [reflexivity|]. repeat constructor. Defined.

Lemma roll_topology_witness :
  (∀ j i, (j < 3)%nat → (i < 3)%nat →
     ∃ nbrs,
       at2 (kmt_neighbors_of 3 3 (KMT seam_grid)) j i = Some nbrs
       ∧ mapM (λ r : Z * Z, at2 (KMT seam_grid) (wrap 3 j r.2) (wrap 3 i r.1))
              offsets = Some nbrs)
  ∧ ∃ la, (land_adjacent_points false seam_grid).2 = inr la
      ∧ (∀ k j K K0, (k < length (z_t seam_grid))%nat →
           at2 (KMT seam_grid) j (3 - 1) = Some K →
           at2 (KMT seam_grid) j 0 = Some K0 →
           K0 ≤ Z.of_nat k < K → at3 la k j (3 - 1) = Some 1)
      ∧ (∀ k i K K', (k < length (z_t seam_grid))%nat →
           at2 (KMT seam_grid) 0 i = Some K →
           at2 (KMT seam_grid) (3 - 1) i = Some K' →
           K' ≤ Z.of_nat k < K → at3 la k 0 i = Some 1)
      ∧ (∀ k i K K', (k < length (z_t seam_grid))%nat →
           at2 (KMT seam_grid) (3 - 1) i = Some K →
           at2 (KMT seam_grid) 0 i = Some K' →
           K' ≤ Z.of_nat k < K → at3 la k (3 - 1) i = Some 1).
Proof.
  apply (roll_topology seam_grid 3 3); [exact seam_grid_shape | lia | lia].
Defined.

(** ** The tripole branch *)

(** The indexed assignment does write when it is given a row. *)
Example setitem_row_writes :
  setitem_row 0 (Arr1 [3; 2; 1]) (KMT tripole_grid)
  = inr [[3; 2; 1]; [3; 3; 3]].
Proof. reflexivity. Qed.

(** C4, at a failing input. With [ltripole] set, the cell hands the
    whole [nlat]-reversed array to the assignment of row 0; it is
    refused, no fold is made and no adjacency array is produced. *)
Theorem tripole_fold_not_performed :
  flip_nlat (KMT tripole_grid) = [[3; 3; 3]; [1; 2; 3]]
  ∧ land_adjacent_points true tripole_grid = (tripole_grid, inl ValueError).
Proof. split; reflexivity. Qed.

(** C5. Whatever the grid and the flag, the dataset the cell leaves
    behind is the dataset it was given: [KMT] is not changed, whether the
    cell returns an array or raises; and the outcome depends on the
    dataset only through [KMT] and the number of levels. *)
Theorem land_adjacent_points_frame (ltripole : bool) (ds : Dataset) :
  (land_adjacent_points ltripole ds).1 = ds
  ∧ KMT (land_adjacent_points ltripole ds).1 = KMT ds
  ∧ ∀ ds', KMT ds' = KMT ds → length (z_t ds') = length (z_t ds) →
      (land_adjacent_points ltripole ds').2
      = (land_adjacent_points ltripole ds).2.
Proof.
  assert (H : (land_adjacent_points ltripole ds).1 = ds).
  { destruct ltripole.
    - by destruct (land_adjacent_points_tripole ds) as [e ->].
    - unfold land_adjacent_points. destruct (shape_of (KMT ds)) as [nj ni].
      destruct ds as [z kmt]. simpl. by destruct (bool_decide _). }
  split; [done|]. split; [by rewrite H|].
  intros ds' Hkmt Hlen. unfold land_adjacent_points.
  rewrite Hkmt, Hlen. destruct (shape_of (KMT ds)) as [nj ni].
  destruct (if ltripole then _ else _) as [e|kmt_rollable]; [done|].
  simpl. by destruct (bool_decide _).
Qed.

(** ** Minimum sediment fraction at land-adjacent cells *)

Lemma at3_sedfrac_mod (land_adjacent : array3 Z) (sedfrac : array3 Q)
    (floor : Q) (MASK : array3 Z) (k j i : nat) (x : Q) (f m : Z) :
  at3 sedfrac k j i = Some x →
  at3 land_adjacent k j i = Some f →
  at3 MASK k j i = Some m →
  at3 (sedfrac_mod land_adjacent sedfrac floor MASK) k j i
  = Some (if bool_decide (m = 1)
          then if bool_decide (f = 1) && Qltb x floor then floor else x
          else 0%Q).
Proof.
  intros Hx Hf Hm. unfold sedfrac_mod, fillna, where_, xr_where_scalar, eq_one.
  rewrite at3_fmap, !at3_map3, !at3_fmap, Hx, Hf, Hm. simpl.
  by destruct (bool_decide (m = 1)).
Qed.

Lemma Qmax_floor (x floor : Q) :
  Qmax x floor = if Qltb x floor then floor else x.
Proof.
  unfold Qltb, Qmax, GenericMinMax.gmax. by destruct (x ?= floor)%Q.
Qed.

(** ** Shapes *)

Section shapes.
Context {A B C : Type}.

Lemma shape2_map2 (f : A → B → C) (nj ni : nat) (a : array2 A) (b : array2 B) :
  shape2 nj ni a → shape2 nj ni b → shape2 nj ni (map2 f a b).
Proof.
  intros [Hla Ha] [Hlb Hb]. unfold map2. split.
  - rewrite length_zip_with. lia.
  - rewrite Forall_lookup in Ha. rewrite Forall_lookup in Hb.
    rewrite Forall_lookup. intros j row Hrow.
    rewrite lookup_zip_with in Hrow.
    destruct (a !! j) as [ra|] eqn:Hra; simpl in Hrow; [|done].
    destruct (b !! j) as [rb|] eqn:Hrb; simpl in Hrow; [|done].
    injection Hrow as <-. rewrite length_zip_with.
    rewrite (Ha _ _ Hra), (Hb _ _ Hrb). lia.
Qed.

Lemma shape3_map3 (f : A → B → C) (nk nj ni : nat)
    (a : array3 A) (b : array3 B) :
  shape3 nk nj ni a → shape3 nk nj ni b → shape3 nk nj ni (map3 f a b).
Proof.
  intros [Hla Ha] [Hlb Hb]. unfold map3. split.
  - rewrite length_zip_with. lia.
  - rewrite Forall_lookup in Ha. rewrite Forall_lookup in Hb.
    rewrite Forall_lookup. intros k level Hlevel.
    rewrite lookup_zip_with in Hlevel.
    destruct (a !! k) as [la|] eqn:Hka; simpl in Hlevel; [|done].
    destruct (b !! k) as [lb|] eqn:Hkb; simpl in Hlevel; [|done].
    injection Hlevel as <-. apply shape2_map2; eauto.
Qed.

Lemma shape3_level (nk nj ni : nat) (a : array3 A) (k : nat) (level : array2 A) :
  shape3 nk nj ni a → a !! k = Some level → shape2 nj ni level.
Proof. intros [_ Ha] Hk. rewrite Forall_lookup in Ha. eauto. Qed.

Lemma at3_is_Some (nk nj ni : nat) (a : array3 A) (k j i : nat) :
  shape3 nk nj ni a → (k < nk)%nat → (j < nj)%nat → (i < ni)%nat →
  is_Some (at3 a k j i).
Proof.
  intros Ha Hk Hj Hi. unfold at3.
  destruct (lookup_lt_is_Some_2 a k) as [level Hlevel]; [destruct Ha; lia|].
  rewrite Hlevel. simpl.
  eapply at2_is_Some; eauto using shape3_level.
Qed.

Lemma array2_ext (nj ni : nat) (a b : array2 A) :
  shape2 nj ni a → shape2 nj ni b →
  (∀ j i, (j < nj)%nat → (i < ni)%nat → at2 a j i = at2 b j i) → a = b.
Proof.
  intros [Hla Ha] [Hlb Hb] Heq. apply list_eq. intros j.
  destruct (decide (j < nj)%nat) as [Hj|Hj].
  - destruct (lookup_lt_is_Some_2 a j) as [ra Hra]; [lia|].
    destruct (lookup_lt_is_Some_2 b j) as [rb Hrb]; [lia|].
    rewrite Hra, Hrb. f_equal.
    rewrite Forall_lookup in Ha. rewrite Forall_lookup in Hb.
    pose proof (Ha _ _ Hra) as Hlra. pose proof (Hb _ _ Hrb) as Hlrb.
    apply list_eq. intros i.
    destruct (decide (i < ni)%nat) as [Hi|Hi].
    + specialize (Heq j i Hj Hi). unfold at2 in Heq.
      by rewrite Hra, Hrb in Heq.
    + rewrite !lookup_ge_None_2 by lia. done.
  - rewrite !lookup_ge_None_2 by lia. done.
Qed.

Lemma array3_ext (nk nj ni : nat) (a b : array3 A) :
  shape3 nk nj ni a → shape3 nk nj ni b →
  (∀ k j i, (k < nk)%nat → (j < nj)%nat → (i < ni)%nat →
     at3 a k j i = at3 b k j i) →
  a = b.
Proof.
  intros Ha Hb Heq. apply list_eq. intros k.
  destruct (decide (k < nk)%nat) as [Hk|Hk].
  - destruct (lookup_lt_is_Some_2 a k) as [la Hla]; [destruct Ha; lia|].
    destruct (lookup_lt_is_Some_2 b k) as [lb Hlb]; [destruct Hb; lia|].
    rewrite Hla, Hlb. f_equal.
    apply (array2_ext nj ni); eauto using shape3_level.
    intros j i Hj Hi. specialize (Heq k j i Hk Hj Hi). unfold at3 in Heq.
    by rewrite Hla, Hlb in Heq.
  - destruct Ha, Hb. rewrite !lookup_ge_None_2 by lia. done.
Qed.

End shapes.

(** ** Vertical fill *)

Section vertical_fill.
Import InitialConditions.
Context {V : Type}.

Lemma any3_true (a : array3 bool) :
  any3 a = true ↔ ∃ k j i, at3 a k j i = Some true.
Proof.
  unfold any3, at3, at2. rewrite existsb_exists. split.
  - intros (level & Hlevel & Hex). apply existsb_exists in Hex as (row & Hrow & Hex).
    apply existsb_exists in Hex as (b & Hb & Hid). unfold id in Hid. subst b.
    apply list_elem_of_In, list_elem_of_lookup in Hlevel as [k Hk].
    apply list_elem_of_In, list_elem_of_lookup in Hrow as [j Hj].
    apply list_elem_of_In, list_elem_of_lookup in Hb as [i Hi].
    exists k, j, i. rewrite Hk. simpl. rewrite Hj. simpl. done.
  - intros (k & j & i & H).
    destruct (a !! k) as [level|] eqn:Hk; simpl in H; [|done].
    destruct (level !! j) as [row|] eqn:Hj; simpl in H; [|done].
    exists level. split.
    { apply list_elem_of_In, list_elem_of_lookup. eauto. }
    apply existsb_exists. exists row. split.
    { apply list_elem_of_In, list_elem_of_lookup. eauto. }
    apply existsb_exists. exists true. split; [|done].
    apply list_elem_of_In, list_elem_of_lookup. eauto.
Qed.

Lemma any3_false (a : array3 bool) (k j i : nat) (b : bool) :
  any3 a = false → at3 a k j i = Some b → b = false.
Proof.
  intros Hany Hb. destruct b; [|done].
  assert (any3 a = true) by (apply any3_true; eauto). congruence.
Qed.

Lemma at3_unfilled_of (tracer : array3 (option V)) (mask : array3 bool)
    (k j i : nat) :
  at3 (unfilled_of tracer mask) k j i
  = v ← at3 tracer k j i; m ← at3 mask k j i; Some (isnull v && m).
Proof. unfold unfilled_of. by rewrite at3_map3. Qed.

(** A cell is still unfilled exactly when it is missing and masked. *)
Lemma unfilled_residual (tracer : array3 (option V)) (mask : array3 bool) :
  any3 (unfilled_of tracer mask) = true
  ↔ ∃ k j i, at3 tracer k j i = Some None ∧ at3 mask k j i = Some true.
Proof.
  rewrite any3_true. split; intros (k & j & i & H); exists k, j, i.
  - rewrite at3_unfilled_of in H.
    destruct (at3 tracer k j i) as [[v|]|], (at3 mask k j i) as [[|]|];
      simpl in H; done.
  - destruct H as [Ht Hm]. by rewrite at3_unfilled_of, Ht, Hm.
Qed.

Lemma at2_xr_where (cond : array2 bool) (a b : array2 (option V)) (j i : nat) :
  at2 (xr_where cond a b) j i
  = c ← at2 cond j i; x ← at2 a j i; y ← at2 b j i;
    Some (if (c : bool) then x else y).
Proof.
  unfold xr_where. rewrite !at2_map2.
  destruct (at2 cond j i) as [c|]; simpl; [|done].
  destruct (at2 a j i) as [x|]; simpl; done.
Qed.

Lemma shape2_xr_where (nj ni : nat) (cond : array2 bool)
    (a b : array2 (option V)) :
  shape2 nj ni cond → shape2 nj ni a → shape2 nj ni b →
  shape2 nj ni (xr_where cond a b).
Proof. intros. unfold xr_where. by repeat apply shape2_map2. Qed.

Section loop.
Variables (nk nj ni : nat).
Variables (tracer : array3 (option V)) (unfilled : array3 bool).
Hypothesis Htracer : shape3 nk nj ni tracer.
Hypothesis Hunfilled : shape3 nk nj ni unfilled.

(** After the iterations [k = 1 .. m]: the shape is kept, the levels
    below [m] are untouched, the levels down to [m] are final. *)
Lemma fill_loop_invariant (m : nat) :
  (m ≤ nk - 1)%nat →
  let t := foldl (fill_level unfilled) tracer (seq 1 m) in
  shape3 nk nj ni t
  ∧ (∀ k, (m < k)%nat → t !! k = tracer !! k)
  ∧ (∀ k j i, (k ≤ m)%nat → (j < nj)%nat → (i < ni)%nat →
       at3 t k j i = filled_at tracer unfilled k j i).
Proof.
  induction m as [|m IH]; intros Hm.
  - simpl. split; [done|]. split; [done|].
    intros k j i Hk _ _. by replace k with 0%nat by lia.
  - destruct IH as (Hshape & Hbelow & Hfinal); [lia|].
    rewrite seq_S, foldl_app. cbn [foldl Nat.add]. cbv zeta.
    set (t := foldl (fill_level unfilled) tracer (seq 1 m)) in *.
    assert (HSm : (S m < nk)%nat) by lia.
    destruct (lookup_lt_is_Some_2 unfilled (S m)) as [u Hu];
      [destruct Hunfilled; lia|].
    destruct (lookup_lt_is_Some_2 t m) as [above Habove];
      [destruct Hshape; lia|].
    destruct (lookup_lt_is_Some_2 tracer (S m)) as [cur Hcur];
      [destruct Htracer; lia|].
    assert (Htcur : t !! S m = Some cur) by (rewrite Hbelow by lia; done).
    unfold fill_level. rewrite Hu, Htcur.
    replace (S m - 0)%nat with (S m) by lia.
    replace (S m - 1)%nat with m by lia. rewrite Habove.
    assert (Hnew : shape2 nj ni (xr_where u above cur)).
    { apply shape2_xr_where; eauto using shape3_level. }
    split; [|split].
    + destruct Hshape as [Hlen Hall]. split.
      * by rewrite length_insert.
      * by apply Forall_insert.
    + intros k Hk. rewrite list_lookup_insert_ne by lia. apply Hbelow. lia.
    + intros k j i Hk Hj Hi.
      destruct (decide (k = S m)) as [->|Hne].
      * unfold at3 at 1. rewrite list_lookup_insert_eq by (destruct Hshape; lia).
        simpl. rewrite at2_xr_where.
        assert (Hmj : at2 above j i = filled_at tracer unfilled m j i).
        { rewrite <- Hfinal by (done || lia). unfold at3. by rewrite Habove. }
        assert (Huj : at3 unfilled (S m) j i = at2 u j i).
        { unfold at3. by rewrite Hu. }
        assert (Hcj : at3 tracer (S m) j i = at2 cur j i).
        { unfold at3. by rewrite Hcur. }
        rewrite Huj, <- Hmj, Hcj.
        destruct (at2_is_Some nj ni u j i) as [c ->];
          eauto using shape3_level.
        destruct (at2_is_Some nj ni above j i) as [x ->];
          eauto using shape3_level.
        destruct (at2_is_Some nj ni cur j i) as [y ->];
          eauto using shape3_level.
        simpl. by destruct c.
      * rewrite <- Hfinal by (done || lia).
        unfold at3. by rewrite list_lookup_insert_ne.
Qed.

Lemma fill_loop_shape : shape3 nk nj ni (fill_loop nk unfilled tracer).
Proof.
  unfold fill_loop, range. by apply (fill_loop_invariant (nk - 1)).
Qed.

Lemma at3_fill_loop (k j i : nat) :
  (k < nk)%nat → (j < nj)%nat → (i < ni)%nat →
  at3 (fill_loop nk unfilled tracer) k j i
  = filled_at tracer unfilled k j i.
Proof.
  intros Hk Hj Hi. unfold fill_loop, range.
  apply (fill_loop_invariant (nk - 1)); (done || lia).
Qed.

End loop.

End vertical_fill.

Section more_shapes.
Context {A B C : Type}.

Lemma shape2_fmap (f : A → B) (nj ni : nat) (a : array2 A) :
  shape2 nj ni a → shape2 nj ni (fmap (M := list) (fmap f) a).
Proof.
  intros [Hlen Hrows]. split; [by rewrite length_fmap|].
  apply Forall_fmap. eapply Forall_impl; [exact Hrows|].
  intros row Hrow. simpl. by rewrite length_fmap.
Qed.

Lemma shape3_fmap (f : A → B) (nk nj ni : nat) (a : array3 A) :
  shape3 nk nj ni a →
  shape3 nk nj ni (fmap (M := list) (fmap (M := list) (fmap f)) a).
Proof.
  intros [Hlen Hlevels]. split; [by rewrite length_fmap|].
  apply Forall_fmap. eapply Forall_impl; [exact Hlevels|].
  intros level Hlevel. by apply shape2_fmap.
Qed.

Lemma shape3_bcast2 (f : A → B → C) (nk nj ni : nat)
    (a : array3 A) (b : array2 B) :
  shape3 nk nj ni a → shape2 nj ni b → shape3 nk nj ni (bcast2 f a b).
Proof.
  intros [Hlen Hlevels] Hb. split; [unfold bcast2; by rewrite length_fmap|].
  unfold bcast2. apply Forall_fmap. eapply Forall_impl; [exact Hlevels|].
  intros level Hlevel. by apply shape2_map2.
Qed.

Lemma shape2_replicate (x : A) (nj ni : nat) :
  shape2 nj ni (replicate nj (replicate ni x)).
Proof.
  split; [by rewrite length_replicate|].
  apply Forall_replicate. by rewrite length_replicate.
Qed.

End more_shapes.

Lemma shape3_ZERO_TO_KM (nk nj ni : nat) : shape3 nk nj ni (ZERO_TO_KM nk nj ni).
Proof.
  unfold ZERO_TO_KM, ONES_3d. split.
  - rewrite length_zip_with, length_seqZ, length_replicate. lia.
  - apply Forall_lookup. intros k level Hlevel.
    rewrite lookup_zip_with in Hlevel.
    destruct (seqZ 0 (Z.of_nat nk) !! k) as [z|]; simpl in Hlevel; [|done].
    destruct (replicate nk (replicate nj (replicate ni 1)) !! k) as [l|] eqn:Hl;
      simpl in Hlevel; [|done].
    injection Hlevel as <-. apply lookup_replicate in Hl as [-> _].
    apply shape2_fmap, shape2_replicate.
Qed.

Section ocean_mask.
Import InitialConditions.
Variables (nk nj ni : nat) (kmt : array2 Z).
Hypothesis Hkmt : shape2 nj ni kmt.

Lemma shape3_MASK : shape3 nk nj ni (MASK nk nj ni kmt).
Proof.
  unfold MASK, where_. apply shape3_fmap, shape3_map3.
  - apply shape3_ZERO_TO_KM.
  - apply shape3_bcast2; [apply shape3_ZERO_TO_KM|done].
Qed.

Lemma at3_ocean_MASK (k j i : nat) (K : Z) :
  (k < nk)%nat → (j < nj)%nat → (i < ni)%nat → at2 kmt j i = Some K →
  at3 (MASK nk nj ni kmt) k j i = Some (bool_decide (Z.of_nat k < K)).
Proof.
  intros Hk Hj Hi HK. unfold MASK, where_.
  rewrite at3_fmap, at3_map3, at3_bcast2, at3_ZERO_TO_KM, HK by done.
  simpl. by destruct (bool_decide (Z.of_nat k < K)).
Qed.

(** The mask is a contiguous block from the surface down. *)
Lemma MASK_above (k k' j i : nat) :
  (k' ≤ k)%nat → (k < nk)%nat →
  at3 (MASK nk nj ni kmt) k j i = Some true →
  at3 (MASK nk nj ni kmt) k' j i = Some true.
Proof.
  intros Hle Hk Hm.
  assert (Hji : (j < nj)%nat ∧ (i < ni)%nat).
  { pose proof shape3_MASK as [_ Hall]. unfold at3 in Hm.
    destruct (MASK nk nj ni kmt !! k) as [level|] eqn:Hlevel;
      simpl in Hm; [|done].
    rewrite Forall_lookup in Hall.
    exact (at2_lt nj ni level j i true (Hall _ _ Hlevel) Hm). }
  destruct Hji as [Hj Hi].
  destruct (at2_is_Some nj ni kmt j i) as [K HK]; [done..|].
  rewrite (at3_ocean_MASK k j i K) in Hm by done.
  rewrite (at3_ocean_MASK k' j i K) by (done || lia).
  injection Hm as Hm. apply bool_decide_eq_true in Hm.
  f_equal. apply bool_decide_eq_true_2. lia.
Qed.

End ocean_mask.

Section fill_pass.
Import InitialConditions.
Context {V : Type}.
Variables (nk nj ni : nat).
Variables (tracer : array3 (option V)) (mask : array3 bool).
Hypothesis Htracer : shape3 nk nj ni tracer.
Hypothesis Hmask : shape3 nk nj ni mask.

Lemma unfilled_shape : shape3 nk nj ni (unfilled_of tracer mask).
Proof. unfold unfilled_of. by apply shape3_map3. Qed.

Lemma filled_at_keep (unfilled : array3 bool) (k j i : nat) :
  at3 unfilled k j i = Some false →
  filled_at tracer unfilled k j i = at3 tracer k j i.
Proof. destruct k as [|k]; simpl; [done|]. by intros ->. Qed.

Lemma vertical_fill_shape : shape3 nk nj ni (vertical_fill nk tracer mask).1.
Proof.
  unfold vertical_fill. destruct (any3 _); simpl; [|done].
  apply fill_loop_shape; [done|apply unfilled_shape].
Qed.

Lemma at3_vertical_fill (k j i : nat) :
  (k < nk)%nat → (j < nj)%nat → (i < ni)%nat →
  at3 (vertical_fill nk tracer mask).1 k j i
  = filled_at tracer (unfilled_of tracer mask) k j i.
Proof.
  intros Hk Hj Hi. unfold vertical_fill.
  destruct (any3 (unfilled_of tracer mask)) eqn:Hany; simpl.
  - apply (at3_fill_loop nk nj ni); auto using unfilled_shape.
  - destruct (at3_is_Some nk nj ni (unfilled_of tracer mask) k j i)
      as [u Hu]; auto using unfilled_shape.
    rewrite (any3_false _ _ _ _ _ Hany Hu) in Hu.
    by rewrite filled_at_keep.
Qed.

(** A level that holds a value, or lies outside the mask, is kept. *)
Lemma vertical_fill_keeps (k j i : nat) (v : option V) (m : bool) :
  (k < nk)%nat → (j < nj)%nat → (i < ni)%nat →
  at3 tracer k j i = Some v → at3 mask k j i = Some m →
  isnull v && m = false →
  at3 (vertical_fill nk tracer mask).1 k j i = Some v.
Proof.
  intros Hk Hj Hi Hv Hm Hb. rewrite at3_vertical_fill by done.
  rewrite filled_at_keep; [done|].
  by rewrite at3_unfilled_of, Hv, Hm; simpl; rewrite Hb.
Qed.

(** A masked missing level below the surface takes the filled value
    of the level above it. *)
Lemma vertical_fill_takes (k j i : nat) :
  (S k < nk)%nat → (j < nj)%nat → (i < ni)%nat →
  at3 tracer (S k) j i = Some None → at3 mask (S k) j i = Some true →
  at3 (vertical_fill nk tracer mask).1 (S k) j i
  = at3 (vertical_fill nk tracer mask).1 k j i.
Proof.
  intros Hk Hj Hi Hv Hm. rewrite !at3_vertical_fill by (done || lia).
  simpl. by rewrite at3_unfilled_of, Hv, Hm.
Qed.

Lemma vertical_fill_surface (j i : nat) :
  (0 < nk)%nat → (j < nj)%nat → (i < ni)%nat →
  at3 (vertical_fill nk tracer mask).1 0 j i = at3 tracer 0 j i.
Proof. intros Hk Hj Hi. by rewrite at3_vertical_fill. Qed.

Lemma vertical_fill_warn :
  (vertical_fill nk tracer mask).2
  = any3 (unfilled_of (vertical_fill nk tracer mask).1 mask).
Proof.
  unfold vertical_fill.
  destruct (any3 (unfilled_of tracer mask)) eqn:Hany; simpl; done.
Qed.

(** A cell missing after the pass was missing before it. *)
Lemma vertical_fill_residual_was_missing (k j i : nat) :
  (k < nk)%nat → (j < nj)%nat → (i < ni)%nat →
  at3 (vertical_fill nk tracer mask).1 k j i = Some None →
  at3 tracer k j i = Some None.
Proof.
  intros Hk Hj Hi Hout.
  destruct (at3_is_Some nk nj ni tracer k j i) as [v Hv]; [done..|].
  destruct (at3_is_Some nk nj ni mask k j i) as [m Hm]; [done..|].
  destruct v as [x|]; [|done].
  rewrite (vertical_fill_keeps k j i (Some x) m) in Hout by done.
  done.
Qed.

End fill_pass.

Section fill_ocean.
Import InitialConditions.
Context {V : Type}.
Variables (nk nj ni : nat) (kmt : array2 Z).
Variable tracer : array3 (option V).
Hypothesis Htracer : shape3 nk nj ni tracer.
Hypothesis Hkmt : shape2 nj ni kmt.

(** Under the ocean mask a masked cell that is still missing has
    nothing but missing values above it, before and after the pass. *)
Lemma residual_column (j i : nat) :
  (j < nj)%nat → (i < ni)%nat →
  ∀ k, (k < nk)%nat →
    at3 (vertical_fill nk tracer (MASK nk nj ni kmt)).1 k j i = Some None →
    at3 (MASK nk nj ni kmt) k j i = Some true →
    ∀ k', (k' ≤ k)%nat →
      at3 tracer k' j i = Some None
      ∧ at3 (vertical_fill nk tracer (MASK nk nj ni kmt)).1 k' j i = Some None.
Proof.
  intros Hj Hi.
  pose proof (shape3_MASK nk nj ni kmt Hkmt) as Hmask.
  induction k as [|k IH]; intros Hk Hout Hm k' Hk'.
  - replace k' with 0%nat by lia. split; [|done].
    by rewrite <- (vertical_fill_surface nk nj ni tracer (MASK nk nj ni kmt)).
  - pose proof (vertical_fill_residual_was_missing nk nj ni tracer _
                  Htracer Hmask (S k) j i Hk Hj Hi Hout) as Hwas.
    destruct (decide (k' = S k)) as [->|Hne]; [done|].
    apply IH; [lia| | |lia].
    + by rewrite <- (vertical_fill_takes nk nj ni tracer (MASK nk nj ni kmt)).
    + by apply (MASK_above nk nj ni kmt Hkmt (S k) k); [lia|..].
Qed.

End fill_ocean.

(** C7. On a field of [nk] levels, under the ocean mask of [KMT], the
    vertical fill gives every masked missing cell below the surface the
    (already filled) value of the cell above it and changes no cell that
    holds a value, no cell outside the mask and no surface cell; a masked
    cell still missing afterwards has only missing values above it, up to
    the surface. *)
Theorem vertical_fill_pass {V : Type} (nk nj ni : nat) (kmt : array2 Z)
    (tracer : array3 (option V)) :
  shape3 nk nj ni tracer → shape2 nj ni kmt →
  let mask := InitialConditions.MASK nk nj ni kmt in
  let out := (InitialConditions.vertical_fill nk tracer mask).1 in
  shape3 nk nj ni out
  ∧ ∀ k j i, (k < nk)%nat → (j < nj)%nat → (i < ni)%nat →
      (at3 tracer k j i = Some None → at3 mask k j i = Some true →
       (1 ≤ k)%nat → at3 out k j i = at3 out (k - 1)%nat j i)
      ∧ (∀ x, at3 tracer k j i = Some (Some x) → at3 out k j i = Some (Some x))
      ∧ (at3 mask k j i = Some false → at3 out k j i = at3 tracer k j i)
      ∧ (k = 0%nat → at3 out k j i = at3 tracer k j i)
      ∧ (at3 out k j i = Some None → at3 mask k j i = Some true →
         ∀ k', (k' ≤ k)%nat →
           at3 tracer k' j i = Some None ∧ at3 out k' j i = Some None).
Proof.
  intros Htracer Hkmt mask out.
  pose proof (shape3_MASK nk nj ni kmt Hkmt) as Hmask. fold mask in Hmask.
  split; [by apply vertical_fill_shape|].
  intros k j i Hk Hj Hi.
  destruct (at3_is_Some nk nj ni tracer k j i) as [v Hv]; [done..|].
  destruct (at3_is_Some nk nj ni mask k j i) as [m Hm]; [done..|].
  split; [|split; [|split; [|split]]].
  - intros Hnone Htrue Hk1. destruct k as [|k]; [lia|].
    replace (S k - 1)%nat with k by lia.
    by apply (vertical_fill_takes nk nj ni).
  - intros x Hx. rewrite Hx in Hv. injection Hv as <-.
    by apply (vertical_fill_keeps nk nj ni tracer mask Htracer Hmask k j i
                (Some x) m).
  - intros Hfalse. rewrite Hm in Hfalse. injection Hfalse as ->. rewrite Hv.
    apply (vertical_fill_keeps nk nj ni tracer mask Htracer Hmask k j i v false);
      try done.
    apply andb_false_r.
  - intros ->. by apply (vertical_fill_surface nk nj ni).
  - intros Hout Htrue. by apply (residual_column nk nj ni kmt tracer).
Qed.

Lemma vertical_fill_pass_witness :
  let tracer : array3 (option Z) := [[[Some 7; None]]; [[None; None]]] in
  let mask := InitialConditions.MASK 2 1 2 [[2; 1]] in
  let out := (InitialConditions.vertical_fill 2 tracer mask).1 in
  shape3 2 1 2 out
  ∧ ∀ k j i, (k < 2)%nat → (j < 1)%nat → (i < 2)%nat →
      (at3 tracer k j i = Some None → at3 mask k j i = Some true →
       (1 ≤ k)%nat → at3 out k j i = at3 out (k - 1)%nat j i)
      ∧ (∀ x, at3 tracer k j i = Some (Some x) → at3 out k j i = Some (Some x))
      ∧ (at3 mask k j i = Some false → at3 out k j i = at3 tracer k j i)
      ∧ (k = 0%nat → at3 out k j i = at3 tracer k j i)
      ∧ (at3 out k j i = Some None → at3 mask k j i = Some true →
         ∀ k', (k' ≤ k)%nat →
           at3 tracer k' j i = Some None ∧ at3 out k' j i = Some None).
Proof.
  apply (vertical_fill_pass 2 1 2 [[2; 1]] [[[Some 7; None]]; [[None; None]]]).
  - split; [reflexivity|]. repeat constructor.
  - split; [reflexivity|]. repeat constructor.
Defined.

(** C8. For every field and mask of one shape, a second vertical fill
    changes nothing: the field left by one pass is a fixed point. *)
Theorem vertical_fill_idempotent {V : Type} (nk nj ni : nat)
    (tracer : array3 (option V)) (mask : array3 bool) :
  shape3 nk nj ni tracer → shape3 nk nj ni mask →
  (InitialConditions.vertical_fill nk
     (InitialConditions.vertical_fill nk tracer mask).1 mask).1
  = (InitialConditions.vertical_fill nk tracer mask).1.
Proof.
  intros Htracer Hmask.
  set (out := (InitialConditions.vertical_fill nk tracer mask).1).
  assert (Hout : shape3 nk nj ni out) by by apply vertical_fill_shape.
  apply (array3_ext nk nj ni); [by apply vertical_fill_shape|done|].
  intros k j i Hk Hj Hi.
  rewrite (at3_vertical_fill nk nj ni out mask) by done.
  induction k as [|k IH]; [done|]. simpl.
  rewrite at3_unfilled_of.
  destruct (at3_is_Some nk nj ni out (S k) j i) as [o Ho]; [done..|].
  destruct (at3_is_Some nk nj ni mask (S k) j i) as [m Hm]; [done..|].
  rewrite Ho, Hm. simpl.
  destruct (InitialConditions.isnull o && m) eqn:Hb; [|done].
  apply andb_true_iff in Hb as [Hnull ->]. destruct o; [done|].
  rewrite IH by lia.
  pose proof (vertical_fill_residual_was_missing nk nj ni tracer mask
                Htracer Hmask (S k) j i Hk Hj Hi Ho) as Hwas.
  rewrite <- Ho. symmetry. by apply (vertical_fill_takes nk nj ni).
Qed.

Lemma vertical_fill_idempotent_witness :
  let tracer : array3 (option Z) := [[[Some 7; None]]; [[None; None]]] in
  let mask := [[[true; true]]; [[true; false]]] in
  (InitialConditions.vertical_fill 2
     (InitialConditions.vertical_fill 2 tracer mask).1 mask).1
  = (InitialConditions.vertical_fill 2 tracer mask).1.
Proof.
  apply (vertical_fill_idempotent 2 1 2).
  - split; [reflexivity|]. repeat constructor.
  - split; [reflexivity|]. repeat constructor.
Defined.

(** C9. Storing a tracer after its vertical fill appends the warning
    naming the tracer exactly when some masked cell of the filled field is
    still missing, appends nothing otherwise, and in both cases leaves
    the filled field in the output dataset under the tracer's name. *)
Theorem residual_warning {V : Type} (nk : nat) (mask : array3 bool)
    (tracername : string) (tracer : array3 (option V))
    (st : InitialConditions.State) :
  let out := (InitialConditions.vertical_fill nk tracer mask).1 in
  let st' := InitialConditions.fill_and_store nk mask tracername tracer st in
  let residual :=
    ∃ k j i, at3 out k j i = Some None ∧ at3 mask k j i = Some true in
  InitialConditions.ds_out st' !! tracername = Some out
  ∧ ∃ new,
      InitialConditions.warnings st' = InitialConditions.warnings st ++ new
      ∧ (new = [tracername +:+ " still has missing values"] ↔ residual)
      ∧ (new = [] ↔ ¬ residual).
Proof.
  intros out st' residual. subst st'. unfold InitialConditions.fill_and_store.
  pose proof (vertical_fill_warn nk tracer mask) as Hwarn. fold out in Hwarn.
  destruct (InitialConditions.vertical_fill nk tracer mask) as [t warn] eqn:Hvf.
  simpl in *. subst out. split; [by rewrite lookup_insert_eq|].
  eexists. split; [reflexivity|].
  pose proof (unfilled_residual t mask) as Hres. rewrite <- Hwarn in Hres.
  fold residual in Hres.
  destruct warn.
  - split; [tauto|]. split; [done|]. intros Hno. exfalso. tauto.
  - split; [|split; [|done]].
    + split; [done|]. intros Hr. apply Hres in Hr. done.
    + intros _ Hr. apply Hres in Hr. done.
Qed.

(** ** Derived quantities *)

Section derived_quantities.
Import InitialConditions.
Context {V : Type}.
Variable add : V → V → V.

Lemma dims_map2 {A B C} (f : A → B → C) (a : array2 A) (b : array2 B) :
  fmap (M := list) length a = fmap length b →
  fmap (M := list) length (map2 f a b) = fmap length a.
Proof.
  revert b. induction a as [|ra a IH]; intros [|rb b] Heq; try done.
  simpl in *. injection Heq as Hr Heq. f_equal.
  - rewrite length_zip_with. lia.
  - by apply IH.
Qed.

Lemma dims_map3 {A B C} (f : A → B → C) (a : array3 A) (b : array3 B) :
  dims a = dims b → dims (map3 f a b) = dims a.
Proof.
  unfold dims. revert b.
  induction a as [|la a IH]; intros [|lb b] Heq; try done.
  simpl in *. injection Heq as Hl Heq. f_equal.
  - by apply dims_map2.
  - by apply IH.
Qed.

Lemma fresh_ne (h : gmap nat (@Var V)) (r : nat) (v : Var) :
  h !! r = Some v → r ≠ fresh (dom h).
Proof.
  intros Hr Heq. apply (is_fresh (dom h)). rewrite <- Heq.
  apply elem_of_dom. eauto.
Qed.

Lemma lookup_insert_fresh (h : gmap nat (@Var V)) (r : nat) (v x : Var) :
  h !! r = Some v → <[fresh (dom h) := x]> h !! r = Some v.
Proof.
  intros Hr. rewrite lookup_insert_ne; [done|].
  intros Heq. by apply (fresh_ne h r v).
Qed.

Lemma bind_ok {A B} (m : M (V := V) A) (f : A → M (V := V) B)
    (s s' : Store) (x : A) :
  m s = inr (x, s') → bind m f s = f x s'.
Proof. unfold bind. by intros ->. Qed.

Lemma getitem_ok (name : string) (s : @Store V) (r : nat) :
  variables s !! name = Some r → getitem name s = inr (r, s).
Proof. unfold getitem. by intros ->. Qed.

Lemma values_ok (r : nat) (s : Store) (v : @Var V) :
  heap s !! r = Some v → values r s = inr (data v, s).
Proof. unfold values, bind, deref, ret. by intros ->. Qed.

Lemma setitem_ok (name : string) (r : nat) (s : Store) (v : @Var V) :
  heap s !! r = Some v →
  setitem name r s
  = inr (tt, {| heap := <[fresh (dom (heap s)) := v]> (heap s);
                variables := <[name := fresh (dom (heap s))]> (variables s) |}).
Proof. unfold setitem, bind, deref. by intros ->. Qed.

Lemma set_values_ok (r : nat) (new : array3 (option V)) (s : Store)
    (v : @Var V) :
  heap s !! r = Some v → dims new = dims (data v) →
  set_values r new s
  = inr (tt, {| heap := <[r := {| data := new; attrs := attrs v |}]> (heap s);
                variables := variables s |}).
Proof.
  unfold set_values, bind, deref. intros -> Hd. by rewrite decide_True.
Qed.

Lemma set_attr_ok (r : nat) (key text : string) (s : Store) (v : @Var V) :
  heap s !! r = Some v →
  set_attr r key text s
  = inr (tt, {| heap := <[r := {| data := data v;
                                  attrs := <[key := text]> (attrs v) |}]> (heap s);
                variables := variables s |}).
Proof. unfold set_attr, bind, deref. by intros ->. Qed.

Lemma np_add_ok (a b : array3 (option V)) (s : Store) :
  dims a = dims b → np_add add a b s = inr (map3 (add_nan add) a b, s).
Proof. unfold np_add, ret. intros Hd. by rewrite decide_True. Qed.

(** C10. When the dataset holds [DIC], [ALK], [DOC] and [DOCr], the
    last two as distinct variables of one shape, the cell runs to its
    end, and afterwards both [DOC] and [DOCtot] of the dataset hold
    the original [DOC] plus [DOCr] while [DOCr] holds what it held:
    [DOCtot] was the dataset's own [DOC] variable when its values were
    assigned. *)
Theorem DOCtot_aliases_DOC (s : Store)
    (rDIC rALK rDOC rDOCr : nat) (vDIC vALK vDOC vDOCr : Var) :
  variables s !! "DIC" = Some rDIC → heap s !! rDIC = Some vDIC →
  variables s !! "ALK" = Some rALK → heap s !! rALK = Some vALK →
  variables s !! "DOC" = Some rDOC → heap s !! rDOC = Some vDOC →
  variables s !! "DOCr" = Some rDOCr → heap s !! rDOCr = Some vDOCr →
  rDOC ≠ rDOCr →
  dims (data vDOC) = dims (data vDOCr) →
  ∃ s', set_derived_quantities add s = inr (tt, s')
    ∧ read "DOC" s' = Some (map3 (add_nan add) (data vDOC) (data vDOCr))
    ∧ read "DOCtot" s' = Some (map3 (add_nan add) (data vDOC) (data vDOCr))
    ∧ read "DOCr" s' = Some (data vDOCr).
Proof.
  intros HDIC HvDIC HALK HvALK HDOC HvDOC HDOCr HvDOCr Hne Hdims.
  destruct s as [h vs]. simpl in *.
  set (total := map3 (add_nan add) (data vDOC) (data vDOCr)).
  set (f1 := fresh (dom h)).
  set (h1 := <[f1 := vDIC]> h).
  assert (H1ALK : h1 !! rALK = Some vALK) by by apply lookup_insert_fresh.
  assert (H1DOC : h1 !! rDOC = Some vDOC) by by apply lookup_insert_fresh.
  assert (H1DOCr : h1 !! rDOCr = Some vDOCr) by by apply lookup_insert_fresh.
  set (f2 := fresh (dom h1)).
  set (h2 := <[f2 := vALK]> h1).
  assert (H2DOC : h2 !! rDOC = Some vDOC) by by apply lookup_insert_fresh.
  assert (H2DOCr : h2 !! rDOCr = Some vDOCr) by by apply lookup_insert_fresh.
  set (vDOC' := {| data := total; attrs := attrs vDOC |}).
  set (h3 := <[rDOC := vDOC']> h2).
  assert (H3DOC : h3 !! rDOC = Some vDOC') by apply lookup_insert_eq.
  assert (H3DOCr : h3 !! rDOCr = Some vDOCr)
    by (unfold h3; by rewrite lookup_insert_ne).
  set (vDOC'' := {| data := total;
                    attrs := <["long_name" := "DOC + DOCr"]> (attrs vDOC) |}).
  set (h4 := <[rDOC := vDOC'']> h3).
  assert (H4DOC : h4 !! rDOC = Some vDOC'') by apply lookup_insert_eq.
  assert (H4DOCr : h4 !! rDOCr = Some vDOCr)
    by (unfold h4; by rewrite lookup_insert_ne).
  set (f3 := fresh (dom h4)).
  set (h5 := <[f3 := vDOC'']> h4).
  assert (H5DOC : h5 !! rDOC = Some vDOC'') by by apply lookup_insert_fresh.
  assert (H5DOCr : h5 !! rDOCr = Some vDOCr) by by apply lookup_insert_fresh.
  assert (H5tot : h5 !! f3 = Some vDOC'') by apply lookup_insert_eq.
  set (vs5 := <["DOCtot" := f3]>
                (<["ALK_ALT_CO2" := f2]> (<["DIC_ALT_CO2" := f1]> vs))).
  exists {| heap := h5; variables := vs5 |}. split.
  - unfold set_derived_quantities.
    erewrite bind_ok by (apply getitem_ok; simpl; eauto).
    erewrite bind_ok by (eapply setitem_ok; simpl; eauto).
    cbn [heap variables]. fold f1 h1.
    erewrite bind_ok
      by (apply getitem_ok; simpl; by rewrite lookup_insert_ne).
    erewrite bind_ok by (eapply setitem_ok; simpl; eauto).
    cbn [heap variables]. fold f2 h2.
    assert (HvsDOC : <["ALK_ALT_CO2" := f2]> (<["DIC_ALT_CO2" := f1]> vs)
                     !! "DOC" = Some rDOC)
      by by rewrite !lookup_insert_ne.
    assert (HvsDOCr : <["ALK_ALT_CO2" := f2]> (<["DIC_ALT_CO2" := f1]> vs)
                      !! "DOCr" = Some rDOCr)
      by by rewrite !lookup_insert_ne.
    erewrite bind_ok by (apply getitem_ok; simpl; eauto).
    erewrite bind_ok by (apply getitem_ok; simpl; eauto).
    erewrite bind_ok by (eapply values_ok; simpl; eauto).
    erewrite bind_ok by (apply getitem_ok; simpl; eauto).
    erewrite bind_ok by (eapply values_ok; simpl; eauto).
    erewrite bind_ok by (by apply np_add_ok).
    fold total.
    erewrite bind_ok
      by (eapply set_values_ok; simpl; eauto using dims_map3).
    cbn [heap variables]. fold vDOC' h3.
    erewrite bind_ok by (eapply set_attr_ok; simpl; eauto).
    cbn [heap variables data attrs]. fold vDOC'' h4.
    erewrite setitem_ok by (simpl; eauto).
    reflexivity.
  - unfold read. subst vs5. cbn [heap variables]. split; [|split].
    + rewrite !lookup_insert_ne by done. rewrite HDOC. simpl.
      by rewrite H5DOC.
    + rewrite lookup_insert_eq. simpl. by rewrite H5tot.
    + rewrite !lookup_insert_ne by done. rewrite HDOCr. simpl.
      by rewrite H5DOCr.
Qed.

End derived_quantities.

Lemma DOCtot_aliases_DOC_witness :
  ∃ s', InitialConditions.set_derived_quantities Z.add
          InitialConditions.tracers_store
        = inr (tt, s')
    ∧ InitialConditions.read "DOC" s' = Some [[[Some 45]]]
    ∧ InitialConditions.read "DOCtot" s' = Some [[[Some 45]]]
    ∧ InitialConditions.read "DOCr" s' = Some [[[Some 5]]].
Proof.
  apply (DOCtot_aliases_DOC Z.add InitialConditions.tracers_store 0 1 2 3
           (InitialConditions.Build_Var [[[Some 2000]]] ∅)
           (InitialConditions.Build_Var [[[Some 2300]]] ∅)
           (InitialConditions.Build_Var [[[Some 40]]] ∅)
           (InitialConditions.Build_Var [[[Some 5]]] ∅));
    try (vm_compute; reflexivity).
  lia.
Defined.

(** ** Further properties of the land-adjacency cell *)

Lemma cell_cond_wet (k : nat) (K : Z) (nbrs : list Z) :
  cell_cond k K nbrs = true → Z.of_nat k < K.
Proof.
  unfold cell_cond. rewrite orb_true_iff, !andb_true_iff, !bool_decide_eq_true.
  intros [[[_ Hk] _]|Hk]; lia.
Qed.

Lemma cell_cond_deeper (k k' : nat) (K : Z) (nbrs : list Z) :
  cell_cond k K nbrs = true → (k ≤ k')%nat → Z.of_nat k' < K →
  cell_cond k' K nbrs = true.
Proof.
  unfold cell_cond. rewrite !orb_true_iff, !andb_true_iff, !bool_decide_eq_true.
  intros [[[Hex Hk] Hmin]|Hb] Hle Hk'; [left|right; lia].
  split; [split|]; [done|lia|lia].
Qed.

(** What a non-tripolar run on a non-empty grid leaves at one cell. *)
Lemma land_adjacent_points_cell (ds : Dataset) (nj ni : nat) (la : array3 Z)
    (k j i : nat) :
  shape2 nj ni (KMT ds) →
  (land_adjacent_points false ds).2 = inr la →
  (k < length (z_t ds))%nat → (j < nj)%nat → (i < ni)%nat →
  ∃ K nbrs,
    at2 (KMT ds) j i = Some K
    ∧ neighbor_depths (KMT ds) j i = Some nbrs
    ∧ at3 la k j i = Some (if cell_cond k K nbrs then 1 else 0)
    ∧ at3 (MASK (length (z_t ds)) nj ni (KMT ds)) k j i
      = Some (if bool_decide (Z.of_nat k < K) then 1 else 0).
Proof.
  intros Hshape Hrun Hk Hj Hi.
  rewrite (land_adjacent_points_run ds nj ni) in Hrun by (done || lia).
  simpl in Hrun. injection Hrun as <-.
  destruct (at2_is_Some nj ni (KMT ds) j i) as [K HK]; [done..|].
  destruct (neighbor_depths_is_Some nj ni (KMT ds) Hshape j i) as [nbrs Hn];
    [done..|].
  exists K, nbrs. split; [done|]. split; [done|]. split.
  - by apply at3_land_adjacent_array.
  - by apply at3_MASK.
Qed.

(** X1. Every cell the classifier marks lies inside the ocean mask. *)
Theorem land_adjacent_in_mask (ds : Dataset) (nj ni : nat) (la : array3 Z)
    (k j i : nat) :
  shape2 nj ni (KMT ds) →
  (land_adjacent_points false ds).2 = inr la →
  (k < length (z_t ds))%nat → (j < nj)%nat → (i < ni)%nat →
  at3 la k j i = Some 1 →
  at3 (MASK (length (z_t ds)) nj ni (KMT ds)) k j i = Some 1.
Proof.
  intros Hshape Hrun Hk Hj Hi Hmarked.
  destruct (land_adjacent_points_cell ds nj ni la k j i Hshape Hrun Hk Hj Hi)
    as (K & nbrs & HK & Hn & Hla & Hmask).
  rewrite Hmask. rewrite Hla in Hmarked.
  destruct (cell_cond k K nbrs) eqn:Hc; [|done].
  by rewrite bool_decide_eq_true_2 by by eapply cell_cond_wet.
Qed.

Lemma land_adjacent_in_mask_witness :
  at3 (MASK (length (z_t fixture)) 3 3 (KMT fixture)) 1 1 1 = Some 1.
Proof.
  apply (land_adjacent_in_mask fixture 3 3 fixture_computed 1 1 1);
    [exact fixture_shape | reflexivity | simpl; lia | lia | lia | reflexivity].
Defined.

(** X2. In a column the marked cells reach down to the bottom: below
    a marked cell every wet cell of the column is marked too. *)
Theorem land_adjacent_down_to_bottom (ds : Dataset) (nj ni : nat)
    (la : array3 Z) (k k' j i : nat) (K : Z) :
  shape2 nj ni (KMT ds) →
  (land_adjacent_points false ds).2 = inr la →
  (k' < length (z_t ds))%nat →
  at2 (KMT ds) j i = Some K →
  at3 la k j i = Some 1 →
  (k ≤ k')%nat → Z.of_nat k' < K →
  at3 la k' j i = Some 1.
Proof.
  intros Hshape Hrun Hk' HK Hmarked Hle Hwet.
  destruct (at2_lt nj ni _ _ _ _ Hshape HK) as [Hj Hi].
  destruct (land_adjacent_points_cell ds nj ni la k j i Hshape Hrun)
    as (K1 & nbrs & HK1 & Hn & Hla & _); [lia|done..|].
  destruct (land_adjacent_points_cell ds nj ni la k' j i Hshape Hrun)
    as (K2 & nbrs2 & HK2 & Hn2 & Hla' & _); [done..|].
  rewrite HK in HK1, HK2. injection HK1 as <-. injection HK2 as <-.
  rewrite Hn in Hn2. injection Hn2 as <-.
  rewrite Hla in Hmarked. rewrite Hla'.
  destruct (cell_cond k K nbrs) eqn:Hc; [|done].
  by rewrite (cell_cond_deeper k k' K nbrs).
Qed.

Lemma land_adjacent_down_to_bottom_witness :
  ∃ la, (land_adjacent_points false seam_grid).2 = inr la
        ∧ at3 la 3 0 1 = Some 1.
Proof.
  eexists. split; [vm_compute; reflexivity|].
  apply (land_adjacent_down_to_bottom seam_grid 3 3 _ 1 3 0 1 5);
    [exact seam_grid_shape | vm_compute; reflexivity | simpl; lia
    | reflexivity | reflexivity | lia | lia].
Defined.

(** ** Shape of the adjacency array *)

Lemma shape2_roll2 {A} (nj ni : nat) (jroll iroll : Z) (a : array2 A) :
  shape2 nj ni a → shape2 nj ni (roll2 jroll iroll a).
Proof.
  intros [Hlen Hrows]. unfold roll2. split.
  - by rewrite roll_length, length_fmap.
  - unfold roll at 1. apply Forall_app.
    assert (Hall : Forall (λ row : list A, length row = ni) (roll iroll <$> a)).
    { apply Forall_fmap. eapply Forall_impl; [exact Hrows|].
      intros row Hrow. simpl. by rewrite roll_length. }
    split; [by apply Forall_drop|by apply Forall_take].
Qed.

Lemma shape2_kmt_neighbors (nj ni : nat) (kmt : array2 Z) :
  shape2 nj ni kmt → shape2 nj ni (kmt_neighbors_of nj ni kmt).
Proof.
  intros Hshape. rewrite kmt_neighbors_unfold. unfold setitem_corner.
  repeat (apply shape2_map2; [|by apply shape2_roll2]).
  apply shape2_replicate.
Qed.

Lemma shape3_land_adjacent_array (nk nj ni : nat) (kmt : array2 Z) :
  shape2 nj ni kmt → shape3 nk nj ni (land_adjacent_array nk nj ni kmt).
Proof.
  intros Hshape.
  pose proof (shape3_ZERO_TO_KM nk nj ni) as HZK.
  pose proof (shape2_kmt_neighbors nj ni kmt Hshape) as Hnb.
  unfold land_adjacent_array, notnull_flag, where_, zeros_like.
  apply shape3_fmap, shape3_map3.
  - unfold MASK, notnull_flag, where_.
    apply shape3_fmap, shape3_fmap, shape3_map3; [done|].
    by apply shape3_bcast2.
  - unfold land_adjacent_cond, side_wall_present, side_wall_kmt_min.
    repeat first
      [ done
      | apply shape3_map3
      | apply shape3_bcast2
      | apply shape2_fmap
      | apply shape2_map2 ].
Qed.

(** X3. On a rectangular grid the non-tripolar run returns an array
    exactly when the grid has a row and a column (it raises
    ZeroDivisionError otherwise), and the array returned has the shape
    [(nk, nj, ni)]. *)
Theorem land_adjacent_points_returns (ds : Dataset) (nj ni : nat) :
  shape2 nj ni (KMT ds) →
  ((∃ la, (land_adjacent_points false ds).2 = inr la)
   ↔ (0 < nj)%nat ∧ (0 < ni)%nat)
  ∧ ((nj = 0 ∨ ni = 0)%nat →
     (land_adjacent_points false ds).2 = inl ZeroDivisionError)
  ∧ ∀ la, (land_adjacent_points false ds).2 = inr la →
      shape3 (length (z_t ds)) nj ni la.
Proof.
  intros Hshape.
  assert (Hempty : (nj = 0 ∨ ni = 0)%nat →
    (land_adjacent_points false ds).2 = inl ZeroDivisionError).
  { intros Hz. unfold land_adjacent_points.
    assert (Hs : shape_of (KMT ds) = (nj, ni) ∨ shape_of (KMT ds) = (0, 0)%nat).
    { destruct (decide (0 < nj)%nat).
      - left. by apply shape_of_shape2.
      - right. destruct Hshape as [Hlen _]. unfold shape_of.
        destruct (KMT ds); simpl in *; [done|lia]. }
    destruct Hs as [-> | ->]; cbv beta iota zeta.
    - by rewrite bool_decide_eq_true_2.
    - by rewrite bool_decide_eq_true_2 by by left. }
  split; [|split; [done|]].
  - split.
    + intros [la Hla]. destruct (decide (nj = 0 ∨ ni = 0)%nat) as [Hz|Hz]; [|lia].
      rewrite (Hempty Hz) in Hla. discriminate.
    + intros [Hnj Hni]. rewrite (land_adjacent_points_run ds nj ni) by done.
      eauto.
  - intros la Hla. destruct (decide (nj = 0 ∨ ni = 0)%nat) as [Hz|Hz].
    { rewrite (Hempty Hz) in Hla. discriminate. }
    rewrite (land_adjacent_points_run ds nj ni) in Hla by (done || lia).
    simpl in Hla. injection Hla as <-. by apply shape3_land_adjacent_array.
Qed.

Lemma land_adjacent_points_returns_witness :
  ((∃ la, (land_adjacent_points false fixture).2 = inr la)
   ↔ (0 < 3)%nat ∧ (0 < 3)%nat)
  ∧ ((3 = 0 ∨ 3 = 0)%nat →
     (land_adjacent_points false fixture).2 = inl ZeroDivisionError)
  ∧ ∀ la, (land_adjacent_points false fixture).2 = inr la →
      shape3 (length (z_t fixture)) 3 3 la.
Proof. apply (land_adjacent_points_returns fixture 3 3), fixture_shape. Defined.

(** X4. With the tripole flag the cell never returns an array: the
    assignment of row 0 raises IndexError on a grid without rows and
    ValueError on every other grid, and the dataset is left as it was. *)
Theorem land_adjacent_points_tripole_raises (ds : Dataset) :
  land_adjacent_points true ds
  = (ds, inl (if KMT ds is [] then IndexError else ValueError)).
Proof.
  unfold land_adjacent_points, setitem_row.
  destruct (shape_of (KMT ds)). by destruct (KMT ds).
Qed.

(** ** The plotted classification and its level *)

(** X5. For the arrays of a run, [land_adjacent_viz] is 1 exactly on the
    marked cells, 2 exactly on the wet cells that are not marked, and 0
    exactly on the cells at or below the bottom index. *)
Theorem land_adjacent_viz_classes (ds : Dataset) (nj ni : nat) (la : array3 Z)
    (k j i : nat) :
  shape2 nj ni (KMT ds) →
  (land_adjacent_points false ds).2 = inr la →
  (k < length (z_t ds))%nat → (j < nj)%nat → (i < ni)%nat →
  ∃ K v,
    at2 (KMT ds) j i = Some K
    ∧ at3 (land_adjacent_viz la (MASK (length (z_t ds)) nj ni (KMT ds))) k j i
      = Some v
    ∧ (v = 1 ↔ at3 la k j i = Some 1)
    ∧ (v = 2 ↔ Z.of_nat k < K ∧ at3 la k j i = Some 0)
    ∧ (v = 0 ↔ K ≤ Z.of_nat k)
    ∧ (v = 0 ∨ v = 1 ∨ v = 2).
Proof.
  intros Hshape Hrun Hk Hj Hi.
  destruct (land_adjacent_points_cell ds nj ni la k j i Hshape Hrun Hk Hj Hi)
    as (K & nbrs & HK & Hn & Hla & Hmask).
  exists K. unfold land_adjacent_viz.
  rewrite !at3_map3, !at3_fmap, Hla, Hmask. simpl.
  eexists. split; [done|]. split; [reflexivity|].
  destruct (cell_cond k K nbrs) eqn:Hc; simpl.
  - apply cell_cond_wet in Hc. intuition (congruence || lia).
  - destruct (bool_decide (Z.of_nat k < K)) eqn:Hw; simpl.
    + apply bool_decide_eq_true in Hw. intuition (congruence || lia).
    + apply bool_decide_eq_false in Hw. intuition (congruence || lia).
Qed.

Lemma land_adjacent_viz_classes_witness :
  ∃ K v,
    at2 (KMT fixture) 1 1 = Some K
    ∧ at3 (land_adjacent_viz fixture_computed
             (MASK (length (z_t fixture)) 3 3 (KMT fixture))) 0 1 1
      = Some v
    ∧ (v = 1 ↔ at3 fixture_computed 0 1 1 = Some 1)
    ∧ (v = 2 ↔ Z.of_nat 0 < K ∧ at3 fixture_computed 0 1 1 = Some 0)
    ∧ (v = 0 ↔ K ≤ Z.of_nat 0)
    ∧ (v = 0 ∨ v = 1 ∨ v = 2).
Proof.
  apply (land_adjacent_viz_classes fixture 3 3 fixture_computed 0 1 1);
    [exact fixture_shape | reflexivity | simpl; lia | lia | lia].
Defined.

Lemma elem_of_concat_at2 {A} (a : array2 A) (x : A) :
  x ∈ concat a ↔ ∃ j i, at2 a j i = Some x.
Proof.
  rewrite list_elem_of_In, in_concat. unfold at2. split.
  - intros (row & Hrow & Hx).
    apply list_elem_of_In, list_elem_of_lookup in Hrow as [j Hj].
    apply list_elem_of_In, list_elem_of_lookup in Hx as [i Hi].
    exists j, i. by rewrite Hj.
  - intros (j & i & H).
    destruct (a !! j) as [row|] eqn:Hj; simpl in H; [|done].
    exists row. split; apply list_elem_of_In, list_elem_of_lookup; eauto.
Qed.

(** X6. [kmin] is the level of the shallowest sea floor: when it is
    returned, some column has its bottom-most wet cell at that level and
    no ocean column is shallower, so the level is wet in every ocean
    column; it raises ValueError exactly when the grid has no ocean
    column. *)
Theorem kmin_shallowest_floor (kmt : array2 Z) :
  (∀ m, kmin kmt = inr m →
     0 ≤ m
     ∧ (∃ j i, at2 kmt j i = Some (m + 1))
     ∧ ∀ j i K, at2 kmt j i = Some K → 0 < K → m < K)
  ∧ (kmin kmt = inl ValueError ↔ ∀ j i K, at2 kmt j i = Some K → K ≤ 0)
  ∧ (∀ e, kmin kmt = inl e → e = ValueError).
Proof.
  unfold kmin.
  destruct (minimum (filter (λ K, 0 < K) (concat kmt))) as [m|] eqn:Hmin.
  - destruct (minimum_spec _ _ Hmin) as [Hin Hall].
    apply list_elem_of_filter in Hin as [Hpos Hin].
    apply elem_of_concat_at2 in Hin as (j & i & Hji).
    rewrite Forall_forall in Hall.
    split; [|split; [|done]].
    + intros m' [= <-]. split; [lia|]. split.
      * exists j, i. by replace (m - 1 + 1) with m by lia.
      * intros j' i' K HK HKpos.
        assert (HKin : K ∈ filter (λ K, 0 < K) (concat kmt)).
        { apply list_elem_of_filter. split; [done|].
          apply elem_of_concat_at2. eauto. }
        specialize (Hall K HKin). lia.
    + split; [done|]. intros Hland. specialize (Hland j i m Hji). lia.
  - split; [done|]. split; [|by intros e [= <-]].
    split; [|done]. intros _ j i K HK.
    destruct (decide (K ≤ 0)) as [|Hpos]; [done|]. exfalso.
    assert (HKin : K ∈ filter (λ K, 0 < K) (concat kmt)).
    { apply list_elem_of_filter. split; [lia|].
      apply elem_of_concat_at2. eauto. }
    destruct (filter (λ K, 0 < K) (concat kmt)); [by apply elem_of_nil in HKin|].
    done.
Qed.

(** ** The sediment fraction through the notebook *)

Lemma Qltb_lt (x y : Q) : Qltb x y = true ↔ (x < y)%Q.
Proof.
  unfold Qltb. rewrite Qlt_alt. destruct (x ?= y)%Q; split; congruence.
Qed.

Lemma Qltb_ge (x y : Q) : Qltb x y = false ↔ (y <= x)%Q.
Proof.
  rewrite <- not_true_iff_false, Qltb_lt. split.
  - apply Qnot_lt_le.
  - intros Hle Hlt. by apply (Qlt_not_le x y).
Qed.

Lemma at3_sedfrac_read (sedfrac : array3 (option Q)) (kmt : array2 Z)
    (k j i : nat) (v : option Q) (K : Z) :
  at3 sedfrac k j i = Some v → at2 kmt j i = Some K →
  at3 (sedfrac_read sedfrac kmt) k j i
  = Some (if bool_decide (0 < K) then default 0%Q v else 0%Q).
Proof.
  intros Hv HK. unfold sedfrac_read, fillna.
  rewrite at3_fmap, at3_bcast2, Hv, HK. simpl.
  by destruct (bool_decide (0 < K)).
Qed.

(** X7. With the classifier's own array and the mask of the same [KMT],
    the modified sediment fraction is [max(input, floor)] at every
    marked cell, the input at every wet cell that is not marked, and
    zero at and below the bottom index; the input is the value read,
    with zero for NaN. *)
Theorem sedfrac_mod_pipeline (ds : Dataset) (nj ni : nat) (la : array3 Z)
    (sedfrac : array3 (option Q)) (floor : Q) (k j i : nat) (v : option Q) :
  shape2 nj ni (KMT ds) →
  (land_adjacent_points false ds).2 = inr la →
  (k < length (z_t ds))%nat → (j < nj)%nat → (i < ni)%nat →
  at3 sedfrac k j i = Some v →
  ∃ K y,
    at2 (KMT ds) j i = Some K
    ∧ at3 (sedfrac_mod la (sedfrac_read sedfrac (KMT ds)) floor
             (MASK (length (z_t ds)) nj ni (KMT ds))) k j i = Some y
    ∧ (at3 la k j i = Some 1 → y = Qmax (default 0%Q v) floor)
    ∧ (at3 la k j i = Some 0 → Z.of_nat k < K → y = default 0%Q v)
    ∧ (K ≤ Z.of_nat k → y = 0%Q).
Proof.
  intros Hshape Hrun Hk Hj Hi Hv.
  destruct (land_adjacent_points_cell ds nj ni la k j i Hshape Hrun Hk Hj Hi)
    as (K & nbrs & HK & Hn & Hla & Hmask).
  pose proof (at3_sedfrac_read _ _ k j i v K Hv HK) as Hread.
  exists K. setoid_rewrite Hla.
  destruct (cell_cond k K nbrs) eqn:Hc.
  - pose proof (cell_cond_wet _ _ _ Hc) as Hwet.
    rewrite bool_decide_eq_true_2 in Hmask, Hread by lia.
    rewrite (at3_sedfrac_mod _ _ _ _ k j i _ 1 1 Hread Hla Hmask).
    rewrite !bool_decide_eq_true_2 by done. simpl.
    eexists. split; [done|]. split; [reflexivity|].
    split; [|split; [done|lia]]. intros _. by rewrite Qmax_floor.
  - destruct (decide (Z.of_nat k < K)) as [Hwet|Hland].
    + rewrite bool_decide_eq_true_2 in Hmask, Hread by lia.
      rewrite (at3_sedfrac_mod _ _ _ _ k j i _ 0 1 Hread Hla Hmask).
      rewrite (bool_decide_eq_true_2 (1 = 1)) by done.
      rewrite (bool_decide_eq_false_2 (0 = 1)) by done. simpl.
      eexists. split; [done|]. split; [reflexivity|].
      split; [done|]. split; [done|lia].
    + rewrite bool_decide_eq_false_2 in Hmask by lia.
      rewrite (at3_sedfrac_mod _ _ _ _ k j i _ 0 0 Hread Hla Hmask).
      rewrite (bool_decide_eq_false_2 (0 = 1)) by done.
      eexists. split; [done|]. split; [reflexivity|].
      split; [done|]. split; [intros _ ?; lia|done].
Qed.

Lemma sedfrac_mod_pipeline_witness :
  ∃ K y,
    at2 (KMT fixture) 1 1 = Some K
    ∧ at3 (sedfrac_mod fixture_computed
             (sedfrac_read (replicate 3 (replicate 3 (replicate 3 (Some 0.01%Q))))
                           (KMT fixture))
             0.03%Q (MASK (length (z_t fixture)) 3 3 (KMT fixture))) 1 1 1
      = Some y
    ∧ (at3 fixture_computed 1 1 1 = Some 1
       → y = Qmax (default 0%Q (Some 0.01%Q)) 0.03%Q)
    ∧ (at3 fixture_computed 1 1 1 = Some 0 → Z.of_nat 1 < K
       → y = default 0%Q (Some 0.01%Q))
    ∧ (K ≤ Z.of_nat 1 → y = 0%Q).
Proof.
  apply (sedfrac_mod_pipeline fixture 3 3 fixture_computed
           (replicate 3 (replicate 3 (replicate 3 (Some 0.01%Q))))
           0.03%Q 1 1 1 (Some 0.01%Q));
    [exact fixture_shape | reflexivity | simpl; lia | lia | lia | reflexivity].
Defined.

(** X8. Every ocean column whose bottom index lies within the grid
    levels ends up with at least the floor at its bottom-most wet cell. *)
Theorem sedfrac_floor_at_bottom (ds : Dataset) (nj ni : nat) (la : array3 Z)
    (sedfrac : array3 (option Q)) (floor : Q) (k j i : nat) (v : option Q) :
  shape2 nj ni (KMT ds) →
  (land_adjacent_points false ds).2 = inr la →
  (k < length (z_t ds))%nat →
  at2 (KMT ds) j i = Some (Z.of_nat k + 1) →
  at3 sedfrac k j i = Some v →
  ∃ y,
    at3 (sedfrac_mod la (sedfrac_read sedfrac (KMT ds)) floor
           (MASK (length (z_t ds)) nj ni (KMT ds))) k j i = Some y
    ∧ (floor <= y)%Q ∧ (default 0%Q v <= y)%Q.
Proof.
  intros Hshape Hrun Hk HK Hv.
  destruct (at2_lt nj ni _ _ _ _ Hshape HK) as [Hj Hi].
  destruct (land_adjacent_points_cell ds nj ni la k j i Hshape Hrun Hk Hj Hi)
    as (K & nbrs & HK' & Hn & Hla & Hmask).
  rewrite HK in HK'. injection HK' as <-.
  assert (Hc : cell_cond k (Z.of_nat k + 1) nbrs = true).
  { unfold cell_cond. apply orb_true_iff. right.
    apply bool_decide_eq_true. lia. }
  rewrite Hc in Hla.
  pose proof (at3_sedfrac_read _ _ k j i v _ Hv HK) as Hread.
  rewrite bool_decide_eq_true_2 in Hmask, Hread by lia.
  rewrite (at3_sedfrac_mod _ _ _ _ k j i _ 1 1 Hread Hla Hmask).
  rewrite !bool_decide_eq_true_2 by done. simpl.
  eexists. split; [reflexivity|].
  rewrite <- Qmax_floor. split; [apply Q.le_max_r|apply Q.le_max_l].
Qed.

Lemma sedfrac_floor_at_bottom_witness :
  ∃ y,
    at3 (sedfrac_mod fixture_computed
           (sedfrac_read (replicate 3 (replicate 3 (replicate 3 None)))
                         (KMT fixture))
           0.03%Q (MASK (length (z_t fixture)) 3 3 (KMT fixture))) 1 1 1
    = Some y
    ∧ (0.03 <= y)%Q ∧ (default 0%Q None <= y)%Q.
Proof.
  apply (sedfrac_floor_at_bottom fixture 3 3 fixture_computed
           (replicate 3 (replicate 3 (replicate 3 None))) 0.03%Q 1 1 1 None);
    [exact fixture_shape | reflexivity | simpl; lia | reflexivity | reflexivity].
Defined.

(** X9. Inside the mask the floor step never lowers a value, and a
    land-adjacent masked cell ends at or above the floor. *)
Theorem sedfrac_mod_raises (land_adjacent : array3 Z) (sedfrac : array3 Q)
    (floor : Q) (MASK : array3 Z) (k j i : nat) (x : Q) (f : Z) :
  at3 sedfrac k j i = Some x →
  at3 land_adjacent k j i = Some f →
  at3 MASK k j i = Some 1 →
  ∃ y, at3 (sedfrac_mod land_adjacent sedfrac floor MASK) k j i = Some y
       ∧ (x <= y)%Q
       ∧ (f = 1 → (floor <= y)%Q)
       ∧ (y = x ∨ y = floor).
Proof.
  intros Hx Hf Hm.
  rewrite (at3_sedfrac_mod _ _ _ _ k j i x f 1) by done.
  eexists. split; [reflexivity|]. simpl.
  destruct (bool_decide (f = 1)) eqn:Hf1; simpl.
  - destruct (Qltb x floor) eqn:Hlt.
    + apply Qltb_lt in Hlt. split; [by apply Qlt_le_weak|].
      split; [intros _; apply Qle_refl|by right].
    + apply Qltb_ge in Hlt. split; [apply Qle_refl|]. split; [done|by left].
  - apply bool_decide_eq_false in Hf1.
    split; [apply Qle_refl|]. split; [done|by left].
Qed.

Lemma sedfrac_mod_raises_witness :
  ∃ y, at3 (sedfrac_mod [[[1]]] [[[0.01%Q]]] 0.03%Q [[[1]]]) 0 0 0 = Some y
       ∧ (0.01 <= y)%Q
       ∧ (1 = 1 → (0.03 <= y)%Q)
       ∧ (y = 0.01%Q ∨ y = 0.03%Q).
Proof.
  apply (sedfrac_mod_raises [[[1]]] [[[0.01%Q]]] 0.03%Q [[[1]]] 0 0 0 0.01%Q 1);
    reflexivity.
Defined.

Lemma shape3_sedfrac_mod (nk nj ni : nat) (land_adjacent : array3 Z)
    (sedfrac : array3 Q) (floor : Q) (MASK : array3 Z) :
  shape3 nk nj ni land_adjacent → shape3 nk nj ni sedfrac →
  shape3 nk nj ni MASK →
  shape3 nk nj ni (sedfrac_mod land_adjacent sedfrac floor MASK).
Proof.
  intros Hla Hs Hm. unfold sedfrac_mod, fillna, where_, xr_where_scalar, eq_one.
  repeat first [ done | apply shape3_fmap | apply shape3_map3 ].
Qed.

(** Without the invariant of the adjacency array the contract as worded
    has no model: a cell flagged outside the ocean mask is set to zero,
    so the arrays of the theorem below must not flag such a cell. *)
Lemma floor_contract_needs_invariant :
  ¬ floor_contract [[[1]]] [[[0.01%Q]]] 0.03%Q [[[0]]].
Proof.
  intros Hc.
  destruct (Hc 0%nat 0%nat 0%nat 0.01%Q 1 0 eq_refl eq_refl eq_refl)
    as (y & Hy & Hmax & _ & Hzero).
  specialize (Hmax eq_refl). rewrite Hzero in Hmax by done.
  vm_compute in Hmax. discriminate.
Qed.

(** C6. For an input field, an adjacency array and an ocean mask of one
    shape, where no cell outside the mask is flagged land-adjacent (the
    invariant of the adjacency array, which the classifier's output and
    the mask of the same [KMT] meet), the result has that shape and a
    value at every cell: [max(input, floor)] where the cell is
    land-adjacent, the input where it is inside the mask and not
    land-adjacent, and zero outside the mask; with input 0.01 and floor
    0.03 a land-adjacent cell gives 0.03 and a masked cell that is not
    land-adjacent gives 0.01. *)
Theorem sedfrac_mod_contract (nk nj ni : nat) (land_adjacent : array3 Z)
    (sedfrac : array3 Q) (floor : Q) (MASK : array3 Z) :
  shape3 nk nj ni land_adjacent → shape3 nk nj ni sedfrac →
  shape3 nk nj ni MASK →
  (∀ k j i, at3 land_adjacent k j i = Some 1 → at3 MASK k j i = Some 1) →
  shape3 nk nj ni (sedfrac_mod land_adjacent sedfrac floor MASK)
  ∧ (∀ k j i, (k < nk)%nat → (j < nj)%nat → (i < ni)%nat →
       is_Some (at3 (sedfrac_mod land_adjacent sedfrac floor MASK) k j i))
  ∧ floor_contract land_adjacent sedfrac floor MASK
  ∧ (∀ k j i f m,
       at3 sedfrac k j i = Some 0.01%Q →
       at3 land_adjacent k j i = Some f →
       at3 MASK k j i = Some m →
       floor = 0.03%Q →
       (f = 1 →
        at3 (sedfrac_mod land_adjacent sedfrac floor MASK) k j i
        = Some 0.03%Q)
       ∧ (m = 1 → f ≠ 1 →
          at3 (sedfrac_mod land_adjacent sedfrac floor MASK) k j i
          = Some 0.01%Q)).
Proof.
  intros Hla Hs Hm Hinv.
  pose proof (shape3_sedfrac_mod nk nj ni _ _ floor _ Hla Hs Hm) as Hout.
  split; [done|]. split.
  { intros k j i Hk Hj Hi. by apply (at3_is_Some nk nj ni). }
  assert (Hcell : floor_contract land_adjacent sedfrac floor MASK).
  { intros k j i x f m Hx Hf Hmk.
    rewrite (at3_sedfrac_mod _ _ _ _ k j i x f m) by done.
    eexists. split; [reflexivity|]. split; [|split].
    - intros ->. rewrite (Hinv _ _ _ Hf) in Hmk. injection Hmk as <-.
      rewrite !bool_decide_eq_true_2 by done. simpl. by rewrite Qmax_floor.
    - intros -> Hne. rewrite bool_decide_eq_true_2 by done.
      by rewrite (bool_decide_eq_false_2 (f = 1)).
    - intros Hne. by rewrite bool_decide_eq_false_2. }
  split; [exact Hcell|].
  intros k j i f m Hx Hf Hmk ->.
  destruct (Hcell k j i _ f m Hx Hf Hmk) as (y & Hy & Hmax & Hkeep & _).
  rewrite Hy. split.
  - intros Hf1. by rewrite (Hmax Hf1).
  - intros Hm1 Hne. by rewrite (Hkeep Hm1 Hne).
Qed.

Lemma sedfrac_mod_contract_witness :
  let sedfrac := replicate 3 (replicate 3 (replicate 3 0.01%Q)) in
  let mask := MASK (length (z_t fixture)) 3 3 (KMT fixture) in
  shape3 3 3 3 (sedfrac_mod fixture_computed sedfrac 0.03%Q mask)
  ∧ (∀ k j i, (k < 3)%nat → (j < 3)%nat → (i < 3)%nat →
       is_Some (at3 (sedfrac_mod fixture_computed sedfrac 0.03%Q mask) k j i))
  ∧ floor_contract fixture_computed sedfrac 0.03%Q mask
  ∧ (∀ k j i f m,
       at3 sedfrac k j i = Some 0.01%Q →
       at3 fixture_computed k j i = Some f →
       at3 mask k j i = Some m →
       0.03%Q = 0.03%Q →
       (f = 1 →
        at3 (sedfrac_mod fixture_computed sedfrac 0.03%Q mask) k j i
        = Some 0.03%Q)
       ∧ (m = 1 → f ≠ 1 →
          at3 (sedfrac_mod fixture_computed sedfrac 0.03%Q mask) k j i
          = Some 0.01%Q)).
Proof.
  apply (sedfrac_mod_contract 3 3 3 fixture_computed
           (replicate 3 (replicate 3 (replicate 3 0.01%Q))) 0.03%Q
           (MASK (length (z_t fixture)) 3 3 (KMT fixture))).
  - vm_compute. split; [reflexivity|]. repeat constructor.
  - vm_compute. split; [reflexivity|]. repeat constructor.
  - vm_compute. split; [reflexivity|]. repeat constructor.
  - intros [|[|[|k]]] [|[|[|j]]] [|[|[|i]]] H; vm_compute in H |- *;
      first [ reflexivity | discriminate H ].
Defined.

(** X10. Applying the floor step a second time, with the same
    adjacency array, floor and mask, changes nothing. *)
Theorem sedfrac_mod_idempotent (nk nj ni : nat) (land_adjacent : array3 Z)
    (sedfrac : array3 Q) (floor : Q) (MASK : array3 Z) :
  shape3 nk nj ni land_adjacent → shape3 nk nj ni sedfrac →
  shape3 nk nj ni MASK →
  sedfrac_mod land_adjacent
    (sedfrac_mod land_adjacent sedfrac floor MASK) floor MASK
  = sedfrac_mod land_adjacent sedfrac floor MASK.
Proof.
  intros Hla Hs Hm.
  pose proof (shape3_sedfrac_mod nk nj ni _ _ floor _ Hla Hs Hm) as Hout.
  apply (array3_ext nk nj ni); [by apply shape3_sedfrac_mod|done|].
  intros k j i Hk Hj Hi.
  destruct (at3_is_Some nk nj ni sedfrac k j i) as [x Hx]; [done..|].
  destruct (at3_is_Some nk nj ni land_adjacent k j i) as [f Hf]; [done..|].
  destruct (at3_is_Some nk nj ni MASK k j i) as [m Hmk]; [done..|].
  pose proof (at3_sedfrac_mod _ _ floor _ k j i x f m Hx Hf Hmk) as H1.
  rewrite (at3_sedfrac_mod _ _ floor _ k j i _ f m H1 Hf Hmk), H1. f_equal.
  destruct (bool_decide (m = 1)); [|done].
  destruct (bool_decide (f = 1)); simpl; [|done].
  destruct (Qltb x floor) eqn:Hlt; [|by rewrite Hlt].
  assert (Qltb floor floor = false) as -> by (apply Qltb_ge, Qle_refl). done.
Qed.

Lemma sedfrac_mod_idempotent_witness :
  sedfrac_mod [[[1; 0]]]
    (sedfrac_mod [[[1; 0]]] [[[0.01%Q; 0.01%Q]]] 0.03%Q [[[1; 1]]])
    0.03%Q [[[1; 1]]]
  = sedfrac_mod [[[1; 0]]] [[[0.01%Q; 0.01%Q]]] 0.03%Q [[[1; 1]]].
Proof.
  apply (sedfrac_mod_idempotent 1 1 2);
    (split; [reflexivity|]; repeat constructor).
Defined.

(** ** Clamps of the POC flux and of the current speed *)

Lemma at3_xr_where_scalar_fmap {A} (test : A → bool) (x : A) (a : array3 A)
    (k j i : nat) :
  at3 (xr_where_scalar
         (fmap (M := list) (fmap (M := list) (fmap test)) a) x a) k j i
  = (λ y, if test y then x else y) <$> at3 a k j i.
Proof.
  unfold xr_where_scalar. rewrite at3_map3, at3_fmap.
  by destruct (at3 a k j i).
Qed.

Lemma le_nan_le (x y : Q) : le_nan (Some x) y = true ↔ (x <= y)%Q.
Proof.
  simpl. unfold Qle. rewrite <- Z.compare_le_iff. unfold Qcompare.
  destruct (_ ?= _)%Z; split; congruence.
Qed.

(** X11. For bounds with [0 <= min < max] (the notebook's are 3 and
    20): after the two [where] steps a POC flux is NaN where it was,
    zero where it was at or below the minimum (the minimum itself
    included), the maximum where it exceeded the maximum, and unchanged
    in between; every value is zero or lies in [(min, max]]. *)
Theorem POC_flux_clamp_range (POC_flux : array3 (option Q)) (mn mx : Q)
    (k j i : nat) (v : option Q) :
  (0 <= mn)%Q → (mn < mx)%Q →
  at3 POC_flux k j i = Some v →
  ∃ w, at3 (POC_flux_clamp POC_flux mn mx) k j i = Some w
       ∧ (v = None ↔ w = None)
       ∧ ∀ x, v = Some x →
           ∃ y, w = Some y
                ∧ ((x <= mn)%Q → y = 0%Q)
                ∧ ((mn < x)%Q → (x <= mx)%Q → y = x)
                ∧ ((mx < x)%Q → y = mx)
                ∧ (y = 0%Q ∨ ((mn < y)%Q ∧ (y <= mx)%Q)).
Proof.
  intros Hmn Hlt Hv. unfold POC_flux_clamp.
  rewrite !at3_xr_where_scalar_fmap, Hv.
  cbn [fmap option_fmap option_map]. cbv beta.
  eexists. split; [reflexivity|].
  destruct v as [x|]; [|split; [done|intros ? [=]]].
  assert (H0 : Qltb mx 0 = false) by (apply Qltb_ge; lra).
  destruct (le_nan (Some x) mn) eqn:Hc.
  - apply le_nan_le in Hc. cbn [gt_nan]. rewrite H0.
    split; [split; discriminate|]. intros ? [= <-].
    eexists. split; [reflexivity|].
    split; [done|]. split; [intros; lra|]. split; [intros; lra|by left].
  - assert (Hgt : (mn < x)%Q).
    { apply Qnot_le_lt. intros Hxle. apply le_nan_le in Hxle. congruence. }
    cbn [gt_nan]. destruct (Qltb mx x) eqn:Hmx.
    + apply Qltb_lt in Hmx. split; [split; discriminate|]. intros ? [= <-].
      eexists. split; [reflexivity|].
      split; [intros; lra|]. split; [intros; lra|]. split; [done|].
      right. split; [done|apply Qle_refl].
    + apply Qltb_ge in Hmx. split; [split; discriminate|]. intros ? [= <-].
      eexists. split; [reflexivity|].
      split; [intros; lra|]. split; [done|]. split; [intros; lra|].
      by right.
Qed.

Lemma POC_flux_clamp_range_witness :
  ∃ w, at3 (POC_flux_clamp [[[Some 3%Q; Some 25%Q; None]]] 3%Q 20%Q) 0 0 0
       = Some w
       ∧ (Some 3%Q = None ↔ w = None)
       ∧ ∀ x, Some 3%Q = Some x →
           ∃ y, w = Some y
                ∧ ((x <= 3)%Q → y = 0%Q)
                ∧ ((3 < x)%Q → (x <= 20)%Q → y = x)
                ∧ ((20 < x)%Q → y = 20%Q)
                ∧ (y = 0%Q ∨ ((3 < y)%Q ∧ (y <= 20)%Q)).
Proof.
  apply (POC_flux_clamp_range [[[Some 3%Q; Some 25%Q; None]]] 3%Q 20%Q
           0 0 0 (Some 3%Q)); [lra | lra | reflexivity].
Defined.

(** X12. For a minimum with [min <= 10] (the notebook's is 1): after
    the two [where] steps a current speed is NaN where it was, the
    minimum where it was below it, [current_speed_max] where it exceeded
    the literal 10, and unchanged from the minimum up to 10, whatever
    [current_speed_max] is; every value lies in [[min, 10]] or equals
    [current_speed_max]. *)
Theorem current_speed_clamp_range (current_speed : array3 (option Q))
    (mn mx : Q) (k j i : nat) (v : option Q) :
  (mn <= 10)%Q →
  at3 current_speed k j i = Some v →
  ∃ w, at3 (current_speed_clamp current_speed mn mx) k j i = Some w
       ∧ (v = None ↔ w = None)
       ∧ ∀ x, v = Some x →
           ∃ y, w = Some y
                ∧ ((x < mn)%Q → y = mn)
                ∧ ((mn <= x)%Q → (x <= 10)%Q → y = x)
                ∧ ((10 < x)%Q → y = mx)
                ∧ (((mn <= y)%Q ∧ (y <= 10)%Q) ∨ y = mx).
Proof.
  intros Hmn Hv. unfold current_speed_clamp.
  rewrite !at3_xr_where_scalar_fmap, Hv.
  cbn [fmap option_fmap option_map]. cbv beta.
  eexists. split; [reflexivity|].
  destruct v as [x|]; [|split; [done|intros ? [=]]].
  assert (H10 : Qltb 10 mn = false) by (by apply Qltb_ge).
  cbn [lt_nan]. destruct (Qltb x mn) eqn:Hc.
  - apply Qltb_lt in Hc. cbn [gt_nan]. rewrite H10.
    split; [split; discriminate|]. intros ? [= <-].
    eexists. split; [reflexivity|].
    split; [done|]. split; [intros; lra|]. split; [intros; lra|].
    left. split; [apply Qle_refl|done].
  - apply Qltb_ge in Hc. cbn [gt_nan]. destruct (Qltb 10 x) eqn:Hmx.
    + apply Qltb_lt in Hmx. split; [split; discriminate|]. intros ? [= <-].
      eexists. split; [reflexivity|].
      split; [intros; lra|]. split; [intros; lra|]. split; [done|by right].
    + apply Qltb_ge in Hmx. split; [split; discriminate|]. intros ? [= <-].
      eexists. split; [reflexivity|].
      split; [intros; lra|]. split; [done|]. split; [intros; lra|by left].
Qed.

Lemma current_speed_clamp_range_witness :
  ∃ w, at3 (current_speed_clamp [[[Some 7%Q; Some 0.5%Q; None]]] 1%Q 5%Q)
           0 0 0 = Some w
       ∧ (Some 7%Q = None ↔ w = None)
       ∧ ∀ x, Some 7%Q = Some x →
           ∃ y, w = Some y
                ∧ ((x < 1)%Q → y = 1%Q)
                ∧ ((1 <= x)%Q → (x <= 10)%Q → y = x)
                ∧ ((10 < x)%Q → y = 5%Q)
                ∧ (((1 <= y)%Q ∧ (y <= 10)%Q) ∨ y = 5%Q).
Proof.
  apply (current_speed_clamp_range [[[Some 7%Q; Some 0.5%Q; None]]] 1%Q 5%Q
           0 0 0 (Some 7%Q)); [lra | reflexivity].
Defined.

(** ** Further properties of the vertical fill *)

Lemma at3_lt {A} (nk nj ni : nat) (a : array3 A) (k j i : nat) (x : A) :
  shape3 nk nj ni a → at3 a k j i = Some x →
  (k < nk)%nat ∧ (j < nj)%nat ∧ (i < ni)%nat.
Proof.
  intros [Hlen Hall] Hx. unfold at3 in Hx.
  destruct (a !! k) as [level|] eqn:Hlevel; simpl in Hx; [|done].
  rewrite Forall_lookup in Hall.
  destruct (at2_lt nj ni level j i x (Hall _ _ Hlevel) Hx).
  apply lookup_lt_Some in Hlevel. lia.
Qed.

(** X13. Under the ocean mask, when no masked cell of the surface level
    is missing, the vertical fill leaves a value in every masked cell and
    storing the tracer issues no warning. *)
Theorem vertical_fill_complete {V : Type} (nk nj ni : nat) (kmt : array2 Z)
    (tracer : array3 (option V)) (tracername : string)
    (st : InitialConditions.State) :
  shape3 nk nj ni tracer → shape2 nj ni kmt →
  let mask := InitialConditions.MASK nk nj ni kmt in
  (∀ j i, at3 mask 0 j i = Some true → at3 tracer 0 j i ≠ Some None) →
  (∀ k j i, at3 mask k j i = Some true →
     ∃ x, at3 (InitialConditions.vertical_fill nk tracer mask).1 k j i
          = Some (Some x))
  ∧ InitialConditions.warnings
      (InitialConditions.fill_and_store nk mask tracername tracer st)
    = InitialConditions.warnings st.
Proof.
  intros Htracer Hkmt mask Hsurface.
  pose proof (shape3_MASK nk nj ni kmt Hkmt) as Hmask. fold mask in Hmask.
  assert (Hnone : ∀ k j i, at3 mask k j i = Some true →
    at3 (InitialConditions.vertical_fill nk tracer mask).1 k j i ≠ Some None).
  { intros k j i Hm Hout.
    destruct (at3_lt nk nj ni mask k j i true Hmask Hm) as (Hk & Hj & Hi).
    destruct (residual_column nk nj ni kmt tracer Htracer Hkmt j i Hj Hi
                k Hk Hout Hm 0%nat) as [Hmiss _]; [lia|].
    apply (Hsurface j i); [|done].
    by apply (MASK_above nk nj ni kmt Hkmt k 0 j i); [lia|..]. }
  split.
  - intros k j i Hm.
    destruct (at3_lt nk nj ni mask k j i true Hmask Hm) as (Hk & Hj & Hi).
    pose proof (vertical_fill_shape nk nj ni tracer mask Htracer Hmask) as Hout.
    destruct (at3_is_Some nk nj ni _ k j i Hout Hk Hj Hi) as [[x|] Hx]; [eauto|].
    by destruct (Hnone k j i Hm).
  - unfold InitialConditions.fill_and_store.
    pose proof (vertical_fill_warn nk tracer mask) as Hwarn.
    destruct (InitialConditions.vertical_fill nk tracer mask) as [t warn].
    simpl in *. destruct warn; [|by rewrite app_nil_r].
    symmetry in Hwarn. apply unfilled_residual in Hwarn as (k & j & i & Ht & Hm).
    by destruct (Hnone k j i Hm).
Qed.

Lemma vertical_fill_complete_witness :
  let tracer : array3 (option Q) := [[[Some 7%Q; Some 2%Q]]; [[None; None]]] in
  let mask := InitialConditions.MASK 2 1 2 [[2; 1]] in
  (∀ k j i, at3 mask k j i = Some true →
     ∃ x, at3 (InitialConditions.vertical_fill 2 tracer mask).1 k j i
          = Some (Some x))
  ∧ InitialConditions.warnings
      (InitialConditions.fill_and_store 2 mask "DIC" tracer
         (@InitialConditions.Build_State Q ∅ []))
    = InitialConditions.warnings (@InitialConditions.Build_State Q ∅ []).
Proof.
  apply (vertical_fill_complete 2 1 2 [[2; 1]]
           [[[Some 7%Q; Some 2%Q]]; [[None; None]]]).
  - split; [reflexivity|]. repeat constructor.
  - split; [reflexivity|]. repeat constructor.
  - intros [|[|j]] [|[|[|i]]]; vm_compute; congruence.
Defined.

Lemma filled_at_nearest {V} (tracer : array3 (option V)) (mask : array3 bool)
    (k j i : nat) (x : V) :
  InitialConditions.filled_at tracer
    (InitialConditions.unfilled_of tracer mask) k j i = Some (Some x) →
  ∃ k', (k' ≤ k)%nat
        ∧ at3 tracer k' j i = Some (Some x)
        ∧ ∀ k'', (k' < k'')%nat → (k'' ≤ k)%nat →
            at3 tracer k'' j i = Some None ∧ at3 mask k'' j i = Some true.
Proof.
  induction k as [|k IH]; simpl.
  - intros H0. exists 0%nat. split; [done|]. split; [done|]. intros; lia.
  - rewrite at3_unfilled_of.
    destruct (at3 tracer (S k) j i) as [v|] eqn:Hv; simpl; [|done].
    destruct (at3 mask (S k) j i) as [m|] eqn:Hm; simpl; [|done].
    destruct (InitialConditions.isnull v && m) eqn:Hb.
    + apply andb_true_iff in Hb as [Hnull ->]. destruct v; [done|].
      intros Hf. destruct (IH Hf) as (k' & Hle & Hx & Hgap).
      exists k'. split; [lia|]. split; [done|]. intros k'' Hlt Hle'.
      destruct (decide (k'' = S k)) as [->|Hne]; [done|].
      apply Hgap; lia.
    + intros [= ->]. exists (S k). split; [done|]. split; [done|]. intros; lia.
Qed.

(** X14. A value found in a cell after the vertical fill is the value
    of the nearest level at or above it that held one before: every
    level in between was missing and masked. *)
Theorem vertical_fill_nearest_above {V : Type} (nk nj ni : nat)
    (tracer : array3 (option V)) (mask : array3 bool) (k j i : nat) (x : V) :
  shape3 nk nj ni tracer → shape3 nk nj ni mask →
  at3 (InitialConditions.vertical_fill nk tracer mask).1 k j i
  = Some (Some x) →
  ∃ k', (k' ≤ k)%nat
        ∧ at3 tracer k' j i = Some (Some x)
        ∧ ∀ k'', (k' < k'')%nat → (k'' ≤ k)%nat →
            at3 tracer k'' j i = Some None ∧ at3 mask k'' j i = Some true.
Proof.
  intros Htracer Hmask Hout.
  pose proof (vertical_fill_shape nk nj ni tracer mask Htracer Hmask) as Hshape.
  destruct (at3_lt nk nj ni _ k j i _ Hshape Hout) as (Hk & Hj & Hi).
  rewrite (at3_vertical_fill nk nj ni) in Hout by done.
  by apply filled_at_nearest.
Qed.

Lemma vertical_fill_nearest_above_witness :
  let tracer : array3 (option Z) := [[[Some 7; None]]; [[None; None]]] in
  let mask := [[[true; true]]; [[true; false]]] in
  ∃ k', (k' ≤ 1)%nat
        ∧ at3 tracer k' 0 0 = Some (Some 7)
        ∧ ∀ k'', (k' < k'')%nat → (k'' ≤ 1)%nat →
            at3 tracer k'' 0 0 = Some None ∧ at3 mask k'' 0 0 = Some true.
Proof.
  apply (vertical_fill_nearest_above 2 1 2
           [[[Some 7; None]]; [[None; None]]]
           [[[true; true]]; [[true; false]]] 1 0 0 7).
  - split; [reflexivity|]. repeat constructor.
  - split; [reflexivity|]. repeat constructor.
  - reflexivity.
Defined.

(** ** Layer bounds *)

Section layer_bounds.
Import InitialConditions.
Context {V : Type}.
Variables (zero : V) (add : V → V → V).

Lemma length_cumsum_from (acc : V) (l : list V) :
  length (cumsum_from add acc l) = length l.
Proof. revert acc. induction l as [|x l IH]; intros acc; simpl; by f_equal. Qed.

Lemma length_cumsum (l : list V) : length (cumsum add l) = length l.
Proof. destruct l; simpl; [done|]. by rewrite length_cumsum_from. Qed.

Lemma cumsum_from_step (acc : V) (l : list V) (k : nat) (x y : V) :
  (acc :: cumsum_from add acc l) !! k = Some y → l !! k = Some x →
  cumsum_from add acc l !! k = Some (add y x).
Proof.
  revert acc k. induction l as [|z l IH]; intros acc k Hy Hx; [done|].
  destruct k as [|k]; simpl in *.
  - by injection Hy as <-; injection Hx as <-.
  - by apply IH.
Qed.

Lemma cumsum_step (l : list V) (k : nat) (x y : V) :
  cumsum add l !! k = Some y → l !! S k = Some x →
  cumsum add l !! S k = Some (add y x).
Proof.
  destruct l as [|z l]; [done|]. simpl. intros Hy Hx.
  by apply cumsum_from_step.
Qed.

Lemma z_t_bounds_lookup (dz : list V) (k : nat) :
  z_t_bounds_vals zero add dz !! k
  = lower ← z_t_edges zero add dz !! k;
    upper ← cumsum add dz !! k; Some [lower; upper].
Proof.
  unfold z_t_bounds_vals, z_t_edges. simpl.
  rewrite Nat.sub_0_r, drop_0, lookup_zip_with.
  destruct (decide (k < length dz)%nat) as [Hk|Hk].
  - by rewrite lookup_take_lt by (rewrite length_cumsum; lia).
  - rewrite (lookup_ge_None_2 (cumsum add dz)) by (rewrite length_cumsum; lia).
    by destruct (take _ _ !! k), ((zero :: cumsum add dz) !! k).
Qed.

(** X15. The layer bounds have one row per layer; the first layer
    runs from zero to its thickness, every later layer's upper bound is
    its lower bound plus its thickness, and each layer starts where the
    one above it ends. *)
Theorem z_t_bounds_layers (dz : list V) :
  length (z_t_bounds_vals zero add dz) = length dz
  ∧ ∀ k x, dz !! k = Some x →
      ∃ lower upper,
        z_t_bounds_vals zero add dz !! k = Some [lower; upper]
        ∧ (k = 0%nat → lower = zero ∧ upper = x)
        ∧ ((1 ≤ k)%nat → upper = add lower x)
        ∧ ∀ x', dz !! S k = Some x' →
            z_t_bounds_vals zero add dz !! S k = Some [upper; add upper x'].
Proof.
  split.
  - unfold z_t_bounds_vals, z_t_edges. simpl.
    rewrite Nat.sub_0_r, drop_0, length_zip_with, length_take, length_cumsum.
    simpl. rewrite length_cumsum. lia.
  - assert (Hup : ∀ k x, dz !! k = Some x → ∃ upper,
      cumsum add dz !! k = Some upper
      ∧ (k = 0%nat → upper = x)
      ∧ ∀ lower, cumsum add dz !! (k - 1)%nat = Some lower → (1 ≤ k)%nat →
          upper = add lower x).
    { intros k x Hx.
      destruct (lookup_lt_is_Some_2 (cumsum add dz) k) as [upper Hupper].
      { rewrite length_cumsum. by eapply lookup_lt_Some. }
      exists upper. split; [done|]. split.
      - intros ->. destruct dz; simpl in *; congruence.
      - intros lower Hlower Hk. destruct k as [|k]; [lia|].
        replace (S k - 1)%nat with k in Hlower by lia.
        rewrite (cumsum_step dz k x lower Hlower Hx) in Hupper. congruence. }
    intros k x Hx. destruct (Hup k x Hx) as (upper & Hupper & H0 & Hstep).
    rewrite z_t_bounds_lookup, Hupper. unfold z_t_edges.
    destruct k as [|k]; simpl.
    + exists zero, upper. split; [done|]. split; [by intros _; split; [|apply H0]|].
      split; [lia|]. intros x' Hx'.
      rewrite z_t_bounds_lookup. unfold z_t_edges. simpl. rewrite Hupper. simpl.
      by rewrite (cumsum_step dz 0 x' upper Hupper Hx').
    + destruct (lookup_lt_is_Some_2 (cumsum add dz) k) as [lower Hlower].
      { rewrite length_cumsum. apply lookup_lt_Some in Hx. lia. }
      rewrite Hlower. simpl. exists lower, upper.
      split; [done|]. split; [done|]. split.
      * intros _. apply Hstep; [|lia]. by replace (S k - 1)%nat with k by lia.
      * intros x' Hx'.
        rewrite z_t_bounds_lookup. unfold z_t_edges. simpl. rewrite Hupper. simpl.
        by rewrite (cumsum_step dz (S k) x' upper Hupper Hx').
Qed.

End layer_bounds.

(** ** Copy from the restart file *)

Section copy_tracer.
Import InitialConditions.
Variables (nk nj ni : nat) (kmt : array2 Z).
Variable masked : array3 (option Q).
Hypothesis Hmasked : shape3 nk nj ni masked.
Hypothesis Hkmt : shape2 nj ni kmt.

Lemma at2_popped_floor (k : nat) (cur : array2 (option Q)) (j i : nat) :
  at2 (popped_floor k cur kmt) j i
  = v ← at2 cur j i; K ← at2 kmt j i;
    Some (eq_zero v && bool_decide (Z.of_nat k + 1 = K)).
Proof. unfold popped_floor. by rewrite at2_map2. Qed.

(** A level above a popped floor is not itself a popped floor. *)
Lemma fixed_at_above (k j i : nat) (v : option Q) :
  at3 masked k j i = Some v →
  at2 kmt j i = Some (Z.of_nat (S k) + 1) →
  fixed_at kmt masked k j i = Some v.
Proof.
  intros Hv HK. unfold fixed_at. rewrite Hv, HK.
  cbn [mbind option_bind].
  rewrite (bool_decide_eq_false_2 (Z.of_nat k + 1 = Z.of_nat (S k) + 1))
    by lia.
  by rewrite andb_false_r.
Qed.

Lemma floor_fix_invariant (m : nat) :
  (m ≤ nk - 1)%nat →
  let t := foldl (floor_fix_level kmt) masked (seq 1 m) in
  shape3 nk nj ni t
  ∧ (∀ k, (m < k)%nat → t !! k = masked !! k)
  ∧ (∀ k j i, (k ≤ m)%nat → (j < nj)%nat → (i < ni)%nat →
       at3 t k j i = fixed_at kmt masked k j i).
Proof.
  induction m as [|m IH]; intros Hm.
  - simpl. split; [done|]. split; [done|].
    intros k j i Hk Hj Hi. replace k with 0%nat by lia.
    unfold fixed_at. destruct (at3 masked 0 j i) as [v|]; [|done].
    destruct (at2_is_Some nj ni kmt j i) as [K ->]; [done..|]. done.
  - destruct IH as (Hshape & Hbelow & Hfinal); [lia|].
    rewrite seq_S, foldl_app. cbn [foldl Nat.add]. cbv zeta.
    set (t := foldl (floor_fix_level kmt) masked (seq 1 m)) in *.
    assert (HSm : (S m < nk)%nat) by lia.
    destruct (lookup_lt_is_Some_2 t m) as [above Habove];
      [destruct Hshape; lia|].
    destruct (lookup_lt_is_Some_2 masked (S m)) as [cur Hcur];
      [destruct Hmasked; lia|].
    assert (Htcur : t !! S m = Some cur) by (rewrite Hbelow by lia; done).
    unfold floor_fix_level. rewrite Htcur.
    replace (S m - 1)%nat with m by lia. rewrite Habove.
    assert (Hpop : shape2 nj ni (popped_floor (S m) cur kmt)).
    { unfold popped_floor. apply shape2_map2; eauto using shape3_level. }
    assert (Hnew : shape2 nj ni
                     (xr_where (popped_floor (S m) cur kmt) above cur)).
    { apply shape2_xr_where; eauto using shape3_level. }
    split; [|split].
    + destruct Hshape as [Hlen Hall]. split.
      * by rewrite length_insert.
      * by apply Forall_insert.
    + intros k Hk. rewrite list_lookup_insert_ne by lia. apply Hbelow. lia.
    + intros k j i Hk Hj Hi.
      destruct (decide (k = S m)) as [->|Hne].
      * unfold at3 at 1.
        rewrite list_lookup_insert_eq by (destruct Hshape; lia).
        simpl. rewrite at2_xr_where, at2_popped_floor.
        assert (Hmj : at2 above j i = fixed_at kmt masked m j i).
        { rewrite <- Hfinal by (done || lia). unfold at3. by rewrite Habove. }
        assert (Hcj : at3 masked (S m) j i = at2 cur j i).
        { unfold at3. by rewrite Hcur. }
        destruct (at3_is_Some nk nj ni masked m j i) as [v' Hv'];
          [done|lia|done..|].
        destruct (at2_is_Some nj ni cur j i) as [v Hv];
          eauto using shape3_level.
        destruct (at2_is_Some nj ni kmt j i) as [K HK]; [done..|].
        unfold fixed_at at 1. rewrite Hcj, Hv, HK. simpl.
        replace (m - 0)%nat with m by lia. rewrite Hmj.
        destruct (eq_zero v && bool_decide (Z.of_nat (S m) + 1 = K)) eqn:Hc.
        -- apply andb_true_iff in Hc as [_ HKeq].
           apply bool_decide_eq_true in HKeq. subst K.
           rewrite (fixed_at_above m j i v' Hv' HK). simpl. by rewrite Hv'.
        -- destruct (fixed_at kmt masked m j i) eqn:Hf; [done|].
           unfold fixed_at in Hf. rewrite Hv', HK in Hf. simpl in Hf.
           destruct (_ && _) in Hf; [|done].
           destruct (at3_is_Some nk nj ni masked (m - 1) j i) as [? Hx];
             [done|lia|done..|]. congruence.
      * rewrite <- Hfinal by (done || lia).
        unfold at3. by rewrite list_lookup_insert_ne.
Qed.

End copy_tracer.

Lemma at3_copy_tracer (nk nj ni : nat) (MASK : array3 bool) (kmt : array2 Z)
    (tracer : array3 (option Q)) (k j i : nat) :
  shape3 nk nj ni tracer → shape3 nk nj ni MASK → shape2 nj ni kmt →
  (k < nk)%nat → (j < nj)%nat → (i < ni)%nat →
  at3 (InitialConditions.copy_tracer nk MASK kmt tracer) k j i
  = InitialConditions.fixed_at kmt (InitialConditions.where_mask tracer MASK)
      k j i.
Proof.
  intros Htracer Hmask Hkmt Hk Hj Hi.
  unfold InitialConditions.copy_tracer, InitialConditions.range.
  apply (floor_fix_invariant nk nj ni kmt); try (done || lia).
  unfold InitialConditions.where_mask. by apply shape3_map3.
Qed.

Lemma shape3_copy_tracer (nk nj ni : nat) (MASK : array3 bool)
    (kmt : array2 Z) (tracer : array3 (option Q)) :
  shape3 nk nj ni tracer → shape3 nk nj ni MASK → shape2 nj ni kmt →
  shape3 nk nj ni (InitialConditions.copy_tracer nk MASK kmt tracer).
Proof.
  intros Htracer Hmask Hkmt.
  unfold InitialConditions.copy_tracer, InitialConditions.range.
  apply (floor_fix_invariant nk nj ni kmt); try (done || lia).
  unfold InitialConditions.where_mask. by apply shape3_map3.
Qed.

Lemma copy_tracer_outside_mask (nk nj ni : nat) (MASK : array3 bool)
    (kmt : array2 Z) (tracer : array3 (option Q)) (k j i : nat) :
  shape3 nk nj ni tracer → shape3 nk nj ni MASK → shape2 nj ni kmt →
  (k < nk)%nat → (j < nj)%nat → (i < ni)%nat →
  at3 MASK k j i = Some false →
  at3 (InitialConditions.copy_tracer nk MASK kmt tracer) k j i = Some None.
Proof.
  intros Htracer Hmask Hkmt Hk Hj Hi Hm.
  rewrite (at3_copy_tracer nk nj ni) by done.
  unfold InitialConditions.fixed_at, InitialConditions.where_mask.
  rewrite (at3_map3 _ tracer MASK k j i), Hm.
  destruct (at3_is_Some nk nj ni tracer k j i) as [r ->]; [done..|].
  destruct (at2_is_Some nj ni kmt j i) as [K ->]; [done..|].
  cbn [mbind option_bind InitialConditions.eq_zero].
  by rewrite andb_false_r.
Qed.

(** X16. Copying a tracer changes the masked restart field in one kind
    of cell only: a cell below the surface that holds 0.0 at the bottom
    index of its column takes the restart value of the cell above it.
    Every other cell keeps its masked value, cells outside the mask are
    NaN, and a bottom cell that is still 0.0 has 0.0 above it. *)
Theorem copy_tracer_cell (nk nj ni : nat) (MASK : array3 bool)
    (kmt : array2 Z) (tracer : array3 (option Q)) (k j i : nat)
    (v : option Q) (K : Z) :
  shape3 nk nj ni tracer → shape3 nk nj ni MASK → shape2 nj ni kmt →
  at3 (InitialConditions.where_mask tracer MASK) k j i = Some v →
  at2 kmt j i = Some K →
  let out := InitialConditions.copy_tracer nk MASK kmt tracer in
  ((1 ≤ k)%nat → InitialConditions.eq_zero v = true → K = Z.of_nat k + 1 →
   at3 out k j i
   = at3 (InitialConditions.where_mask tracer MASK) (k - 1) j i)
  ∧ (k = 0%nat ∨ InitialConditions.eq_zero v = false ∨ K ≠ Z.of_nat k + 1 →
     at3 out k j i = Some v)
  ∧ (at3 MASK k j i = Some false → at3 out k j i = Some None)
  ∧ (∀ w, at3 out k j i = Some w → InitialConditions.eq_zero w = true →
       (1 ≤ k)%nat → K = Z.of_nat k + 1 →
       ∃ w', at3 (InitialConditions.where_mask tracer MASK) (k - 1) j i
             = Some w'
             ∧ InitialConditions.eq_zero w' = true).
Proof.
  intros Htracer Hmask Hkmt Hv HK out.
  assert (Hmasked : shape3 nk nj ni (InitialConditions.where_mask tracer MASK)).
  { unfold InitialConditions.where_mask. by apply shape3_map3. }
  destruct (at3_lt nk nj ni _ k j i v Hmasked Hv) as (Hk & Hj & Hi).
  assert (Hout : at3 out k j i
    = if bool_decide (1 ≤ k)%nat && InitialConditions.eq_zero v
         && bool_decide (Z.of_nat k + 1 = K)
      then at3 (InitialConditions.where_mask tracer MASK) (k - 1) j i
      else Some v).
  { unfold out. rewrite (at3_copy_tracer nk nj ni) by done.
    unfold InitialConditions.fixed_at. by rewrite Hv, HK. }
  assert (Hkeep : k = 0%nat ∨ InitialConditions.eq_zero v = false
                  ∨ K ≠ Z.of_nat k + 1 → at3 out k j i = Some v).
  { intros Hcase. rewrite Hout.
    destruct Hcase as [-> | [-> | HneK]].
    - done.
    - by rewrite andb_false_r.
    - rewrite (bool_decide_eq_false_2 (Z.of_nat k + 1 = K)) by lia.
      by rewrite andb_false_r. }
  assert (Htake : (1 ≤ k)%nat → InitialConditions.eq_zero v = true →
                  K = Z.of_nat k + 1 →
                  at3 out k j i
                  = at3 (InitialConditions.where_mask tracer MASK) (k - 1) j i).
  { intros Hk1 Hz HKeq. rewrite Hout, Hz.
    by rewrite !bool_decide_eq_true_2 by lia. }
  split; [done|]. split; [done|]. split.
  - intros Hm. unfold InitialConditions.where_mask in Hv.
    rewrite at3_map3, Hm in Hv.
    destruct (at3 tracer k j i); simpl in Hv; [|done].
    injection Hv as <-. apply Hkeep. right; by left.
  - intros w Hw Hz Hk1 HKeq.
    destruct (InitialConditions.eq_zero v) eqn:Hzv.
    + rewrite Htake in Hw by done. eauto.
    + rewrite Hkeep in Hw by (right; by left). congruence.
Qed.

Lemma copy_tracer_cell_witness :
  let tracer : array3 (option Q) := [[[Some 4%Q]]; [[Some 0%Q]]; [[Some 9%Q]]] in
  let MASK := InitialConditions.MASK 3 1 1 [[2]] in
  let out := InitialConditions.copy_tracer 3 MASK [[2]] tracer in
  ((1 ≤ 1)%nat → InitialConditions.eq_zero (Some 0%Q) = true →
   2 = Z.of_nat 1 + 1 →
   at3 out 1 0 0 = at3 (InitialConditions.where_mask tracer MASK) (1 - 1) 0 0)
  ∧ (1%nat = 0%nat ∨ InitialConditions.eq_zero (Some 0%Q) = false
     ∨ 2 ≠ Z.of_nat 1 + 1 → at3 out 1 0 0 = Some (Some 0%Q))
  ∧ (at3 MASK 1 0 0 = Some false → at3 out 1 0 0 = Some None)
  ∧ (∀ w, at3 out 1 0 0 = Some w → InitialConditions.eq_zero w = true →
       (1 ≤ 1)%nat → 2 = Z.of_nat 1 + 1 →
       ∃ w', at3 (InitialConditions.where_mask tracer MASK) (1 - 1) 0 0
             = Some w'
             ∧ InitialConditions.eq_zero w' = true).
Proof.
  apply (copy_tracer_cell 3 1 1 (InitialConditions.MASK 3 1 1 [[2]]) [[2]]
           [[[Some 4%Q]]; [[Some 0%Q]]; [[Some 9%Q]]] 1 0 0 (Some 0%Q) 2).
  - split; [reflexivity|]. repeat constructor.
  - split; [reflexivity|]. repeat constructor.
  - split; [reflexivity|]. repeat constructor.
  - reflexivity.
  - reflexivity.
Defined.

(** X17. Copying a tracer that has already been through the copy
    changes nothing. *)
Theorem copy_tracer_idempotent (nk nj ni : nat) (MASK : array3 bool)
    (kmt : array2 Z) (tracer : array3 (option Q)) :
  shape3 nk nj ni tracer → shape3 nk nj ni MASK → shape2 nj ni kmt →
  InitialConditions.copy_tracer nk MASK kmt
    (InitialConditions.copy_tracer nk MASK kmt tracer)
  = InitialConditions.copy_tracer nk MASK kmt tracer.
Proof.
  intros Htracer Hmask Hkmt.
  set (out := InitialConditions.copy_tracer nk MASK kmt tracer).
  set (masked := InitialConditions.where_mask tracer MASK).
  assert (Hout : shape3 nk nj ni out) by by apply shape3_copy_tracer.
  assert (Hmasked : shape3 nk nj ni masked).
  { unfold masked, InitialConditions.where_mask. by apply shape3_map3. }
  assert (Hcell : ∀ k j i, (k < nk)%nat → (j < nj)%nat → (i < ni)%nat →
    at3 out k j i = InitialConditions.fixed_at kmt masked k j i).
  { intros. by apply (at3_copy_tracer nk nj ni). }
  (* masking the result again gives the result *)
  assert (Hremask : ∀ k j i, (k < nk)%nat → (j < nj)%nat → (i < ni)%nat →
    at3 (InitialConditions.where_mask out MASK) k j i = at3 out k j i).
  { intros k j i Hk Hj Hi. unfold InitialConditions.where_mask at 1.
    rewrite at3_map3.
    destruct (at3_is_Some nk nj ni out k j i) as [w Hw]; [done..|].
    destruct (at3_is_Some nk nj ni MASK k j i) as [m Hm]; [done..|].
    rewrite Hw, Hm. simpl. destruct m; [done|].
    rewrite <- Hw. symmetry. by apply (copy_tracer_outside_mask nk nj ni). }
  apply (array3_ext nk nj ni); [by apply shape3_copy_tracer|done|].
  intros k j i Hk Hj Hi.
  rewrite (at3_copy_tracer nk nj ni) by done.
  unfold InitialConditions.fixed_at.
  rewrite (Hremask k j i) by done.
  destruct (at3_is_Some nk nj ni out k j i) as [w Hw]; [done..|].
  destruct (at2_is_Some nj ni kmt j i) as [K HK]; [done..|].
  rewrite Hw, HK. cbn [mbind option_bind].
  destruct (bool_decide (1 ≤ k)%nat && InitialConditions.eq_zero w
            && bool_decide (Z.of_nat k + 1 = K)) eqn:Hc; [|done].
  apply andb_true_iff in Hc as [Hc HKeq].
  apply andb_true_iff in Hc as [Hk1 Hz].
  apply bool_decide_eq_true in HKeq, Hk1.
  rewrite Hremask by (done || lia).
  (* the level above is not a bottom level, so it holds its masked value *)
  destruct (at3_is_Some nk nj ni masked (k - 1) j i) as [v' Hv'];
    [done|lia|done..|].
  assert (Habove : at3 out (k - 1) j i = Some v').
  { rewrite Hcell by (done || lia). apply fixed_at_above; [done|].
    rewrite HK. f_equal. lia. }
  rewrite Habove.
  (* and the cell itself holds that value or was not 0.0 *)
  destruct (at3_is_Some nk nj ni masked k j i) as [v Hv]; [done..|].
  rewrite Hcell in Hw by done. unfold InitialConditions.fixed_at in Hw.
  rewrite Hv, HK in Hw. cbn [mbind option_bind] in Hw.
  rewrite !bool_decide_eq_true_2 in Hw by done. simpl in Hw.
  destruct (InitialConditions.eq_zero v) eqn:Hzv; simpl in Hw.
  - by rewrite <- Hw, Hv'.
  - congruence.
Qed.

Lemma copy_tracer_idempotent_witness :
  let tracer : array3 (option Q) := [[[Some 4%Q]]; [[Some 0%Q]]; [[Some 9%Q]]] in
  let MASK := InitialConditions.MASK 3 1 1 [[2]] in
  InitialConditions.copy_tracer 3 MASK [[2]]
    (InitialConditions.copy_tracer 3 MASK [[2]] tracer)
  = InitialConditions.copy_tracer 3 MASK [[2]] tracer.
Proof.
  apply (copy_tracer_idempotent 3 1 1);
    (split; [reflexivity|]; repeat constructor).
Defined.

Section copy_from_refcase.
Import InitialConditions.
Variables (nk : nat) (MASK : array3 bool) (kmt : array2 Z).
Variable ds_refcase : gmap string (array3 (option Q)).

(** X18. The copy from the restart file succeeds exactly when every
    tracer name is already a variable of the output dataset or has its
    [_CUR] variable in the restart file, and fails with KeyError
    otherwise.  On success the variables the dataset had are untouched
    (a tracer regridded before is not replaced), every tracer name is
    present, each added tracer is the copy of its restart variable, and
    no other name is added. *)
Theorem copy_from_refcase_result (tracernames : list string)
    (ds_out : gmap string (array3 (option Q))) :
  ((∃ ds', copy_from_refcase nk MASK kmt ds_refcase tracernames ds_out
           = inr ds')
   ↔ ∀ name, name ∈ tracernames →
       is_Some (ds_out !! name)
       ∨ is_Some (ds_refcase !! (name +:+ "_CUR")))
  ∧ (∀ e, copy_from_refcase nk MASK kmt ds_refcase tracernames ds_out = inl e
          → e = KeyError)
  ∧ ∀ ds', copy_from_refcase nk MASK kmt ds_refcase tracernames ds_out
           = inr ds' →
      (∀ name v, ds_out !! name = Some v → ds' !! name = Some v)
      ∧ (∀ name, name ∈ tracernames → is_Some (ds' !! name))
      ∧ (∀ name, name ∈ tracernames → ds_out !! name = None →
           ∃ tracer, ds_refcase !! (name +:+ "_CUR") = Some tracer
                     ∧ ds' !! name = Some (copy_tracer nk MASK kmt tracer))
      ∧ (∀ name, name ∉ tracernames → ds' !! name = ds_out !! name).
Proof.
  revert ds_out. induction tracernames as [|tracername rest IH]; intros ds_out.
  { simpl. split; [|split].
    - split; [intros _ name Hin; by apply elem_of_nil in Hin|eauto].
    - intros e [=].
    - intros ds' [= <-]. split; [done|].
      split; [intros name Hin; by apply elem_of_nil in Hin|].
      split; [intros name Hin; by apply elem_of_nil in Hin|done]. }
  simpl. destruct (ds_out !! tracername) as [v0|] eqn:Hhave.
  - destruct (IH ds_out) as (Hiff & Herr & Hok). split; [|split; [done|]].
    + rewrite Hiff. split.
      * intros Hall name Hin. apply elem_of_cons in Hin as [->|Hin]; [|auto].
        left. eauto.
      * intros Hall name Hin. apply Hall. by right.
    + intros ds' Hrun. destruct (Hok ds' Hrun) as (Hframe & Hall & Hnew & Hrest).
      split; [done|]. split; [|split].
      * intros name Hin. apply elem_of_cons in Hin as [->|Hin]; [|auto].
        rewrite (Hframe _ _ Hhave). eauto.
      * intros name Hin Hnone. apply elem_of_cons in Hin as [->|Hin];
          [congruence|auto].
      * intros name Hnin. apply Hrest. intros Hin. apply Hnin. by right.
  - destruct (ds_refcase !! (tracername +:+ "_CUR")) as [tracer|] eqn:Href.
    + set (ds1 := <[tracername := copy_tracer nk MASK kmt tracer]> ds_out).
      destruct (IH ds1) as (Hiff & Herr & Hok). split; [|split; [done|]].
      * rewrite Hiff. split.
        -- intros Hall name Hin. apply elem_of_cons in Hin as [->|Hin].
           { right. eauto. }
           destruct (Hall name Hin) as [Hs|Hs]; [|by right].
           unfold ds1 in Hs. rewrite lookup_insert in Hs.
           case_decide; [subst; right; eauto|by left].
        -- intros Hall name Hin.
           destruct (decide (tracername = name)) as [<-|Hne].
           { left. unfold ds1. rewrite lookup_insert_eq. eauto. }
           unfold ds1. rewrite lookup_insert_ne by done.
           apply Hall. by right.
      * intros ds' Hrun.
        destruct (Hok ds' Hrun) as (Hframe & Hall & Hnew & Hrest).
        assert (Hthis : ds' !! tracername
                        = Some (copy_tracer nk MASK kmt tracer)).
        { apply Hframe. unfold ds1. apply lookup_insert_eq. }
        split; [|split; [|split]].
        -- intros name v Hv. apply Hframe. unfold ds1.
           rewrite lookup_insert_ne; [done|]. intros ->. congruence.
        -- intros name Hin. apply elem_of_cons in Hin as [->|Hin]; [|auto].
           rewrite Hthis. eauto.
        -- intros name Hin Hnone.
           destruct (decide (tracername = name)) as [<-|Hne]; [eauto|].
           apply elem_of_cons in Hin as [->|Hin]; [done|].
           apply Hnew; [done|]. unfold ds1. by rewrite lookup_insert_ne.
        -- intros name Hnin.
           rewrite Hrest by (intros Hin; apply Hnin; by right).
           unfold ds1. rewrite lookup_insert_ne; [done|].
           intros ->. apply Hnin. by left.
    + split; [|split].
      * split; [intros [ds' [=]]|].
        intros Hall. destruct (Hall tracername) as [[? Hs]|[? Hs]];
          [by left|congruence|congruence].
      * by intros e [= <-].
      * intros ds' [=].
Qed.

End copy_from_refcase.

(** ** Derived quantities: the other variables and the attributes *)

Section derived_quantities_more.
Import InitialConditions.
Context {V : Type}.
Variable add : V → V → V.

(** The store the cell leaves, spelled out. *)
Lemma set_derived_quantities_run (h : gmap nat (@Var V)) (vs : gmap string nat)
    (rDIC rALK rDOC rDOCr : nat) (vDIC vALK vDOC vDOCr : Var) :
  vs !! "DIC" = Some rDIC → h !! rDIC = Some vDIC →
  vs !! "ALK" = Some rALK → h !! rALK = Some vALK →
  vs !! "DOC" = Some rDOC → h !! rDOC = Some vDOC →
  vs !! "DOCr" = Some rDOCr → h !! rDOCr = Some vDOCr →
  dims (data vDOC) = dims (data vDOCr) →
  let f1 := fresh (dom h) in
  let h1 := <[f1 := vDIC]> h in
  let f2 := fresh (dom h1) in
  let h2 := <[f2 := vALK]> h1 in
  let total := map3 (add_nan add) (data vDOC) (data vDOCr) in
  let vDOC'' := {| data := total;
                   attrs := <["long_name" := "DOC + DOCr"]> (attrs vDOC) |} in
  let h4 := <[rDOC := vDOC'']>
              (<[rDOC := {| data := total; attrs := attrs vDOC |}]> h2) in
  let f3 := fresh (dom h4) in
  set_derived_quantities add {| heap := h; variables := vs |}
  = inr (tt, {| heap := <[f3 := vDOC'']> h4;
                variables :=
                  <["DOCtot" := f3]>
                    (<["ALK_ALT_CO2" := f2]> (<["DIC_ALT_CO2" := f1]> vs)) |}).
Proof.
  intros HDIC HvDIC HALK HvALK HDOC HvDOC HDOCr HvDOCr Hdims.
  intros f1 h1 f2 h2 total vDOC'' h4 f3.
  assert (H1ALK : h1 !! rALK = Some vALK) by by apply lookup_insert_fresh.
  assert (H1DOC : h1 !! rDOC = Some vDOC) by by apply lookup_insert_fresh.
  assert (H1DOCr : h1 !! rDOCr = Some vDOCr) by by apply lookup_insert_fresh.
  assert (H2DOC : h2 !! rDOC = Some vDOC) by by apply lookup_insert_fresh.
  assert (H2DOCr : h2 !! rDOCr = Some vDOCr) by by apply lookup_insert_fresh.
  set (vDOC' := {| data := total; attrs := attrs vDOC |}).
  set (h3 := <[rDOC := vDOC']> h2).
  assert (H3DOC : h3 !! rDOC = Some vDOC') by apply lookup_insert_eq.
  assert (H4DOC : h4 !! rDOC = Some vDOC'') by apply lookup_insert_eq.
  unfold set_derived_quantities.
  erewrite bind_ok by (apply getitem_ok; simpl; eauto).
  erewrite bind_ok by (eapply setitem_ok; simpl; eauto).
  cbn [heap variables]. fold f1 h1.
  erewrite bind_ok
    by (apply getitem_ok; simpl; by rewrite lookup_insert_ne).
  erewrite bind_ok by (eapply setitem_ok; simpl; eauto).
  cbn [heap variables]. fold f2 h2.
  assert (HvsDOC : <["ALK_ALT_CO2" := f2]> (<["DIC_ALT_CO2" := f1]> vs)
                   !! "DOC" = Some rDOC)
    by by rewrite !lookup_insert_ne.
  assert (HvsDOCr : <["ALK_ALT_CO2" := f2]> (<["DIC_ALT_CO2" := f1]> vs)
                    !! "DOCr" = Some rDOCr)
    by by rewrite !lookup_insert_ne.
  erewrite bind_ok by (apply getitem_ok; simpl; eauto).
  erewrite bind_ok by (apply getitem_ok; simpl; eauto).
  erewrite bind_ok by (eapply values_ok; simpl; eauto).
  erewrite bind_ok by (apply getitem_ok; simpl; eauto).
  erewrite bind_ok by (eapply values_ok; simpl; eauto).
  erewrite bind_ok by (by apply np_add_ok).
  fold total.
  erewrite bind_ok
    by (eapply set_values_ok; simpl; eauto using dims_map3).
  cbn [heap variables]. fold vDOC' h3.
  erewrite bind_ok by (eapply set_attr_ok; simpl; eauto).
  cbn [heap variables data attrs]. fold vDOC'' h4.
  erewrite setitem_ok by (simpl; eauto).
  reflexivity.
Qed.

(** X19. The cell also relabels [DOC]: afterwards the [long_name] of
    both [DOC] and [DOCtot] is "DOC + DOCr".  [DIC_ALT_CO2] and
    [ALK_ALT_CO2] hold the values of [DIC] and [ALK], and [DIC] and
    [ALK] keep theirs when they are variables other than [DOC]. *)
Theorem set_derived_quantities_labels (s : Store)
    (rDIC rALK rDOC rDOCr : nat) (vDIC vALK vDOC vDOCr : Var) :
  variables s !! "DIC" = Some rDIC → heap s !! rDIC = Some vDIC →
  variables s !! "ALK" = Some rALK → heap s !! rALK = Some vALK →
  variables s !! "DOC" = Some rDOC → heap s !! rDOC = Some vDOC →
  variables s !! "DOCr" = Some rDOCr → heap s !! rDOCr = Some vDOCr →
  rDIC ≠ rDOC → rALK ≠ rDOC →
  dims (data vDOC) = dims (data vDOCr) →
  ∃ s', set_derived_quantities add s = inr (tt, s')
    ∧ read_attrs "DOC" s'
      = Some (<["long_name" := "DOC + DOCr"]> (attrs vDOC))
    ∧ read_attrs "DOCtot" s'
      = Some (<["long_name" := "DOC + DOCr"]> (attrs vDOC))
    ∧ read "DIC_ALT_CO2" s' = Some (data vDIC)
    ∧ read "ALK_ALT_CO2" s' = Some (data vALK)
    ∧ read "DIC" s' = Some (data vDIC)
    ∧ read "ALK" s' = Some (data vALK).
Proof.
  intros HDIC HvDIC HALK HvALK HDOC HvDOC HDOCr HvDOCr HneDIC HneALK Hdims.
  destruct s as [h vs]. simpl in *.
  pose proof (set_derived_quantities_run h vs rDIC rALK rDOC rDOCr
                vDIC vALK vDOC vDOCr HDIC HvDIC HALK HvALK HDOC HvDOC
                HDOCr HvDOCr Hdims) as Hrun.
  cbv zeta in Hrun.
  set (f1 := fresh (dom h)) in *.
  set (h1 := <[f1 := vDIC]> h) in *.
  set (f2 := fresh (dom h1)) in *.
  set (h2 := <[f2 := vALK]> h1) in *.
  set (total := map3 (add_nan add) (data vDOC) (data vDOCr)) in *.
  set (vDOC' := {| data := total; attrs := attrs vDOC |}) in *.
  set (vDOC'' := {| data := total;
                    attrs := <["long_name" := "DOC + DOCr"]> (attrs vDOC) |})
    in *.
  set (h3 := <[rDOC := vDOC']> h2) in *.
  set (h4 := <[rDOC := vDOC'']> h3) in *.
  set (f3 := fresh (dom h4)) in *.
  eexists. split; [exact Hrun|].
  (* what the heaps hold at the addresses read below *)
  assert (H1f1 : h1 !! f1 = Some vDIC) by apply lookup_insert_eq.
  assert (H1DIC : h1 !! rDIC = Some vDIC) by by apply lookup_insert_fresh.
  assert (H1ALK : h1 !! rALK = Some vALK) by by apply lookup_insert_fresh.
  assert (H2f1 : h2 !! f1 = Some vDIC) by by apply lookup_insert_fresh.
  assert (H2f2 : h2 !! f2 = Some vALK) by apply lookup_insert_eq.
  assert (H2DIC : h2 !! rDIC = Some vDIC) by by apply lookup_insert_fresh.
  assert (H2ALK : h2 !! rALK = Some vALK) by by apply lookup_insert_fresh.
  assert (H2DOC : h2 !! rDOC = Some vDOC)
    by (apply lookup_insert_fresh; by apply lookup_insert_fresh).
  assert (Hf1 : rDOC ≠ f1).
  { intros ->. unfold f1 in HvDOC.
    by apply (fresh_ne h _ vDOC HvDOC). }
  assert (Hf2 : rDOC ≠ f2).
  { intros Heq. by apply (fresh_ne h1 rDOC vDOC);
      [apply lookup_insert_fresh|]. }
  assert (H4 : ∀ r v, r ≠ rDOC → h2 !! r = Some v → h4 !! r = Some v).
  { intros r v Hne Hr. unfold h4, h3. by rewrite !lookup_insert_ne. }
  assert (H4DOC : h4 !! rDOC = Some vDOC'') by apply lookup_insert_eq.
  assert (H5 : ∀ r v, h4 !! r = Some v → <[f3 := vDOC'']> h4 !! r = Some v).
  { intros r v Hr. by apply lookup_insert_fresh. }
  unfold read_attrs, read. cbn [heap variables].
  repeat split.
  - rewrite !lookup_insert_ne by done. rewrite HDOC. simpl.
    by rewrite (H5 _ _ H4DOC).
  - rewrite lookup_insert_eq. simpl. by rewrite lookup_insert_eq.
  - rewrite lookup_insert_ne by done. rewrite lookup_insert_ne by done.
    rewrite lookup_insert_eq. simpl.
    by rewrite (H5 _ _ (H4 _ _ (not_eq_sym Hf1) H2f1)).
  - rewrite lookup_insert_ne by done. rewrite lookup_insert_eq. simpl.
    by rewrite (H5 _ _ (H4 _ _ (not_eq_sym Hf2) H2f2)).
  - rewrite !lookup_insert_ne by done. rewrite HDIC. simpl.
    by rewrite (H5 _ _ (H4 _ _ HneDIC H2DIC)).
  - rewrite !lookup_insert_ne by done. rewrite HALK. simpl.
    by rewrite (H5 _ _ (H4 _ _ HneALK H2ALK)).
Qed.

End derived_quantities_more.

Lemma set_derived_quantities_labels_witness :
  ∃ s', InitialConditions.set_derived_quantities Z.add
          InitialConditions.tracers_store = inr (tt, s')
    ∧ InitialConditions.read_attrs "DOC" s'
      = Some (<["long_name" := "DOC + DOCr"]> ∅)
    ∧ InitialConditions.read_attrs "DOCtot" s'
      = Some (<["long_name" := "DOC + DOCr"]> ∅)
    ∧ InitialConditions.read "DIC_ALT_CO2" s' = Some [[[Some 2000]]]
    ∧ InitialConditions.read "ALK_ALT_CO2" s' = Some [[[Some 2300]]]
    ∧ InitialConditions.read "DIC" s' = Some [[[Some 2000]]]
    ∧ InitialConditions.read "ALK" s' = Some [[[Some 2300]]].
Proof.
  apply (set_derived_quantities_labels Z.add InitialConditions.tracers_store
           0 1 2 3
           (InitialConditions.Build_Var [[[Some 2000]]] ∅)
           (InitialConditions.Build_Var [[[Some 2300]]] ∅)
           (InitialConditions.Build_Var [[[Some 40]]] ∅)
           (InitialConditions.Build_Var [[[Some 5]]] ∅));
    try (vm_compute; reflexivity); lia.
Defined.

(** ** Neighbours are mutual *)

Lemma wrap_back (n i : nat) (count : Z) :
  (i < n)%nat → wrap n (wrap n i count) (- count) = i.
Proof.
  intros Hi. unfold wrap.
  pose proof (Z.mod_pos_bound (Z.of_nat i - count) (Z.of_nat n)) as Hb.
  rewrite Z2Nat.id by lia.
  replace ((Z.of_nat i - count) `mod` Z.of_nat n - - count)
    with ((Z.of_nat i - count) `mod` Z.of_nat n + count) by lia.
  rewrite Zplus_mod_idemp_l.
  replace (Z.of_nat i - count + count) with (Z.of_nat i) by lia.
  rewrite Z.mod_small by lia. lia.
Qed.

Lemma offsets_opposite (r : Z * Z) : r ∈ offsets → (- r.1, - r.2) ∈ offsets.
Proof.
  intros Hr. apply list_elem_of_In in Hr. apply list_elem_of_In.
  simpl in Hr. destruct Hr as [<-|[<-|[<-|[<-|[<-|[<-|[<-|[<-|[]]]]]]]]];
    simpl; auto 10.
Qed.

(** X20. The neighbourhood is mutual: when a roll records column B as a
    neighbour of column A, the depth of A is among the neighbour depths
    recorded for B. *)
Theorem neighbors_mutual (nj ni : nat) (kmt : array2 Z) (j i : nat)
    (r : Z * Z) (K : Z) :
  shape2 nj ni kmt → r ∈ offsets → at2 kmt j i = Some K →
  ∃ nbrs,
    at2 (kmt_neighbors_of nj ni kmt) (wrap nj j r.2) (wrap ni i r.1)
    = Some nbrs
    ∧ K ∈ nbrs.
Proof.
  intros Hshape Hr HK.
  destruct (at2_lt nj ni _ _ _ _ Hshape HK) as [Hj Hi].
  assert (Hj' : (wrap nj j r.2 < nj)%nat) by (apply wrap_lt; lia).
  assert (Hi' : (wrap ni i r.1 < ni)%nat) by (apply wrap_lt; lia).
  destruct (neighbor_depths_is_Some nj ni kmt Hshape _ _ Hj' Hi')
    as [nbrs Hn].
  exists nbrs. rewrite (at2_kmt_neighbors nj ni) by done.
  split; [done|]. unfold neighbor_depths in Hn.
  rewrite (shape_of_shape2 nj ni) in Hn by (done || lia).
  apply mapM_Some in Hn.
  pose proof (offsets_opposite r Hr) as Hopp.
  apply list_elem_of_lookup in Hopp as [n Hopp].
  destruct (Forall2_lookup_l _ _ _ _ _ Hn Hopp) as (d & Hd & Heq).
  simpl in Heq. rewrite !wrap_back in Heq by done.
  rewrite HK in Heq. injection Heq as ->.
  apply list_elem_of_lookup. eauto.
Qed.

Lemma neighbors_mutual_witness :
  ∃ nbrs,
    at2 (kmt_neighbors_of 3 3 (KMT seam_grid)) (wrap 3 0 (1, 1).2)
        (wrap 3 1 (1, 1).1) = Some nbrs
    ∧ 5 ∈ nbrs.
Proof.
  apply (neighbors_mutual 3 3 (KMT seam_grid) 0 1 (1, 1) 5);
    [exact seam_grid_shape | | reflexivity].
  apply list_elem_of_In. simpl. auto 10.
Defined.

(** ** The ocean mask *)

(** X21. Both notebooks' masks mark exactly the cells above the bottom
    index: the boolean mask is true, and the 0/1 mask is 1, if and only
    if [k < KMT]; so the wet cells of a column form one block from the
    surface down, and a column with [KMT <= 0] has none. *)
Theorem ocean_mask_block (nk nj ni : nat) (kmt : array2 Z) (k j i : nat)
    (K : Z) :
  shape2 nj ni kmt →
  (k < nk)%nat → at2 kmt j i = Some K →
  ∃ b m,
    at3 (InitialConditions.MASK nk nj ni kmt) k j i = Some b
    ∧ at3 (MASK nk nj ni kmt) k j i = Some m
    ∧ (b = true ↔ Z.of_nat k < K)
    ∧ (m = 1 ↔ Z.of_nat k < K)
    ∧ (m = 0 ↔ K ≤ Z.of_nat k)
    ∧ (b = true → ∀ k', (k' ≤ k)%nat →
         at3 (InitialConditions.MASK nk nj ni kmt) k' j i = Some true).
Proof.
  intros Hshape Hk HK.
  destruct (at2_lt nj ni _ _ _ _ Hshape HK) as [Hj Hi].
  rewrite (at3_ocean_MASK nk nj ni kmt k j i K) by done.
  rewrite (at3_MASK nk nj ni kmt k j i K) by done.
  eexists _, _. split; [done|]. split; [done|].
  rewrite bool_decide_eq_true.
  split; [done|]. split; [|split].
  - case_bool_decide; split; (done || lia).
  - case_bool_decide; split; (done || lia).
  - intros Hwet k' Hle.
    rewrite (at3_ocean_MASK nk nj ni kmt k' j i K) by (done || lia).
    f_equal. apply bool_decide_eq_true. lia.
Qed.

Lemma ocean_mask_block_witness :
  ∃ b m,
    at3 (InitialConditions.MASK 3 3 3 (KMT fixture)) 1 1 1 = Some b
    ∧ at3 (MASK 3 3 3 (KMT fixture)) 1 1 1 = Some m
    ∧ (b = true ↔ Z.of_nat 1 < 2)
    ∧ (m = 1 ↔ Z.of_nat 1 < 2)
    ∧ (m = 0 ↔ 2 ≤ Z.of_nat 1)
    ∧ (b = true → ∀ k', (k' ≤ 1)%nat →
         at3 (InitialConditions.MASK 3 3 3 (KMT fixture)) k' 1 1 = Some true).
Proof.
  apply (ocean_mask_block 3 3 3 (KMT fixture) 1 1 1 2);
    [exact fixture_shape | lia | reflexivity].
Defined.

(** ** The warnings of the whole regridding loop *)

Section all_tracers.
Import InitialConditions.
Context {V : Type}.
Variables (nk : nat) (MASK : array3 bool).



End all_tracers.

(** ** The marginal-seas cell *)

Lemma at3_xr_where_scalar {A} (cond : array3 bool) (x : A) (a : array3 A)
    (k j i : nat) :
  at3 (xr_where_scalar cond x a) k j i
  = c ← at3 cond k j i; y ← at3 a k j i; Some (if c : bool then x else y).
Proof. unfold xr_where_scalar. by rewrite at3_map3. Qed.

Lemma at3_xr_where3 {A} (cond : array3 bool) (a b : array3 A) (k j i : nat) :
  at3 (InitialConditions.xr_where3 cond a b) k j i
  = c ← at3 cond k j i; x ← at3 a k j i; y ← at3 b k j i;
    Some (if c : bool then x else y).
Proof.
  unfold InitialConditions.xr_where3. rewrite !at3_map3.
  destruct (at3 cond k j i); simpl; [|done].
  destruct (at3 a k j i); simpl; [|done].
  by destruct (at3 b k j i).
Qed.

Lemma at3_MASK_fit {F} (mask : array3 bool) (REGION_MASK : array2 Z)
    (region : Z) (test : F → bool) (SALT : array3 F) (k j i : nat) :
  at3 (InitialConditions.MASK_fit mask REGION_MASK region test SALT) k j i
  = m ← at3 mask k j i; r ← at2 REGION_MASK j i; s ← at3 SALT k j i;
    Some (m && bool_decide (r = region) && test s).
Proof.
  unfold InitialConditions.MASK_fit. rewrite at3_map3, at3_bcast2, at3_fmap.
  destruct (at3 mask k j i); simpl; [|done].
  destruct (at2 REGION_MASK j i); simpl; [|done].
  by destruct (at3 SALT k j i).
Qed.

Lemma shape3_xr_where3 {A} (nk nj ni : nat) (cond : array3 bool)
    (a b : array3 A) :
  shape3 nk nj ni cond → shape3 nk nj ni a → shape3 nk nj ni b →
  shape3 nk nj ni (InitialConditions.xr_where3 cond a b).
Proof.
  intros Hc Ha Hb. unfold InitialConditions.xr_where3.
  by repeat apply shape3_map3.
Qed.

Lemma shape3_MASK_fit {F} (nk nj ni : nat) (mask : array3 bool)
    (REGION_MASK : array2 Z) (region : Z) (test : F → bool)
    (SALT : array3 F) :
  shape3 nk nj ni mask → shape2 nj ni REGION_MASK → shape3 nk nj ni SALT →
  shape3 nk nj ni
    (InitialConditions.MASK_fit mask REGION_MASK region test SALT).
Proof.
  intros Hm Hr Hs. unfold InitialConditions.MASK_fit.
  apply shape3_map3; [by apply shape3_bcast2|by apply shape3_fmap].
Qed.

Ltac marginal_seas_cell :=
  unfold InitialConditions.marginal_seas; cbv zeta; cbn [fst snd];
  repeat (rewrite at3_xr_where3 || rewrite at3_xr_where_scalar
          || rewrite at3_MASK_fit || rewrite at3_fmap).

Section marginal_seas_facts.
Context {F : Type}.
Variable lit : Q → F.
Variables fadd fsub fmul fdiv : F → F → F.
Variables fle fgt : F → F → bool.
Variables nk nj ni : nat.
Variable mask : array3 bool.
Variable REGION_MASK : array2 Z.
Variables SALT ALK DIC : array3 F.

Local Abbreviation out :=
  (InitialConditions.marginal_seas lit fadd fsub fmul fdiv fle fgt
     mask REGION_MASK SALT ALK DIC).

(** X23. The cell keeps the shape of ALK and DIC, and it leaves both
    unchanged at every cell that is outside the ocean mask or whose
    region is neither the Black Sea (-13) nor the Baltic (-12). *)
Theorem marginal_seas_frame (k j i : nat) (m : bool) (r : Z) (s a d : F) :
  shape3 nk nj ni mask → shape2 nj ni REGION_MASK →
  shape3 nk nj ni SALT → shape3 nk nj ni ALK → shape3 nk nj ni DIC →
  at3 mask k j i = Some m → at2 REGION_MASK j i = Some r →
  at3 SALT k j i = Some s →
  at3 ALK k j i = Some a → at3 DIC k j i = Some d →
  shape3 nk nj ni out.1 ∧ shape3 nk nj ni out.2
  ∧ (m = false ∨ (r ≠ -13 ∧ r ≠ -12) →
     at3 out.1 k j i = Some a ∧ at3 out.2 k j i = Some d).
Proof.
  intros Hmask Hreg Hsalt Halk Hdic Hm Hr Hs Ha Hd.
  split; [|split].
  - unfold InitialConditions.marginal_seas. cbv zeta. cbn [fst].
    unfold xr_where_scalar.
    repeat first
      [ assumption | apply shape3_xr_where3 | apply shape3_MASK_fit
      | apply shape3_fmap | apply shape3_map3 ].
  - unfold InitialConditions.marginal_seas. cbv zeta. cbn [snd].
    unfold xr_where_scalar.
    repeat first
      [ assumption | apply shape3_xr_where3 | apply shape3_MASK_fit
      | apply shape3_fmap | apply shape3_map3 ].
  - intros Hout. marginal_seas_cell. rewrite Hm, Hr, Hs, Ha, Hd. simpl.
    destruct Hout as [->|[H13 H12]]; [done|].
    rewrite !(bool_decide_eq_false_2 (r = -13)) by done.
    rewrite !(bool_decide_eq_false_2 (r = -12)) by done.
    by rewrite !andb_false_r.
Qed.

(** X24. In a masked Baltic cell (region -12) ALK becomes the linear
    fit in salinity, the Baltic Proper fit where the salinity is above
    7.3 and the Gulf of Bothnia fit where it is at most 7.3, and DIC
    becomes the new ALK divided by 1.01; where neither comparison holds
    (a missing salinity) both keep their value. *)
Theorem marginal_seas_baltic (k j i : nat) (s a d : F) :
  shape3 nk nj ni mask → shape2 nj ni REGION_MASK →
  shape3 nk nj ni SALT → shape3 nk nj ni ALK → shape3 nk nj ni DIC →
  at3 mask k j i = Some true → at2 REGION_MASK j i = Some (-12) →
  at3 SALT k j i = Some s →
  at3 ALK k j i = Some a → at3 DIC k j i = Some d →
  ∃ a' d', at3 out.1 k j i = Some a' ∧ at3 out.2 k j i = Some d'
    ∧ (fgt s (lit 7.3) = true →
       a' = fdiv (fadd (lit 1237.0) (fmul (lit 43.0) s)) (lit 1.026)
       ∧ d' = fdiv a' (lit 1.01))
    ∧ (fgt s (lit 7.3) = false → fle s (lit 7.3) = true →
       a' = fdiv (fadd (lit 119.0) (fmul (lit 196.0) s)) (lit 1.026)
       ∧ d' = fdiv a' (lit 1.01))
    ∧ (fgt s (lit 7.3) = false → fle s (lit 7.3) = false →
       a' = a ∧ d' = d).
Proof.
  intros _ _ _ _ _ Hm Hr Hs Ha Hd.
  eexists _, _. split; [|split].
  - marginal_seas_cell. rewrite Hm, Hr, Hs, Ha. simpl. reflexivity.
  - marginal_seas_cell. rewrite Hm, Hr, Hs, Ha, Hd. simpl. reflexivity.
  - unfold InitialConditions.rho_0.
    destruct (fgt s (lit 7.3)), (fle s (lit 7.3)); simpl;
      intuition congruence.
Qed.

(** X25. In a masked Black Sea cell (region -13): where the salinity is
    above 21, ALK becomes the fit through 3300 at 21 and 4500 at 22.3 and
    DIC becomes (new ALK + 1000) / 1.32; where it is at most 21, ALK is
    3250 and DIC is 3250, or the fit through 3000 at 18 and 3250 at 19.5
    where the salinity is at most 19.5; where neither comparison with 21
    holds, ALK keeps its value. *)
Theorem marginal_seas_black_sea (k j i : nat) (s a d : F) :
  shape3 nk nj ni mask → shape2 nj ni REGION_MASK →
  shape3 nk nj ni SALT → shape3 nk nj ni ALK → shape3 nk nj ni DIC →
  at3 mask k j i = Some true → at2 REGION_MASK j i = Some (-13) →
  at3 SALT k j i = Some s →
  at3 ALK k j i = Some a → at3 DIC k j i = Some d →
  let fit_DIC :=
    fadd (lit 3000.0)
      (fmul (fdiv (fsub s (lit 18)) (fsub (lit 19.5) (lit 18))) (lit 250)) in
  ∃ a' d', at3 out.1 k j i = Some a' ∧ at3 out.2 k j i = Some d'
    ∧ (fgt s (lit 21.0) = true →
       a' = fadd (lit 3300.0)
              (fmul (fdiv (fsub s (lit 21)) (fsub (lit 22.3) (lit 21)))
                    (lit 1200))
       ∧ d' = fdiv (fadd a' (lit 1000)) (lit 1.32))
    ∧ (fgt s (lit 21.0) = false → fle s (lit 21.0) = true →
       a' = lit 3250.0
       ∧ d' = if fle s (lit 19.5) then fit_DIC else lit 3250.0)
    ∧ (fgt s (lit 21.0) = false → fle s (lit 21.0) = false →
       a' = a ∧ d' = if fle s (lit 19.5) then fit_DIC else d).
Proof.
  intros _ _ _ _ _ Hm Hr Hs Ha Hd fit_DIC.
  eexists _, _. split; [|split].
  - marginal_seas_cell. rewrite Hm, Hr, Hs, Ha. simpl. reflexivity.
  - marginal_seas_cell. rewrite Hm, Hr, Hs, Ha, Hd. simpl. reflexivity.
  - unfold fit_DIC.
    destruct (fgt s (lit 21.0)), (fle s (lit 21.0)), (fle s (lit 19.5));
      simpl; intuition congruence.
Qed.

End marginal_seas_facts.

Lemma marginal_seas_frame_witness :
  let out :=
    InitialConditions.marginal_seas (λ q : Q, q) Qplus Qminus Qmult Qdiv
      Qle_bool (λ x y, negb (Qle_bool x y))
      [[[true; true]]] [[-13; 6]] [[[20%Q; 35%Q]]] [[[2400%Q; 2300%Q]]]
      [[[2200%Q; 2100%Q]]] in
  shape3 1 1 2 out.1 ∧ shape3 1 1 2 out.2
  ∧ (true = false ∨ (6 ≠ -13 ∧ 6 ≠ -12) →
     at3 out.1 0 0 1 = Some 2300%Q ∧ at3 out.2 0 0 1 = Some 2100%Q).
Proof.
  apply (marginal_seas_frame (λ q : Q, q) Qplus Qminus Qmult Qdiv
           Qle_bool (λ x y, negb (Qle_bool x y)) 1 1 2
           [[[true; true]]] [[-13; 6]] [[[20%Q; 35%Q]]]
           [[[2400%Q; 2300%Q]]] [[[2200%Q; 2100%Q]]] 0 0 1 true 6 35%Q).
  - split; [reflexivity|]. repeat constructor.
  - split; [reflexivity|]. repeat constructor.
  - split; [reflexivity|]. repeat constructor.
  - split; [reflexivity|]. repeat constructor.
  - split; [reflexivity|]. repeat constructor.
  - reflexivity.
  - reflexivity.
  - reflexivity.
  - reflexivity.
  - reflexivity.
Defined.

Lemma marginal_seas_baltic_witness :
  let out :=
    InitialConditions.marginal_seas (λ q : Q, q) Qplus Qminus Qmult Qdiv
      Qle_bool (λ x y, negb (Qle_bool x y))
      [[[true]]] [[-12]] [[[6%Q]]] [[[2400%Q]]] [[[2200%Q]]] in
  ∃ a' d', at3 out.1 0 0 0 = Some a' ∧ at3 out.2 0 0 0 = Some d'
    ∧ (negb (Qle_bool 6 7.3) = true →
       a' = (1237.0 + 43.0 * 6) / 1.026 ∧ d' = a' / 1.01)%Q
    ∧ (negb (Qle_bool 6 7.3) = false → Qle_bool 6 7.3 = true →
       a' = (119.0 + 196.0 * 6) / 1.026 ∧ d' = a' / 1.01)%Q
    ∧ (negb (Qle_bool 6 7.3) = false → Qle_bool 6 7.3 = false →
       a' = 2400%Q ∧ d' = 2200%Q).
Proof.
  apply (marginal_seas_baltic (λ q : Q, q) Qplus Qminus Qmult Qdiv
           Qle_bool (λ x y, negb (Qle_bool x y)) 1 1 1
           [[[true]]] [[-12]] [[[6%Q]]] [[[2400%Q]]] [[[2200%Q]]] 0 0 0).
  - split; [reflexivity|]. repeat constructor.
  - split; [reflexivity|]. repeat constructor.
  - split; [reflexivity|]. repeat constructor.
  - split; [reflexivity|]. repeat constructor.
  - split; [reflexivity|]. repeat constructor.
  - reflexivity.
  - reflexivity.
  - reflexivity.
  - reflexivity.
  - reflexivity.
Defined.

Lemma marginal_seas_black_sea_witness :
  let out :=
    InitialConditions.marginal_seas (λ q : Q, q) Qplus Qminus Qmult Qdiv
      Qle_bool (λ x y, negb (Qle_bool x y))
      [[[true]]] [[-13]] [[[20%Q]]] [[[2400%Q]]] [[[2200%Q]]] in
  let fit_DIC := (3000.0 + (20 - 18) / (19.5 - 18) * 250)%Q in
  ∃ a' d', at3 out.1 0 0 0 = Some a' ∧ at3 out.2 0 0 0 = Some d'
    ∧ (negb (Qle_bool 20 21.0) = true →
       a' = (3300.0 + (20 - 21) / (22.3 - 21) * 1200)%Q
       ∧ d' = ((a' + 1000) / 1.32)%Q)
    ∧ (negb (Qle_bool 20 21.0) = false → Qle_bool 20 21.0 = true →
       a' = 3250.0%Q
       ∧ d' = if Qle_bool 20 19.5 then fit_DIC else 3250.0%Q)
    ∧ (negb (Qle_bool 20 21.0) = false → Qle_bool 20 21.0 = false →
       a' = 2400%Q ∧ d' = if Qle_bool 20 19.5 then fit_DIC else 2200%Q).
Proof.
  apply (marginal_seas_black_sea (λ q : Q, q) Qplus Qminus Qmult Qdiv
           Qle_bool (λ x y, negb (Qle_bool x y)) 1 1 1
           [[[true]]] [[-13]] [[[20%Q]]] [[[2400%Q]]] [[[2200%Q]]] 0 0 0).
  - split; [reflexivity|]. repeat constructor.
  - split; [reflexivity|]. repeat constructor.
  - split; [reflexivity|]. repeat constructor.
  - split; [reflexivity|]. repeat constructor.
  - split; [reflexivity|]. repeat constructor.
  - reflexivity.
  - reflexivity.
  - reflexivity.
  - reflexivity.
  - reflexivity.
Defined.
